(** * pegomock/mockgen: the mock generator, embedded and verified

    A shallow embedding of [mockgen/mockgen.go].  The generator writes Go
    source text into a buffer; here the buffer is the list of lines written
    by [p], maps are stdpp's [gmap], and the three effects of the program
    (a panic, the unbounded alias loop, the unspecified iteration order of
    Go maps) are explicit. *)

From Stdlib Require Import Ascii String ZArith.
From stdpp Require Import base gmap list strings sorting pretty.

Local Open Scope string_scope.
Local Open Scope list_scope.
#[local] Set Warnings "-clear-no-such-hyp".

(** ** The parts of Go's library the generator calls *)

(** The functions below are not part of the repository.  Those whose result
    is fixed by a few lines of documentation are written out; the Unicode
    tables, UTF-8 decoding, [%q] quoting and [go/format] are taken as
    operations of a [GoLibrary]. *)
Class GoLibrary := {
  (** [for _, r := range s]: the runes of [s] *)
  utf8_runes : string → list Z;
  (** [string(r)] *)
  string_of_rune : Z → string;
  unicode_IsLetter : Z → bool;
  unicode_IsDigit : Z → bool;
  (** the verb [%q] of [fmt] applied to a string *)
  fmt_q : string → string;
  (** [format.Source]: the formatted source, or the message of the error *)
  format_Source : string → string + string
}.

(** [strings.Join(s, sep)] *)
Definition strings_Join (s : list string) (sep : string) : string :=
  String.concat sep s.

(** [join] of mockgen.go *)
Definition join (s : list string) : string := strings_Join s ", ".

(** [strings.Split(s, sep)] for a non-empty [sep]: [skip] counts the bytes of
    a separator found at an earlier position that are still to be passed. *)
Fixpoint Split_from (sep : string) (skip : nat) (cur s : string) : list string :=
  match s with
  | EmptyString => [cur]
  | String c s' =>
      match skip with
      | S k => Split_from sep k cur s'
      | O =>
          if String.prefix sep s
          then cur :: Split_from sep (String.length sep - 1) "" s'
          else Split_from sep 0 (cur +:+ String c "") s'
      end
  end.

Definition strings_Split (s sep : string) : list string := Split_from sep 0 "" s.

(** [strings.Replace(s, old, "", 1)] for a non-empty [old]: the first
    occurrence of [old] is removed. *)
Fixpoint strings_Remove1 (s old : string) : string :=
  if String.prefix old s
  then String.substring (String.length old) (String.length s - String.length old) s
  else match s with
       | EmptyString => EmptyString
       | String c s' => String c (strings_Remove1 s' old)
       end.

(** [path.Base]: trailing slashes are dropped, then everything up to the
    last slash; the empty path has base ["."], a path of slashes ["/"]. *)
Fixpoint dropSlashes (r : string) : string :=
  match r with
  | String "/" r' => dropSlashes r'
  | _ => r
  end.

Fixpoint uptoSlash (r : string) : string :=
  match r with
  | EmptyString => EmptyString
  | String "/" _ => EmptyString
  | String c r' => String c (uptoSlash r')
  end.

Definition path_Base (path : string) : string :=
  if decide (path = "") then "."
  else
    let last := String.rev (uptoSlash (dropSlashes (String.rev path))) in
    if decide (last = "") then "/" else last.

(** [strconv.Itoa] on the counter of the alias loop, which is never negative *)
Definition strconv_Itoa (i : nat) : string := pretty i.

(** [sort.Strings]: increasing byte-wise order.  The order is total and
    antisymmetric, so the result does not depend on the algorithm. *)
Definition sort_Strings (l : list string) : list string := merge_sort String.le l.

(** The keywords of Go, [token.Lookup(name).IsKeyword()] *)
Definition keywords : list string :=
  [ "break"; "case"; "chan"; "const"; "continue"; "default"; "defer"; "else";
    "fallthrough"; "for"; "func"; "go"; "goto"; "if"; "import"; "interface";
    "map"; "package"; "range"; "return"; "select"; "struct"; "switch"; "type";
    "var" ].

Definition token_IsKeyword (name : string) : bool := bool_decide (name ∈ keywords).

(** ** Iteration order of maps *)

(** Go leaves the order in which [range] (and [lo.Keys], which ranges) visits
    a map unspecified.  A [MapOrder] fixes the order one run happens to use:
    some arrangement of the entries of the map. *)
Record MapOrder := {
  map_range : ∀ A : Type, gmap string A → list (string * A);
  map_range_perm : ∀ A (m : gmap string A), map_range A m ≡ₚ map_to_list m
}.
Arguments map_range _ {A} _.

(** [lo.Keys(m)] *)
Definition lo_Keys {A} (ord : MapOrder) (m : gmap string A) : list string :=
  (map_range ord m).*1.

(** ** The alias resolver *)

Definition mockFrameworkImportPath : string := "github.com/petergtz/pegomock/v4".

Definition vendorCleaned (importPath : string) : string :=
  match strings_Split importPath "/vendor/" with
  | _ :: second :: _ => second
  | _ => importPath
  end.

Section sanitize.
Context `{lib : GoLibrary}.

(** One round of the loop of [sanitize] over the runes of its argument *)
Definition sanitize_rune (t : string) (r : Z) : string :=
  if decide (t = "") then
    if unicode_IsLetter r || bool_decide (r = 95%Z)
    then t +:+ string_of_rune r
    else t +:+ "_"
  else
    if unicode_IsLetter r || unicode_IsDigit r || bool_decide (r = 95%Z)
    then t +:+ string_of_rune r
    else t +:+ "_".

Definition sanitize (s : string) : string :=
  let t := foldl sanitize_rune "" (utf8_runes s) in
  if decide (t = "_") then "x" else t.
End sanitize.

(** The three maps [generateUniquePackageNamesFor] fills, under the names of
    its local variables *)
Module names.
Record aliases := {
  packageMap : gmap string string;
  nonVendorPackageMap : gmap string string;
  packageNamesAlreadyUsed : gmap string bool
}.
End names.
Abbreviation aliases := names.aliases.

(** The guard of the alias loop; a missing key of a [map[string]bool] reads
    as [false]. *)
Definition nameTaken (used : gmap string bool) (packageName : string) : bool :=
  default false (used !! packageName) || token_IsKeyword packageName.

(** [for i := 0; used[packageName] || IsKeyword(packageName); i++
       { packageName = base + strconv.Itoa(i) }].
    The Go loop has no bound; [fuel] bounds the number of rounds and [None]
    stands for a loop still running when it is used up. *)
Fixpoint nameLoop (used : gmap string bool) (base : string)
    (fuel i : nat) (packageName : string) : option string :=
  if nameTaken used packageName then
    match fuel with
    | O => None
    | S fuel' => nameLoop used base fuel' (S i) (base +:+ strconv_Itoa i)
    end
  else Some packageName.

Section resolver.
Context `{lib : GoLibrary}.

(** The body of the loop over the sorted import paths *)
Definition assignAlias (st : aliases) (importPath : string) : option aliases :=
  let sanitizedPackagePathBaseName := sanitize (path_Base importPath) in
  let used := names.packageNamesAlreadyUsed st in
  packageName ← nameLoop used sanitizedPackagePathBaseName
                  (S (size used)) 0 sanitizedPackagePathBaseName;
  let packageName :=
    if decide (importPath = mockFrameworkImportPath) then "pegomock"
    else packageName in
  Some {| names.packageMap := <[importPath := packageName]> (names.packageMap st);
          names.nonVendorPackageMap :=
            <[vendorCleaned importPath := packageName]> (names.nonVendorPackageMap st);
          names.packageNamesAlreadyUsed := <[packageName := true]> used |}.

Fixpoint assignAliases (st : aliases) (paths : list string) : option aliases :=
  match paths with
  | [] => Some st
  | importPath :: rest => st' ← assignAlias st importPath; assignAliases st' rest
  end.

Definition noAliases : aliases :=
  {| names.packageMap := ∅; names.nonVendorPackageMap := ∅;
     names.packageNamesAlreadyUsed := ∅ |}.

Definition generateUniquePackageNamesFor (ord : MapOrder)
    (importPaths : gmap string bool) : option (gmap string string * gmap string string) :=
  let sortedImportPaths := sort_Strings (lo_Keys ord importPaths) in
  st ← assignAliases noAliases sortedImportPaths;
  Some (names.packageMap st, names.nonVendorPackageMap st).
End resolver.

(** ** An instance of the library for ASCII text *)

(** On strings of ASCII characters, runes are bytes, and the letters and
    digits of Unicode are those of ASCII.  [%q] of a string without quotes,
    backslashes or control characters puts it between double quotes. *)
Definition ascii_letter (r : Z) : bool :=
  (bool_decide (65 ≤ r ≤ 90) || bool_decide (97 ≤ r ≤ 122))%Z.
Definition ascii_digit (r : Z) : bool := bool_decide (48 ≤ r ≤ 57)%Z.

Definition dquote : string := String (ascii_of_nat 34) "".

Definition asciiLibrary (fmt : string → string + string) : GoLibrary :=
  {| utf8_runes s := (λ c, Z.of_nat (nat_of_ascii c)) <$> list_ascii_of_string s;
     string_of_rune r := String (ascii_of_nat (Z.to_nat r)) "";
     unicode_IsLetter := ascii_letter;
     unicode_IsDigit := ascii_digit;
     fmt_q s := dquote +:+ s +:+ dquote;
     format_Source := fmt |}.

(** Two iteration orders: the one of [map_to_list], and its reverse. *)
Definition forwardOrder : MapOrder :=
  {| map_range A m := map_to_list m;
     map_range_perm A m := reflexivity (map_to_list m) |}.

Definition backwardOrder : MapOrder :=
  {| map_range A m := reverse (map_to_list m);
     map_range_perm A m := reverse_Permutation (map_to_list m) |}.

(** ** The structural model handed to the generator *)

(** Modelled from the spec: package [model] is not part of the sources at
    hand.  Its data (section 3 of the specification: Package, Interface,
    Method, Parameter, and the variants of Type listed in section 9) is
    declared here; a channel type carries its direction [Dir], which is [0]
    for a channel without direction, as [generateMockMethod] reads it. *)
Module model.
#[warnings="-register-all"]
Inductive Type_ :=
| NamedType (Package Name : string) (TypeArgs : list Type_)
| PredeclaredType (Name : string)
| PointerType (Elem : Type_)
| ArrayType (Len : Z) (Elem : Type_)
| MapType (Key Value : Type_)
| FuncType (In Out : list Type_)
| ChanType (Dir : Z) (Elem : Type_).

Record Parameter_ := { param_Name : string; param_Type : Type_ }.

Record Method := {
  method_Name : string;
  method_In : list Parameter_;
  method_Out : list Parameter_;
  method_Variadic : option Parameter_
}.

Record Interface := {
  iface_Name : string;
  iface_Methods : list Method;
  iface_TypeParams : list Parameter_
}.

Record Package := {
  pkg_Name : string;
  pkg_Interfaces : list Interface;
  pkg_DotImports : list string
}.
End model.
Import model.

(** The two operations of package [model] the generator calls: the method
    [String] of the interface [model.Type] and [Imports] of a package. *)
Class ModelPackage := {
  Type_String : Type_ → gmap string string → string → string;
  Package_Imports : Package → gmap string bool
}.

(** ** The generator *)

Record generator := {
  buf : list string;   (** the lines written so far; [Bytes] gives the bytes *)
  packageMap : gmap string string
}.

Definition newline : string := String (ascii_of_nat 10) "".
Definition tab : string := String (ascii_of_nat 9) "".

(** The content of [g.buf]: every call of [p] wrote its line and a newline. *)
Definition Bytes (g : generator) : string :=
  String.concat "" ((λ line, line +:+ newline) <$> buf g).

(** How a call ends: it returns, it panics, or it does not come back. *)
Inductive result (A : Type) :=
| Ok (a : A)
| Panic (msg : string)
| Diverge.
Arguments Ok {A} a.
Arguments Panic {A} msg.
Arguments Diverge {A}.

(** A method of [*generator] that writes into the buffer *)
Definition Emitter := generator → result generator.

Definition andThen (e1 e2 : Emitter) : Emitter := λ g,
  match e1 g with
  | Ok g' => e2 g'
  | Panic msg => Panic msg
  | Diverge => Diverge
  end.
Declare Scope emitter_scope.
Delimit Scope emitter_scope with E.
Bind Scope emitter_scope with Emitter.
Notation "e1 ;; e2" := (andThen e1%E e2%E)
  (at level 100, e2 at level 200, right associativity) : emitter_scope.
Local Open Scope emitter_scope.

Definition skip : Emitter := λ g, Ok g.
Definition panic (msg : string) : Emitter := λ _, Panic msg.

(** [g.p(format, args...)], with the arguments already put into the format *)
Definition p (line : string) : Emitter := λ g,
  Ok {| buf := buf g ++ [line]; packageMap := packageMap g |}.

Definition emptyLine : Emitter := p "".

(** [for _, x := range l { body }] and [for i, x := range l { body }] over a
    slice *)
Fixpoint forEach {A} (body : A → Emitter) (l : list A) : Emitter :=
  match l with
  | [] => skip
  | x :: l' => body x ;; forEach body l'
  end.

Definition indexed {A} (l : list A) : list (nat * A) := imap (λ i x, (i, x)) l.

Definition forEachi {A} (body : nat → A → Emitter) (l : list A) : Emitter :=
  forEach (λ ix, body ix.1 ix.2) (indexed l).

(** [%v] of an [int] *)
Definition itoa (i : nat) : string := strconv_Itoa i.

Section generator.
Context `{lib : GoLibrary} `{pkgModel : ModelPackage}.

Definition typeParamsStringFrom (params : list Parameter_)
    (packageMap : gmap string string) (pkgOverride : string) (withTypes : bool) : string :=
  if decide (length params = 0) then ""
  else
    foldl (λ result '(i, param),
             let result := if decide (0 < i) then result +:+ ", " else result in
             let result := result +:+ param_Name param in
             if withTypes
             then result +:+ " " +:+ Type_String (param_Type param) packageMap pkgOverride
             else result)
          "[" (indexed params) +:+ "]".

Definition generateMockType (mockTypeName typeParams typeParamNames : string) : Emitter :=
  emptyLine ;;
  p ("type " +:+ mockTypeName +:+ typeParams +:+ " struct {") ;;
  p (tab +:+ "fail func(message string, callerSkip ...int)") ;;
  p "}" ;;
  emptyLine ;;
  p ("func New" +:+ mockTypeName +:+ typeParams +:+ "(options ...pegomock.Option) *"
       +:+ mockTypeName +:+ typeParamNames +:+ " {") ;;
  p (tab +:+ "mock := &" +:+ mockTypeName +:+ typeParamNames +:+ "{}") ;;
  p (tab +:+ "for _, option := range options {") ;;
  p (tab +:+ tab +:+ "option.Apply(mock)") ;;
  p (tab +:+ "}") ;;
  p (tab +:+ "return mock") ;;
  p "}" ;;
  emptyLine ;;
  p ("func (mock *" +:+ mockTypeName +:+ typeParamNames
       +:+ ") SetFailHandler(fh pegomock.FailHandler) { mock.fail = fh }") ;;
  p ("func (mock *" +:+ mockTypeName +:+ typeParamNames
       +:+ ") FailHandler() pegomock.FailHandler      { return mock.fail }") ;;
  emptyLine.

Definition argDataFor (method : Method) (packageMap : gmap string string)
    (pkgOverride : string) : list string * list string * list string * list Type_ :=
  let fixed :=
    imap (λ i arg,
            let argName :=
              if decide (param_Name arg = "") then "_param" +:+ itoa i
              else param_Name arg in
            let argType := Type_String (param_Type arg) packageMap pkgOverride in
            (argName +:+ " " +:+ argType, argName, argType))
         (method_In method) in
  let args := fixed.*1.*1 in
  let argNames := fixed.*1.*2 in
  let argTypes := fixed.*2 in
  let '(args, argNames, argTypes) :=
    match method_Variadic method with
    | Some variadic =>
        let argName :=
          if decide (param_Name variadic = "")
          then "_param" +:+ itoa (length (method_In method))
          else param_Name variadic in
        let argType := Type_String (param_Type variadic) packageMap pkgOverride in
        (args ++ [argName +:+ " ..." +:+ argType],
         argNames ++ [argName],
         argTypes ++ ["[]" +:+ argType])
    | None => (args, argNames, argTypes)
    end in
  let returnTypes := param_Type <$> method_Out method in
  (args, argNames, argTypes, returnTypes).

Definition stringSliceFrom (types : list Type_) (packageMap : gmap string string)
    (pkgOverride : string) : list string :=
  (λ t, Type_String t packageMap pkgOverride) <$> types.

(** [argNames[0:len(argNames)-1]] and [argNames[len(argNames)-1]] panic on
    an empty slice. *)
Definition GenerateParamsDeclaration (argNames : list string) (isVariadic : bool) : Emitter :=
  if isVariadic then
    match last argNames with
    | None => panic "runtime error: slice bounds out of range [:-1]"
    | Some variadicName =>
        p ("_params := []pegomock.Param{"
             +:+ strings_Join (take (length argNames - 1) argNames) ", " +:+ "}") ;;
        p ("for _, param := range " +:+ variadicName +:+ " {") ;;
        p "_params = append(_params, param)" ;;
        p "}"
    end
  else p ("_params := []pegomock.Param{" +:+ join argNames +:+ "}").

(** The lines that take the result at position [i] out of [_result] *)
Definition assertResult (packageMap : gmap string string) (pkgOverride : string)
    (i : nat) (returnType : Type_) : Emitter :=
  p ("if _result[" +:+ itoa i +:+ "] != nil {") ;;
  match returnType with
  | ChanType Dir Elem =>
      if decide (Dir ≠ 0%Z) then
        let undirectedChanType := ChanType 0 Elem in
        p "var ok bool" ;;
        p ("  _ret" +:+ itoa i +:+ ", ok = _result[" +:+ itoa i +:+ "].("
             +:+ Type_String undirectedChanType packageMap pkgOverride +:+ ")") ;;
        p "if !ok{" ;;
        p ("_ret" +:+ itoa i +:+ " = _result[" +:+ itoa i +:+ "].("
             +:+ Type_String returnType packageMap pkgOverride +:+ ")") ;;
        p "}"
      else
        p ("_ret" +:+ itoa i +:+ "  = _result[" +:+ itoa i +:+ "].("
             +:+ Type_String returnType packageMap pkgOverride +:+ ")")
  | _ =>
      p ("_ret" +:+ itoa i +:+ "  = _result[" +:+ itoa i +:+ "].("
           +:+ Type_String returnType packageMap pkgOverride +:+ ")")
  end ;;
  p "}".

Definition generateMockMethod (mockType typeParamNames : string) (method : Method)
    (pkgOverride : string) : Emitter := λ g,
  let '(args, argNames, _, returnTypes) := argDataFor method (packageMap g) pkgOverride in
  (p ("func (mock *" +:+ mockType +:+ typeParamNames +:+ ") " +:+ method_Name method
        +:+ "(" +:+ join args +:+ ") ("
        +:+ join (stringSliceFrom returnTypes (packageMap g) pkgOverride) +:+ ") {") ;;
   p "if mock == nil {" ;;
   p (tab +:+ "panic(" +:+ dquote +:+ "mock must not be nil. Use myMock := New"
        +:+ mockType +:+ "()." +:+ dquote +:+ ")") ;;
   p "}" ;;
   GenerateParamsDeclaration argNames (bool_decide (is_Some (method_Variadic method))) ;;
   let reflectReturnTypes :=
     (λ returnType, "reflect.TypeOf((*"
                      +:+ Type_String returnType (packageMap g) pkgOverride
                      +:+ ")(nil)).Elem()") <$> returnTypes in
   let resultAssignment :=
     if decide (0 < length (method_Out method)) then "_result :=" else "" in
   p (resultAssignment +:+ " pegomock.GetGenericMockFrom(mock).Invoke(" +:+ dquote
        +:+ method_Name method +:+ dquote +:+ ", _params, []reflect.Type{"
        +:+ strings_Join reflectReturnTypes ", " +:+ "})") ;;
   (if decide (0 < length (method_Out method)) then
      forEachi (λ i returnType,
                  p ("var _ret" +:+ itoa i +:+ " "
                       +:+ Type_String returnType (packageMap g) pkgOverride))
               returnTypes ;;
      p "if len(_result) != 0 {" ;;
      forEachi (assertResult (packageMap g) pkgOverride) returnTypes ;;
      p "}" ;;
      let returnValues := imap (λ i _, "_ret" +:+ itoa i) returnTypes in
      p ("return " +:+ strings_Join returnValues ", ")
    else skip) ;;
   p "}") g.

Definition generateVerifierType (interfaceName typeParams typeParamNames : string) : Emitter :=
  p ("type Verifier" +:+ interfaceName +:+ typeParams +:+ " struct {") ;;
  p (tab +:+ "mock *" +:+ interfaceName +:+ typeParamNames) ;;
  p (tab +:+ "invocationCountMatcher pegomock.InvocationCountMatcher") ;;
  p (tab +:+ "inOrderContext *pegomock.InOrderContext") ;;
  p (tab +:+ "timeout time.Duration") ;;
  p "}" ;;
  emptyLine.

Definition generateMockVerifyMethods (interfaceName typeParamNames : string) : Emitter :=
  let receiver := "func (mock *" +:+ interfaceName +:+ typeParamNames +:+ ") " in
  let verifier := "Verifier" +:+ interfaceName +:+ typeParamNames in
  p (receiver +:+ "VerifyWasCalledOnce() *" +:+ verifier +:+ " {") ;;
  p (tab +:+ "return &" +:+ verifier +:+ "{") ;;
  p (tab +:+ tab +:+ "mock: mock,") ;;
  p (tab +:+ tab +:+ "invocationCountMatcher: pegomock.Times(1),") ;;
  p (tab +:+ "}") ;;
  p "}" ;;
  emptyLine ;;
  p (receiver +:+ "VerifyWasCalled(invocationCountMatcher pegomock.InvocationCountMatcher) *"
       +:+ verifier +:+ " {") ;;
  p (tab +:+ "return &" +:+ verifier +:+ "{") ;;
  p (tab +:+ tab +:+ "mock: mock,") ;;
  p (tab +:+ tab +:+ "invocationCountMatcher: invocationCountMatcher,") ;;
  p (tab +:+ "}") ;;
  p "}" ;;
  emptyLine ;;
  p (receiver +:+ "VerifyWasCalledInOrder(invocationCountMatcher pegomock.InvocationCountMatcher, inOrderContext *pegomock.InOrderContext) *"
       +:+ verifier +:+ " {") ;;
  p (tab +:+ "return &" +:+ verifier +:+ "{") ;;
  p (tab +:+ tab +:+ "mock: mock,") ;;
  p (tab +:+ tab +:+ "invocationCountMatcher: invocationCountMatcher,") ;;
  p (tab +:+ tab +:+ "inOrderContext: inOrderContext,") ;;
  p (tab +:+ "}") ;;
  p "}" ;;
  emptyLine ;;
  p (receiver +:+ "VerifyWasCalledEventually(invocationCountMatcher pegomock.InvocationCountMatcher, timeout time.Duration) *"
       +:+ verifier +:+ " {") ;;
  p (tab +:+ "return &" +:+ verifier +:+ "{") ;;
  p (tab +:+ tab +:+ "mock: mock,") ;;
  p (tab +:+ tab +:+ "invocationCountMatcher: invocationCountMatcher,") ;;
  p (tab +:+ tab +:+ "timeout: timeout,") ;;
  p (tab +:+ "}") ;;
  p "}" ;;
  emptyLine.

Definition generateVerifierMethod (interfaceName typeParamNames : string) (method : Method)
    (pkgOverride returnTypeString : string) (args argNames : list string) : Emitter :=
  p ("func (verifier *Verifier" +:+ interfaceName +:+ typeParamNames +:+ ") "
       +:+ method_Name method +:+ "(" +:+ join args +:+ ") *"
       +:+ returnTypeString +:+ typeParamNames +:+ " {") ;;
  GenerateParamsDeclaration argNames (bool_decide (is_Some (method_Variadic method))) ;;
  p ("methodInvocations := pegomock.GetGenericMockFrom(verifier.mock).Verify(verifier.inOrderContext, verifier.invocationCountMatcher, "
       +:+ dquote +:+ method_Name method +:+ dquote +:+ ", _params, verifier.timeout)") ;;
  p ("return &" +:+ returnTypeString +:+ typeParamNames
       +:+ "{mock: verifier.mock, methodInvocations: methodInvocations}") ;;
  p "}".

Definition generateOngoingVerificationType
    (interfaceName typeParams typeParamNames ongoingVerificationStructName : string) : Emitter :=
  p ("type " +:+ ongoingVerificationStructName +:+ typeParams +:+ " struct {") ;;
  p ("mock *" +:+ interfaceName +:+ typeParamNames) ;;
  p (tab +:+ "methodInvocations []pegomock.MethodInvocation") ;;
  p "}" ;;
  emptyLine.

Definition generateOngoingVerificationGetCapturedArguments
    (ongoingVerificationStructName : string) (argNames argTypes : list string)
    (typeParamNames : string) : Emitter :=
  p ("func (c *" +:+ ongoingVerificationStructName +:+ typeParamNames
       +:+ ") GetCapturedArguments() (" +:+ join argTypes +:+ ") {") ;;
  (if decide (0 < length argNames) then
     let indexedArgNames :=
       (λ argName, argName +:+ "[len(" +:+ argName +:+ ")-1]") <$> argNames in
     p (join argNames +:+ " := c.GetAllCapturedArguments()") ;;
     p ("return " +:+ strings_Join indexedArgNames ", ")
   else skip) ;;
  p "}" ;;
  emptyLine.

(** The variadic position is the last one, so the [break] that ends its
    round of the loop over [argTypes] leaves nothing out. *)
Definition generateOngoingVerificationGetAllCapturedArguments
    (ongoingVerificationStructName typeParamNames : string) (argTypes : list string)
    (isVariadic : bool) : Emitter :=
  let numArgs := length argTypes in
  let argsAsArray := imap (λ i argType, "_param" +:+ itoa i +:+ " []" +:+ argType) argTypes in
  p ("func (c *" +:+ ongoingVerificationStructName +:+ typeParamNames
       +:+ ") GetAllCapturedArguments() (" +:+ strings_Join argsAsArray ", " +:+ ") {") ;;
  (if decide (0 < numArgs) then
     p "_params := pegomock.GetGenericMockFrom(c.mock).GetInvocationParams(c.methodInvocations)" ;;
     p "if len(_params) > 0 {" ;;
     forEachi (λ i argType,
       if isVariadic && bool_decide (i = numArgs - 1) then
         let variadicBasicType := strings_Remove1 argType "[]" in
         p ("_param" +:+ itoa i +:+ " = make([]" +:+ argType +:+ ", len(c.methodInvocations))") ;;
         p "for u := 0; u < len(c.methodInvocations); u++ {" ;;
         p ("_param" +:+ itoa i +:+ "[u] = make([]" +:+ variadicBasicType
              +:+ ", len(_params)-" +:+ itoa i +:+ ")") ;;
         p ("for x := " +:+ itoa i +:+ "; x < len(_params); x++ {") ;;
         p "if _params[x][u] != nil {" ;;
         p ("_param" +:+ itoa i +:+ "[u][x-" +:+ itoa i +:+ "] = _params[x][u].("
              +:+ variadicBasicType +:+ ")") ;;
         p "}" ;;
         p "}" ;;
         p "}"
       else
         p ("if len(_params) > " +:+ itoa i +:+ " {") ;;
         p ("_param" +:+ itoa i +:+ " = make([]" +:+ argType +:+ ", len(c.methodInvocations))") ;;
         p ("for u, param := range _params[" +:+ itoa i +:+ "] {") ;;
         p ("_param" +:+ itoa i +:+ "[u]=param.(" +:+ argType +:+ ")") ;;
         p "}" ;;
         p "}") argTypes ;;
     p "}" ;;
     p "return"
   else skip) ;;
  p "}" ;;
  emptyLine.

Definition generateMockFor (iface : Interface) (mockTypeName selfPackage : string) : Emitter := λ g,
  let typeParamNames := typeParamsStringFrom (iface_TypeParams iface) (packageMap g) selfPackage false in
  let typeParams := typeParamsStringFrom (iface_TypeParams iface) (packageMap g) selfPackage true in
  (generateMockType mockTypeName typeParams typeParamNames ;;
   forEach (λ method, generateMockMethod mockTypeName typeParamNames method selfPackage ;;
                      emptyLine)
           (iface_Methods iface) ;;
   generateMockVerifyMethods mockTypeName typeParamNames ;;
   generateVerifierType mockTypeName typeParams typeParamNames ;;
   forEach (λ method,
              let ongoingVerificationTypeName :=
                mockTypeName +:+ "_" +:+ method_Name method +:+ "_OngoingVerification" in
              let '(args, argNames, argTypes, _) := argDataFor method (packageMap g) selfPackage in
              generateVerifierMethod mockTypeName typeParamNames method selfPackage
                ongoingVerificationTypeName args argNames ;;
              generateOngoingVerificationType mockTypeName typeParams typeParamNames
                ongoingVerificationTypeName ;;
              generateOngoingVerificationGetCapturedArguments ongoingVerificationTypeName
                argNames argTypes typeParamNames ;;
              generateOngoingVerificationGetAllCapturedArguments ongoingVerificationTypeName
                typeParamNames argTypes (bool_decide (is_Some (method_Variadic method))))
           (iface_Methods iface)) g.

(** [g.packageMap = packageMap] *)
Definition setPackageMap (packageMap : gmap string string) : Emitter := λ g,
  Ok {| buf := buf g; packageMap := packageMap |}.

(** The import line of one entry of [nonVendorPackageMap] *)
Definition importLine (selfPackage : string) (entry : string * string) : Emitter :=
  let '(packagePath, packageName) := entry in
  if decide (packagePath ≠ selfPackage ∧ packagePath ≠ "time" ∧ packagePath ≠ "reflect")
  then p (packageName +:+ " " +:+ fmt_q packagePath)
  else skip.

Definition generateCode (ord : MapOrder) (source : string) (pkg : Package)
    (structName pkgName selfPackage : string) : Emitter :=
  p "// Code generated by pegomock. DO NOT EDIT." ;;
  p ("// Source: " +:+ source) ;;
  emptyLine ;;
  let importPaths := <[mockFrameworkImportPath := true]> (Package_Imports pkg) in
  match generateUniquePackageNamesFor ord importPaths with
  | None => λ _, Diverge
  | Some (packageMap, nonVendorPackageMap) =>
      setPackageMap packageMap ;;
      p ("package " +:+ pkgName) ;;
      emptyLine ;;
      p "import (" ;;
      p (dquote +:+ "reflect" +:+ dquote) ;;
      p (dquote +:+ "time" +:+ dquote) ;;
      forEach (importLine selfPackage) (map_range ord nonVendorPackageMap) ;;
      forEach (λ packagePath, p (". " +:+ fmt_q packagePath)) (pkg_DotImports pkg) ;;
      p ")" ;;
      forEach (λ iface,
                 let sName :=
                   if decide (structName = "") then "Mock" +:+ iface_Name iface
                   else structName in
                 generateMockFor iface sName selfPackage)
              (pkg_Interfaces pkg)
  end.

Definition formattedOutput (g : generator) : result string :=
  match format_Source (Bytes g) with
  | inl src => Ok src
  | inr err =>
      Panic ("Failed to format generated source code: " +:+ err +:+ newline +:+ Bytes g)
  end.

Definition newGenerator : generator := {| buf := []; packageMap := ∅ |}.

Definition GenerateOutput (ord : MapOrder) (ast : Package)
    (source nameOut packageOut selfPackage : string) : result string :=
  match generateCode ord source ast nameOut packageOut selfPackage newGenerator with
  | Ok g => formattedOutput g
  | Panic msg => Panic msg
  | Diverge => Diverge
  end.
End generator.

(** ** A rendering of types for worked examples *)

(** Modelled from the spec: [Type.String] and [Package.Imports] of package
    [model] are not part of the sources at hand.  Section 3 of the
    specification asks of them that a type is rendered from the alias map
    and the home package, a type of the home package without qualifier, and
    that the imports of a package are the modules its types mention.  The
    theorems below hold for every [ModelPackage]; this one serves the
    examples. *)
Module simpleModel.
Fixpoint renderType (t : Type_) (pm : gmap string string) (pkgOverride : string) : string :=
  match t with
  | NamedType pkg name args =>
      let qualified :=
        if decide (pkg = pkgOverride) then name
        else match pm !! pkg with
             | Some prefix => if decide (prefix = "") then name else prefix +:+ "." +:+ name
             | None => name
             end in
      match args with
      | [] => qualified
      | _ => qualified +:+ "[" +:+ join ((λ a, renderType a pm pkgOverride) <$> args) +:+ "]"
      end
  | PredeclaredType name => name
  | PointerType elem => "*" +:+ renderType elem pm pkgOverride
  | ArrayType len elem =>
      (if decide (len = (-1)%Z) then "[]" else "[" +:+ pretty len +:+ "]")
        +:+ renderType elem pm pkgOverride
  | MapType key value =>
      "map[" +:+ renderType key pm pkgOverride +:+ "]" +:+ renderType value pm pkgOverride
  | FuncType ins outs =>
      "func(" +:+ join ((λ a, renderType a pm pkgOverride) <$> ins) +:+ ") ("
        +:+ join ((λ a, renderType a pm pkgOverride) <$> outs) +:+ ")"
  | ChanType dir elem =>
      (if decide (dir = 1%Z) then "<-chan "
       else if decide (dir = 2%Z) then "chan<- " else "chan ")
        +:+ renderType elem pm pkgOverride
  end.

Fixpoint addImports (t : Type_) (im : gmap string bool) : gmap string bool :=
  match t with
  | NamedType pkg _ args =>
      let im := if decide (pkg = "") then im else <[pkg := true]> im in
      foldr addImports im args
  | PredeclaredType _ => im
  | PointerType elem | ArrayType _ elem | ChanType _ elem => addImports elem im
  | MapType key value => addImports key (addImports value im)
  | FuncType ins outs => foldr addImports (foldr addImports im outs) ins
  end.

Definition methodImports (m : Method) (im : gmap string bool) : gmap string bool :=
  foldr addImports im
    (param_Type <$> (method_In m ++ method_Out m ++ option_list (method_Variadic m))).

Definition imports (pkg : Package) : gmap string bool :=
  foldr (λ iface im,
           foldr methodImports
             (foldr addImports im (param_Type <$> iface_TypeParams iface))
             (iface_Methods iface))
        ∅ (pkg_Interfaces pkg).

Definition instance : ModelPackage :=
  {| Type_String := renderType; Package_Imports := imports |}.
End simpleModel.

(** ** The meaning of the emitted statements *)

(** The emitted methods work on values of the empty interface type
    ([pegomock.Param], the result vector of [Invoke]): [None] is [nil],
    [Some v] a value [v].  Types are named by the text the generator put
    into the assertion; [hasType v T] says that the assertion [x.(T)]
    succeeds on [v], and [zero T] is the zero value of [T].  A panic of the
    emitted code is [None]. *)
Section emitted.
Context {Val : Type} (hasType : Val → string → bool) (zero : string → Val).

(** [x.(T)] *)
Definition typeAssert (T : string) (x : option Val) : option Val :=
  match x with
  | Some v => if hasType v T then Some v else None
  | None => None
  end.

(** [v, ok = x.(T)] *)
Definition typeAssertOk (T : string) (x : option Val) : Val * bool :=
  match x with
  | Some v => if hasType v T then (v, true) else (zero T, false)
  | None => (zero T, false)
  end.

(** [_params := []pegomock.Param{a1, ..., ak}], followed for a variadic
    method by
    [for _, param := range v { _params = append(_params, param) }] *)
Definition run_ParamsDeclaration (fixed : list (option Val))
    (variadic : option (list (option Val))) : list (option Val) :=
  match variadic with
  | Some v => foldl (λ _params param, _params ++ [param]) fixed v
  | None => fixed
  end.

(** The body of [if _result[i] != nil { ... }] for one return type: a
    single assertion [_ret = x.(T)], or for a channel with a direction
    [_ret, ok = x.(U); if !ok { _ret = x.(T) }] with [U] the channel type
    without direction. *)
Definition run_assertResult `{pkgModel : ModelPackage} (packageMap : gmap string string)
    (pkgOverride : string) (returnType : Type_) (x : option Val) : option Val :=
  match returnType with
  | ChanType Dir Elem =>
      if decide (Dir ≠ 0%Z) then
        let '(ret, ok) :=
          typeAssertOk (Type_String (ChanType 0 Elem) packageMap pkgOverride) x in
        if ok then Some ret
        else typeAssert (Type_String returnType packageMap pkgOverride) x
      else typeAssert (Type_String returnType packageMap pkgOverride) x
  | _ => typeAssert (Type_String returnType packageMap pkgOverride) x
  end.

(** [var _ret0 T0 ...; if len(_result) != 0 { if _result[0] != nil {...} ... };
    return _ret0, ...]: the values the intercepting method returns.
    [_result[i]] panics when [i] is not an index of [_result]. *)
Definition run_results `{pkgModel : ModelPackage} (packageMap : gmap string string)
    (pkgOverride : string) (returnTypes : list Type_)
    (_result : list (option Val)) : option (list Val) :=
  if decide (length _result ≠ 0) then
    mapM (λ '(i, returnType),
            slot ← _result !! i;
            match slot with
            | None => Some (zero (Type_String returnType packageMap pkgOverride))
            | Some v => run_assertResult packageMap pkgOverride returnType (Some v)
            end)
         (indexed returnTypes)
  else
    Some ((λ returnType, zero (Type_String returnType packageMap pkgOverride))
            <$> returnTypes).

(** One round of [for x := i; x < len(_params); x++] in
    [GetAllCapturedArguments]:
    [if _params[x][u] != nil { _param_i[u][x-i] = _params[x][u].(T) }] *)
Definition run_variadicCell (T : string) (_params : list (list (option Val)))
    (i u : nat) (inner : list Val) (x : nat) : option (list Val) :=
  column ← _params !! x;
  cell ← column !! u;
  match cell with
  | None => Some inner
  | Some v => v' ← typeAssert T (Some v); Some (<[x - i := v']> inner)
  end.

Fixpoint run_variadicCells (T : string) (_params : list (list (option Val)))
    (i u : nat) (inner : list Val) (xs : list nat) : option (list Val) :=
  match xs with
  | [] => Some inner
  | x :: xs' =>
      inner' ← run_variadicCell T _params i u inner x;
      run_variadicCells T _params i u inner' xs'
  end.

(** One round of [for u := 0; u < len(c.methodInvocations); u++]:
    [_param_i[u] = make([]T, len(_params)-i)] and the loop over [x].
    [make] panics on a negative length. *)
Definition run_variadicInner (T : string) (_params : list (list (option Val)))
    (i u : nat) : option (list Val) :=
  if decide (i ≤ length _params)%nat then
    run_variadicCells T _params i u (replicate (length _params - i) (zero T))
      (seq i (length _params - i))
  else None.

(** The variadic position [i] of [GetAllCapturedArguments], reached when
    [len(_params) > 0]: one inner slice for each of the [n] matched
    invocations. *)
Definition run_variadicCapture (T : string) (n : nat)
    (_params : list (list (option Val))) (i : nat) : option (list (list Val)) :=
  mapM (run_variadicInner T _params i) (seq 0 n).

(** [a1, ..., ak := c.GetAllCapturedArguments();
     return a1[len(a1)-1], ..., ak[len(ak)-1]]: indexing panics on an
    empty sequence. *)
Definition run_GetCapturedArguments {V : Type} (all : list (list V)) : option (list V) :=
  mapM last all.
End emitted.

(** ** What an emitter writes *)

(** [emits pm e ls]: with [pm] as package map, [e] appends the lines [ls] to
    the buffer, whatever is in it, and returns. *)
Definition emits (pm : gmap string string) (e : Emitter) (ls : list string) : Prop :=
  ∀ b, e {| buf := b; packageMap := pm |} = Ok {| buf := b ++ ls; packageMap := pm |}.

(** ** The lines the claims speak of *)

Section lines.
Context `{lib : GoLibrary} `{pkgModel : ModelPackage}.

(** The name under which [argDataFor] lists the parameter at position [i] *)
Definition argNameAt (i : nat) (arg : Parameter_) : string :=
  if decide (param_Name arg = "") then "_param" +:+ itoa i else param_Name arg.

Definition fixedArgNames (method : Method) : list string :=
  imap argNameAt (method_In method).

(** The names [argDataFor] lists: the fixed ones, then the variadic one *)
Definition argNamesOf (method : Method) : list string :=
  fixedArgNames method
  ++ match method_Variadic method with
     | Some variadic => [argNameAt (length (method_In method)) variadic]
     | None => []
     end.

(** The construction of the parameter vector as the specification words
    it: the fixed names listed one by one, and for a variadic method a
    loop that appends every element of the variadic slot. *)
Definition paramsLines (method : Method) : list string :=
  match method_Variadic method with
  | Some variadic =>
      [ "_params := []pegomock.Param{" +:+ join (fixedArgNames method) +:+ "}";
        "for _, param := range "
          +:+ argNameAt (length (method_In method)) variadic +:+ " {";
        "_params = append(_params, param)";
        "}" ]
  | None =>
      [ "_params := []pegomock.Param{" +:+ join (fixedArgNames method) +:+ "}" ]
  end.

(** The assertion of a channel type with a direction, in two steps *)
Definition twoStepAssertion (i : nat) (undirected directional : string) : list string :=
  [ "var ok bool";
    "  _ret" +:+ itoa i +:+ ", ok = _result[" +:+ itoa i +:+ "].(" +:+ undirected +:+ ")";
    "if !ok{";
    "_ret" +:+ itoa i +:+ " = _result[" +:+ itoa i +:+ "].(" +:+ directional +:+ ")";
    "}" ].

Definition directAssertion (i : nat) (T : string) : list string :=
  [ "_ret" +:+ itoa i +:+ "  = _result[" +:+ itoa i +:+ "].(" +:+ T +:+ ")" ].

(** A channel type with a direction, and the same type without it *)
Definition directional (t : Type_) : option Type_ :=
  match t with
  | ChanType Dir Elem => if decide (Dir ≠ 0%Z) then Some (ChanType 0 Elem) else None
  | _ => None
  end.

Definition assertionLines (pm : gmap string string) (pkgOverride : string)
    (i : nat) (returnType : Type_) : list string :=
  match directional returnType with
  | Some undirected =>
      twoStepAssertion i (Type_String undirected pm pkgOverride)
        (Type_String returnType pm pkgOverride)
  | None => directAssertion i (Type_String returnType pm pkgOverride)
  end.

(** The assertion of one result, under its guard *)
Definition guardedAssertion (pm : gmap string string) (pkgOverride : string)
    (i : nat) (returnType : Type_) : list string :=
  ["if _result[" +:+ itoa i +:+ "] != nil {"]
    ++ assertionLines pm pkgOverride i returnType ++ ["}"].

Definition holderLine (pm : gmap string string) (pkgOverride : string)
    (i : nat) (returnType : Type_) : string :=
  "var _ret" +:+ itoa i +:+ " " +:+ Type_String returnType pm pkgOverride.

(** The intercepting method up to and with the call of [Invoke] *)
Definition interceptLines (pm : gmap string string) (mockType typeParamNames : string)
    (method : Method) (pkgOverride : string) : list string :=
  let returnTypes := param_Type <$> method_Out method in
  [ "func (mock *" +:+ mockType +:+ typeParamNames +:+ ") " +:+ method_Name method
      +:+ "(" +:+ join (argDataFor method pm pkgOverride).1.1.1 +:+ ") ("
      +:+ join (stringSliceFrom returnTypes pm pkgOverride) +:+ ") {";
    "if mock == nil {";
    tab +:+ "panic(" +:+ dquote +:+ "mock must not be nil. Use myMock := New"
      +:+ mockType +:+ "()." +:+ dquote +:+ ")";
    "}" ]
  ++ paramsLines method
  ++ [ (if decide (0 < length (method_Out method)) then "_result :=" else "")
         +:+ " pegomock.GetGenericMockFrom(mock).Invoke(" +:+ dquote
         +:+ method_Name method +:+ dquote +:+ ", _params, []reflect.Type{"
         +:+ strings_Join
               ((λ returnType, "reflect.TypeOf((*" +:+ Type_String returnType pm pkgOverride
                                 +:+ ")(nil)).Elem()") <$> returnTypes) ", "
         +:+ "})" ].

(** What follows the call of [Invoke] in a method with outputs *)
Definition unpackLines (pm : gmap string string) (pkgOverride : string)
    (returnTypes : list Type_) : list string :=
  imap (holderLine pm pkgOverride) returnTypes
  ++ ["if len(_result) != 0 {"]
  ++ concat (imap (guardedAssertion pm pkgOverride) returnTypes)
  ++ ["}"]
  ++ ["return " +:+ strings_Join (imap (λ i _, "_ret" +:+ itoa i) returnTypes) ", "].

(** The two shapes of [GetCapturedArguments] *)
Definition capturedArgumentsLines (ongoingVerificationStructName : string)
    (argNames argTypes : list string) (typeParamNames : string) : list string :=
  [ "func (c *" +:+ ongoingVerificationStructName +:+ typeParamNames
      +:+ ") GetCapturedArguments() (" +:+ join argTypes +:+ ") {" ]
  ++ (match argNames with
      | [] => []
      | _ =>
          [ join argNames +:+ " := c.GetAllCapturedArguments()";
            "return " +:+ join ((λ a, a +:+ "[len(" +:+ a +:+ ")-1]") <$> argNames) ]
      end)
  ++ ["}"; ""].

(** The types [argDataFor] lists: the fixed ones, then the slice type of
    the variadic parameter *)
Definition argTypesOf (pm : gmap string string) (pkgOverride : string)
    (method : Method) : list string :=
  ((λ arg, Type_String (param_Type arg) pm pkgOverride) <$> method_In method)
  ++ match method_Variadic method with
     | Some variadic => ["[]" +:+ Type_String (param_Type variadic) pm pkgOverride]
     | None => []
     end.

(** The reconstruction of the variadic position [i] in
    [GetAllCapturedArguments], for the element type [T] *)
Definition variadicCaptureLines (i : nat) (T : string) : list string :=
  [ "_param" +:+ itoa i +:+ " = make([][]" +:+ T +:+ ", len(c.methodInvocations))";
    "for u := 0; u < len(c.methodInvocations); u++ {";
    "_param" +:+ itoa i +:+ "[u] = make([]" +:+ T +:+ ", len(_params)-" +:+ itoa i +:+ ")";
    "for x := " +:+ itoa i +:+ "; x < len(_params); x++ {";
    "if _params[x][u] != nil {";
    "_param" +:+ itoa i +:+ "[u][x-" +:+ itoa i +:+ "] = _params[x][u].(" +:+ T +:+ ")";
    "}";
    "}";
    "}" ].

(** The reconstruction of a position that is not variadic *)
Definition fixedCaptureLines (i : nat) (argType : string) : list string :=
  [ "if len(_params) > " +:+ itoa i +:+ " {";
    "_param" +:+ itoa i +:+ " = make([]" +:+ argType +:+ ", len(c.methodInvocations))";
    "for u, param := range _params[" +:+ itoa i +:+ "] {";
    "_param" +:+ itoa i +:+ "[u]=param.(" +:+ argType +:+ ")";
    "}";
    "}" ].

(** The name of the stand-in of an interface *)
Definition standInName (structName : string) (iface : Interface) : string :=
  if decide (structName = "") then "Mock" +:+ iface_Name iface else structName.

(** The declarations of the three kinds of types generated for an
    interface under the name [n] *)
Definition standInDeclaration (pm : gmap string string) (selfPackage n : string)
    (iface : Interface) : string :=
  "type " +:+ n +:+ typeParamsStringFrom (iface_TypeParams iface) pm selfPackage true
    +:+ " struct {".

Definition verifierDeclaration (pm : gmap string string) (selfPackage n : string)
    (iface : Interface) : string :=
  "type Verifier" +:+ n +:+ typeParamsStringFrom (iface_TypeParams iface) pm selfPackage true
    +:+ " struct {".

Definition ongoingVerificationDeclaration (pm : gmap string string) (selfPackage n : string)
    (iface : Interface) (method : Method) : string :=
  "type " +:+ (n +:+ "_" +:+ method_Name method +:+ "_OngoingVerification")
    +:+ typeParamsStringFrom (iface_TypeParams iface) pm selfPackage true +:+ " struct {".

(** The import lines written for the entries of [nonVendorPackageMap] in
    the order [entries] *)
Definition importLines (selfPackage : string) (entries : list (string * string)) : list string :=
  entries ≫= λ '(packagePath, packageName),
    if decide (packagePath ≠ selfPackage ∧ packagePath ≠ "time" ∧ packagePath ≠ "reflect")
    then [packageName +:+ " " +:+ fmt_q packagePath]
    else [].
End lines.

Section signatures.
Context `{lib : GoLibrary} `{pkgModel : ModelPackage}.

(** The name of the type of the ongoing verification of a method *)
Definition ongoingVerificationName (n : string) (method : Method) : string :=
  n +:+ "_" +:+ method_Name method +:+ "_OngoingVerification".

(** The first lines of the four functions generated for a method of an
    interface with the stand-in [n] *)
Definition interceptSignature (pm : gmap string string) (n typeParamNames : string)
    (method : Method) (pkgOverride : string) : string :=
  "func (mock *" +:+ n +:+ typeParamNames +:+ ") " +:+ method_Name method
    +:+ "(" +:+ join (argDataFor method pm pkgOverride).1.1.1 +:+ ") ("
    +:+ join (stringSliceFrom (param_Type <$> method_Out method) pm pkgOverride) +:+ ") {".

Definition verifierSignature (pm : gmap string string) (n typeParamNames : string)
    (method : Method) (pkgOverride : string) : string :=
  "func (verifier *Verifier" +:+ n +:+ typeParamNames +:+ ") "
    +:+ method_Name method +:+ "(" +:+ join (argDataFor method pm pkgOverride).1.1.1 +:+ ") *"
    +:+ ongoingVerificationName n method +:+ typeParamNames +:+ " {".

Definition capturedSignature (pm : gmap string string) (n typeParamNames : string)
    (method : Method) (pkgOverride : string) : string :=
  "func (c *" +:+ ongoingVerificationName n method +:+ typeParamNames
    +:+ ") GetCapturedArguments() (" +:+ join (argTypesOf pm pkgOverride method) +:+ ") {".

Definition allCapturedSignature (pm : gmap string string) (n typeParamNames : string)
    (method : Method) (pkgOverride : string) : string :=
  "func (c *" +:+ ongoingVerificationName n method +:+ typeParamNames
    +:+ ") GetAllCapturedArguments() ("
    +:+ strings_Join (imap (λ i argType, "_param" +:+ itoa i +:+ " []" +:+ argType)
                           (argTypesOf pm pkgOverride method)) ", " +:+ ") {".
End signatures.

(** The lines an emitter writes into an empty buffer *)
Definition written (pm : gmap string string) (e : Emitter) : list string :=
  match e {| buf := []; packageMap := pm |} with
  | Ok g => buf g
  | _ => []
  end.

Section code_lines.
Context `{lib : GoLibrary} `{pkgModel : ModelPackage}.

(** The output up to the first two, fixed, import lines *)
Definition headerLines (source pkgName : string) : list string :=
  [ "// Code generated by pegomock. DO NOT EDIT.";
    "// Source: " +:+ source;
    "";
    "package " +:+ pkgName;
    "";
    "import (";
    dquote +:+ "reflect" +:+ dquote;
    dquote +:+ "time" +:+ dquote ].

Definition dotImportLines (pkg : Package) : list string :=
  (λ packagePath, ". " +:+ fmt_q packagePath) <$> pkg_DotImports pkg.

(** All that is generated for one interface *)
Definition mockLines (pm : gmap string string) (structName selfPackage : string)
    (iface : Interface) : list string :=
  written pm (generateMockFor iface (standInName structName iface) selfPackage).

(** The output after the import lines of [nonVendorPackageMap] *)
Definition trailerLines (pm : gmap string string) (pkg : Package)
    (structName selfPackage : string) : list string :=
  dotImportLines pkg ++ [")"]
  ++ concat (mockLines pm structName selfPackage <$> pkg_Interfaces pkg).
End code_lines.

(** The variadic values of call [u] as the specification reads them off the
    matrix: the cells of the columns from [i] on, those that are [nil]
    left out. *)
Definition variadicValuesPassed {Val : Type} (_params : list (list (option Val)))
    (i u : nat) : list Val :=
  omap (λ column, mjoin (column !! u)) (drop i _params).

(** The cells of call [u] from column [i] on, [nil] read as the zero value *)
Definition variadicSlots {Val : Type} (zeroT : Val) (_params : list (list (option Val)))
    (i u : nat) : list Val :=
  (λ column, default zeroT (mjoin (column !! u))) <$> drop i _params.

(** The matrix has, in each column from [i] on, a cell for each of the [n]
    invocations, and every cell that is not [nil] holds a value of type
    [T]. *)
Definition capturable {Val : Type} (hasType : Val → string → bool) (T : string)
    (n : nat) (_params : list (list (option Val))) (i : nat) : bool :=
  forallb (λ column,
             bool_decide (length column = n)
             && forallb (λ cell, match cell with
                                 | Some v => hasType v T
                                 | None => true
                                 end) column)
          (drop i _params).

(** [writes pm e]: [e] returns, and appends lines that do not depend on
    the buffer. *)
Definition writes (pm : gmap string string) (e : Emitter) : Prop := ∃ ls, emits pm e ls.

(** The last byte of a string, and the ten digits *)
Fixpoint lastChar (s : string) : option ascii :=
  match s with
  | EmptyString => None
  | String c EmptyString => Some c
  | String _ s' => lastChar s'
  end.

Definition isDigitChar (c : ascii) : bool :=
  bool_decide (c ∈ ["0"; "1"; "2"; "3"; "4"; "5"; "6"; "7"; "8"; "9"]%char).

(** What holds of the maps of the resolver once the paths [processed] have
    gone through its loop: every processed path has an alias, an alias is
    marked as used and is no keyword, two paths share an alias only when one
    of them is the path of the runtime, whose alias is fixed, and the map of
    cleaned paths agrees with the map of full paths as long as no two
    processed paths are cleaned to the same key. *)
Record aliasesOk (processed : list string) (st : aliases) : Prop := {
  ok_dom : ∀ path, is_Some (names.packageMap st !! path) ↔ path ∈ processed;
  ok_used : ∀ path alias,
    names.packageMap st !! path = Some alias →
    names.packageNamesAlreadyUsed st !! alias = Some true;
  ok_true : ∀ alias b, names.packageNamesAlreadyUsed st !! alias = Some b → b = true;
  ok_keyword : ∀ path alias,
    names.packageMap st !! path = Some alias → token_IsKeyword alias = false;
  ok_distinct : ∀ path1 path2 alias,
    path1 ≠ path2 →
    names.packageMap st !! path1 = Some alias →
    names.packageMap st !! path2 = Some alias →
    path1 = mockFrameworkImportPath ∨ path2 = mockFrameworkImportPath;
  ok_runtime : ∀ alias,
    names.packageMap st !! mockFrameworkImportPath = Some alias → alias = "pegomock";
  ok_views :
    (∀ path1 path2, path1 ∈ processed → path2 ∈ processed →
                    vendorCleaned path1 = vendorCleaned path2 → path1 = path2) →
    ∀ path, path ∈ processed →
      names.nonVendorPackageMap st !! vendorCleaned path = names.packageMap st !! path
}.

(** [strings.Contains(s, sep)]: [sep] starts at some position of [s] *)
Fixpoint strings_Contains (s sep : string) : bool :=
  String.prefix sep s
  || match s with
     | EmptyString => false
     | String _ s' => strings_Contains s' sep
     end.

Section alias_shape.
Context `{lib : GoLibrary}.

(** What an alias of an import path looks like: the fixed alias of the
    runtime, or the sanitized base name of the path, with a counter after
    it or without *)
Definition aliasFromBase (importPath alias : string) : Prop :=
  if decide (importPath = mockFrameworkImportPath) then alias = "pegomock"
  else alias = sanitize (path_Base importPath)
       ∨ ∃ j, alias = sanitize (path_Base importPath) +:+ strconv_Itoa j.
End alias_shape.

(** The keys of [nonVendorPackageMap] that the paths of [importPaths] are
    cleaned to, one per path *)
Definition cleanedKeys (importPaths : gmap string bool) : list string :=
  vendorCleaned <$> (map_to_list importPaths).*1.

(** Every entry of the map of cleaned paths is the alias of a path that is
    cleaned to its key. *)
Definition viewFromPaths (st : aliases) : Prop :=
  ∀ key alias, names.nonVendorPackageMap st !! key = Some alias →
    ∃ path, vendorCleaned path = key ∧ names.packageMap st !! path = Some alias.

(** The parameters of a method in the order of its signature *)
Definition allParams (method : Method) : list Parameter_ :=
  method_In method ++ option_list (method_Variadic method).

Section closed_forms.
Context `{lib : GoLibrary} `{pkgModel : ModelPackage}.

(** What [sanitize] appends for a rune, at the start of the name and
    after it *)
Definition sanitizedRune (first : bool) (r : Z) : string :=
  if (if first then unicode_IsLetter r || bool_decide (r = 95%Z)
      else unicode_IsLetter r || unicode_IsDigit r || bool_decide (r = 95%Z))
  then string_of_rune r
  else "_".

Definition sanitizedRunes (runes : list Z) : string :=
  match runes with
  | [] => ""
  | r :: rest => sanitizedRune true r +:+ String.concat "" (sanitizedRune false <$> rest)
  end.

(** The entry of one type parameter between the brackets *)
Definition typeParamEntry (packageMap : gmap string string) (pkgOverride : string)
    (withTypes : bool) (param : Parameter_) : string :=
  if withTypes
  then param_Name param +:+ " " +:+ Type_String (param_Type param) packageMap pkgOverride
  else param_Name param.
End closed_forms.

(** ** The meaning of [GetAllCapturedArguments] *)

Section captured.
Context {Val : Type} (hasType : Val → string → bool) (zero : string → Val).

(** One round of [for u, param := range _params[i]]:
    [_param_i[u] = param.(T)].  The assertion panics on [nil] and on a
    value of another type, the assignment on an index [_param_i] does not
    have. *)
Definition run_fixedCell (T : string) (captured : list Val) (u : nat)
    (param : option Val) : option (list Val) :=
  v ← typeAssert hasType T param;
  if decide (u < length captured)%nat then Some (<[u := v]> captured) else None.

Fixpoint run_fixedCells (T : string) (captured : list Val)
    (cells : list (nat * option Val)) : option (list Val) :=
  match cells with
  | [] => Some captured
  | (u, param) :: rest =>
      captured' ← run_fixedCell T captured u param;
      run_fixedCells T captured' rest
  end.

(** A position [i] that is not variadic:
    [if len(_params) > i { _param_i = make([]T, len(c.methodInvocations));
       for u, param := range _params[i] { _param_i[u] = param.(T) } }].
    Without a column [i] the result keeps its zero value, the [nil] slice. *)
Definition run_fixedCapture (T : string) (n : nat)
    (_params : list (list (option Val))) (i : nat) : option (list Val) :=
  match _params !! i with
  | Some column => run_fixedCells T (replicate n (zero T)) (indexed column)
  | None => Some []
  end.

(** What [GetAllCapturedArguments] returns at one position: a sequence of
    values, or at the variadic position a sequence of sequences.  With
    [n] invocations and the matrix [_params], inside
    [if len(_params) > 0 { ... }]: *)
Definition run_position (numArgs : nat) (isVariadic : bool) (n : nat)
    (_params : list (list (option Val))) (i : nat) (argType : string) :
    option (list Val + list (list Val)) :=
  if isVariadic && bool_decide (i = numArgs - 1)%nat
  then inr <$> run_variadicCapture hasType zero (strings_Remove1 argType "[]") n _params i
  else inl <$> run_fixedCapture argType n _params i.

(** The zero value of the result at a position *)
Definition nilPosition (numArgs : nat) (isVariadic : bool) (i : nat) :
    list Val + list (list Val) :=
  if isVariadic && bool_decide (i = numArgs - 1)%nat then inr [] else inl [].

(** The body of [GetAllCapturedArguments] for the types [argTypes]: the
    named results are returned as they are when [_params] is empty. *)
Definition run_GetAllCapturedArguments (argTypes : list string) (isVariadic : bool)
    (n : nat) (_params : list (list (option Val))) :
    option (list (list Val + list (list Val))) :=
  let numArgs := length argTypes in
  if decide (0 < numArgs)%nat then
    if decide (0 < length _params)%nat then
      mapM (λ '(i, argType), run_position numArgs isVariadic n _params i argType)
           (indexed argTypes)
    else Some ((λ '(i, _), nilPosition numArgs isVariadic i) <$> indexed argTypes)
  else Some [].

(** [x[len(x)-1]] on a result of [GetAllCapturedArguments] *)
Definition lastCaptured (x : list Val + list (list Val)) : option (Val + list Val) :=
  match x with
  | inl values => inl <$> last values
  | inr values => inr <$> last values
  end.

(** [GetCapturedArguments] on top of [GetAllCapturedArguments] *)
Definition run_CapturedArguments (argTypes : list string) (isVariadic : bool)
    (n : nat) (_params : list (list (option Val))) : option (list (Val + list Val)) :=
  all ← run_GetAllCapturedArguments argTypes isVariadic n _params;
  mapM lastCaptured all.

(** Every cell of the column holds a value of type [T], none is [nil], and
    there are at most [n] of them. *)
Definition capturableColumn (T : string) (n : nat) (column : list (option Val)) : bool :=
  bool_decide (length column ≤ n)%nat
  && forallb (λ cell, match cell with
                      | Some v => hasType v T
                      | None => false
                      end) column.
End captured.

(** What the loops of the variadic position read without a panic: the
    matrix has at least [i] columns, and each column from [i] on has a cell
    for each of the [n] invocations, [nil] or a value of type [T]. *)
Definition variadicReadable {Val : Type} (hasType : Val → string → bool) (T : string)
    (n : nat) (_params : list (list (option Val))) (i : nat) : bool :=
  bool_decide (i ≤ length _params)%nat
  && forallb (λ column,
                bool_decide (n ≤ length column)%nat
                && forallb (λ cell, match cell with
                                    | Some v => hasType v T
                                    | None => true
                                    end) (take n column))
             (drop i _params).

(** The argument call [u] passed at position [i], as the matrix has it:
    the cell of column [i], or at the variadic position the cells of the
    columns from [i] on *)
Definition argumentOfCall {Val : Type} (zero : string → Val) (numArgs : nat)
    (isVariadic : bool) (_params : list (list (option Val))) (u i : nat)
    (argType : string) : option (Val + list Val) :=
  if isVariadic && bool_decide (i = numArgs - 1)%nat
  then Some (inr (variadicSlots (zero (strings_Remove1 argType "[]")) _params i u))
  else column ← _params !! i; cell ← column !! u; inl <$> cell.

(** The matrix has what [GetAllCapturedArguments] reads without a panic
    for [n] invocations: for each position that is not variadic a column of
    [n] values of the type of the position, and from the variadic position
    on columns of [n] cells. *)
Definition capturableMatrix {Val : Type} (hasType : Val → string → bool)
    (argTypes : list string) (isVariadic : bool) (n : nat)
    (_params : list (list (option Val))) : bool :=
  forallb (λ '(i, argType),
             if isVariadic && bool_decide (i = length argTypes - 1)%nat
             then bool_decide (i ≤ length _params)%nat
                  && capturable hasType (strings_Remove1 argType "[]") n _params i
             else match _params !! i with
                  | Some column =>
                      bool_decide (length column = n)
                      && capturableColumn hasType argType n column
                  | None => false
                  end)
          (indexed argTypes).

(** When Go accepts the statements of [GetCapturedArguments].
    [a1, ..., ak := c.GetAllCapturedArguments()] declares the names in the
    body of a method whose receiver is [c], and [a[len(a)-1]] reads them:
    the names have to differ from one another and from [c], and none of
    them can be [len] or the blank identifier. *)
Definition bindable (argNames : list string) : bool :=
  bool_decide (NoDup argNames)
  && bool_decide ("c" ∉ argNames)
  && bool_decide ("len" ∉ argNames)
  && bool_decide ("_" ∉ argNames).

(** Two outcomes of the formatting pass agree: the same formatted source
    both times, or an error both times. *)
Definition sameFormatting (r1 r2 : string + string) : Prop :=
  match r1, r2 with
  | inl src1, inl src2 => src1 = src2
  | inr _, inr _ => True
  | _, _ => False
  end.

(** ** Worked examples *)

(** The library for ASCII text, with a formatting pass that hands its input
    back. *)
Definition exampleLibrary : GoLibrary := asciiLibrary inl.

Definition t_string : Type_ := PredeclaredType "string".
Definition t_int : Type_ := PredeclaredType "int".
Definition t_error : Type_ := PredeclaredType "error".

(** [Get(key string) (value string, err error)] *)
Definition Thing_Get : Method :=
  {| method_Name := "Get";
     method_In := [ {| param_Name := "key"; param_Type := t_string |} ];
     method_Out := [ {| param_Name := "value"; param_Type := t_string |};
                     {| param_Name := "err"; param_Type := t_error |} ];
     method_Variadic := None |}.

(** [Push(items ...int)] *)
Definition Thing_Push : Method :=
  {| method_Name := "Push";
     method_In := [];
     method_Out := [];
     method_Variadic := Some {| param_Name := "items"; param_Type := t_int |} |}.

(** The interface of the scenario of the specification *)
Definition Thing : Interface :=
  {| iface_Name := "Thing";
     iface_Methods := [Thing_Get; Thing_Push];
     iface_TypeParams := [] |}.

(** [Subscribe(topic string, clock.Time) (<-chan events.Event, error)] *)
Definition Feed_Subscribe : Method :=
  {| method_Name := "Subscribe";
     method_In := [ {| param_Name := "topic"; param_Type := t_string |};
                    {| param_Name := "";
                       param_Type := NamedType "example.com/clock" "Time" [] |} ];
     method_Out := [ {| param_Name := "";
                        param_Type := ChanType 1 (NamedType "example.com/events" "Event" []) |};
                     {| param_Name := ""; param_Type := t_error |} ];
     method_Variadic := None |}.

Definition Feed : Interface :=
  {| iface_Name := "Feed";
     iface_Methods := [Feed_Subscribe];
     iface_TypeParams := [] |}.

Definition feedPackage : Package :=
  {| pkg_Name := "feed"; pkg_Interfaces := [Thing; Feed]; pkg_DotImports := [] |}.

(** The alias a run of the resolver records for a path in the map of full
    paths, and for a key in the map of cleaned paths *)
Definition aliasOf (names : option (gmap string string * gmap string string))
    (importPath : string) : option string :=
  names ≫= λ '(packageMap, _), packageMap !! importPath.

Definition importAliasOf (names : option (gmap string string * gmap string string))
    (key : string) : option string :=
  names ≫= λ '(_, nonVendorPackageMap), nonVendorPackageMap !! key.

(** The lines in the buffer at the end of a run that returns *)
Definition linesOf (run : result generator) : list string :=
  match run with
  | Ok g => buf g
  | _ => []
  end.

(** The calls [Push(3)] and [Push(1, 2)] as the matrix of the runtime holds
    them: a column per position, a cell per call, [nil] where the call has
    no value at the position. *)
Definition pushMatrix : list (list (option Z)) :=
  [ [Some 3%Z; Some 1%Z]; [None; Some 2%Z] ].

(** Values are integers, every assertion succeeds, the zero value is [0]. *)
Definition anyInt (v : Z) (T : string) : bool := true.
Definition zeroInt (T : string) : Z := 0%Z.

(** Two paths with the same base name, and a vendored path *)
Definition templatePaths : gmap string bool :=
  {[ "html/template" := true; "text/template" := true ]}.

Definition vendoredPaths : gmap string bool :=
  {[ "example.com/app/vendor/example.com/lib" := true;
     mockFrameworkImportPath := true ]}.

(** The calls [F(7, 3)] and [F(8, 1, 2)] of a method [F(key int, items ...int)] *)
Definition callMatrix : list (list (option Z)) :=
  [ [Some 7%Z; Some 8%Z]; [Some 3%Z; Some 1%Z]; [None; Some 2%Z] ].

(** Two maps with the same paths, and other values *)
Definition fmtPaths (b : bool) : gmap string bool := <["fmt" := b]> ∅.

(** A formatting pass for the examples.  Of what [go/format] does to a
    source it does one thing: the lines between [import (] and the next
    [)] are put in increasing order. *)
Fixpoint upToLine (stop : string) (lines : list string) : list string * list string :=
  match lines with
  | [] => ([], [])
  | line :: rest =>
      if decide (line = stop) then ([], lines)
      else let '(before, from) := upToLine stop rest in (line :: before, from)
  end.

Definition sortImportBlock (source : string) : string + string :=
  let '(head, fromImport) := upToLine "import (" (strings_Split source newline) in
  match fromImport with
  | [] => inl source
  | open :: body =>
      let '(specs, close) := upToLine ")" body in
      inl (strings_Join (head ++ open :: sort_Strings specs ++ close) newline)
  end.

Definition sortingLibrary : GoLibrary := asciiLibrary sortImportBlock.

(** The alias maps of [feedPackage] *)
Definition feedNames : gmap string string * gmap string string :=
  default (∅, ∅)
    (generateUniquePackageNamesFor (lib := sortingLibrary) forwardOrder
       (<[mockFrameworkImportPath := true]> (simpleModel.imports feedPackage))).

(** * Theorems *)

Lemma emits_p pm line : emits pm (p line) [line].
Proof. intros b. reflexivity. Qed.

Lemma emits_skip pm : emits pm skip [].
Proof. intros b. unfold skip. by rewrite app_nil_r. Qed.

Lemma emits_seq pm e1 e2 l1 l2 :
  emits pm e1 l1 → emits pm e2 l2 → emits pm (e1 ;; e2) (l1 ++ l2).
Proof.
  intros H1 H2 b. unfold andThen. rewrite H1, H2. by rewrite (assoc_L (++)).
Qed.

Lemma emits_cons pm line e ls : emits pm e ls → emits pm (p line ;; e) (line :: ls).
Proof. intros He. apply (emits_seq pm _ _ [line] ls); [apply emits_p | done]. Qed.

Lemma emits_eq pm e ls ls' : emits pm e ls → ls = ls' → emits pm e ls'.
Proof. by intros ? <-. Qed.

Lemma emits_forEach {A} pm (body : A → Emitter) (lines : A → list string) l :
  (∀ x, x ∈ l → emits pm (body x) (lines x)) →
  emits pm (forEach body l) (concat (lines <$> l)).
Proof.
  induction l as [|x l IH]; intros Hbody; simpl.
  - apply emits_skip.
  - apply emits_seq.
    + apply Hbody. by left.
    + apply IH. intros y Hy. apply Hbody. by right.
Qed.

Lemma emits_forEachi {A} pm (body : nat → A → Emitter) (lines : nat → A → list string) l :
  (∀ i x, l !! i = Some x → emits pm (body i x) (lines i x)) →
  emits pm (forEachi body l) (concat (imap lines l)).
Proof.
  intros Hbody. unfold forEachi.
  eapply emits_eq.
  - apply (emits_forEach pm _ (λ ix, lines ix.1 ix.2)).
    intros [i x] Hix. simpl. apply Hbody.
    unfold indexed in Hix. apply elem_of_lookup_imap in Hix as (j & y & Heq & Hj).
    by simplify_eq.
  - f_equal. unfold indexed. rewrite fmap_imap. done.
Qed.

(** ** The alias resolver *)

Section sorting.
Lemma sort_Strings_Permutation l : sort_Strings l ≡ₚ l.
Proof. apply merge_sort_Permutation. Qed.

Lemma sort_Strings_Sorted l : Sorted String.le (sort_Strings l).
Proof. apply (Sorted_merge_sort String.le). Qed.

(** The sorted list depends on the elements only, not on their order. *)
Lemma sort_Strings_order l1 l2 : l1 ≡ₚ l2 → sort_Strings l1 = sort_Strings l2.
Proof.
  intros Hperm. apply (Sorted_unique String.le); try apply sort_Strings_Sorted.
  by rewrite !sort_Strings_Permutation.
Qed.

Lemma lo_Keys_Permutation {A} (ord : MapOrder) (m : gmap string A) :
  lo_Keys ord m ≡ₚ (map_to_list m).*1.
Proof. unfold lo_Keys. by rewrite (map_range_perm ord). Qed.

Lemma lo_Keys_order {A} (ord1 ord2 : MapOrder) (m : gmap string A) :
  sort_Strings (lo_Keys ord1 m) = sort_Strings (lo_Keys ord2 m).
Proof. apply sort_Strings_order. by rewrite !lo_Keys_Permutation. Qed.

Lemma lo_Keys_NoDup {A} (ord : MapOrder) (m : gmap string A) : NoDup (lo_Keys ord m).
Proof. rewrite lo_Keys_Permutation. apply NoDup_fst_map_to_list. Qed.

Lemma elem_of_lo_Keys {A} (ord : MapOrder) (m : gmap string A) k :
  k ∈ lo_Keys ord m ↔ is_Some (m !! k).
Proof.
  rewrite lo_Keys_Permutation, list_elem_of_fmap. split.
  - intros ([k' v] & -> & Hkv). apply elem_of_map_to_list in Hkv. by exists v.
  - intros [v Hv]. exists (k, v). split; [done|]. by apply elem_of_map_to_list.
Qed.
End sorting.

(** *** The digits of the counter keep the candidates apart *)

Lemma lastChar_app s1 s2 : s2 ≠ "" → lastChar (s1 +:+ s2) = lastChar s2.
Proof.
  intros Hs2. induction s1 as [|c s1 IH]; [done|].
  change (String c s1 +:+ s2) with (String c (s1 +:+ s2)). simpl.
  destruct (s1 +:+ s2) eqn:Heq; [|done].
  destruct s1; [|done]. by destruct s2.
Qed.

Lemma pretty_N_char_digit x : isDigitChar (pretty_N_char x) = true.
Proof.
  destruct x as [|x]; [done|].
  do 4 (destruct x as [x|x|]; try done).
Qed.

Lemma lastChar_pretty_N_go x s : s ≠ "" → lastChar (pretty_N_go x s) = lastChar s.
Proof.
  revert s. induction (N.lt_wf_0 x) as [x _ IH]; intros s Hs.
  assert (x = 0 ∨ 0 < x)%N as [->|Hx] by lia; [by rewrite pretty_N_go_0|].
  rewrite pretty_N_go_step by done.
  rewrite IH; [|by apply N.div_lt|done].
  simpl. by destruct s.
Qed.

Lemma lastChar_Itoa i : ∃ c, lastChar (strconv_Itoa i) = Some c ∧ isDigitChar c = true.
Proof.
  unfold strconv_Itoa, pretty, pretty_nat, pretty, pretty_N.
  case_decide as Hi; [by exists "0"%char|].
  rewrite pretty_N_go_step by lia.
  rewrite lastChar_pretty_N_go by done.
  eexists; split; [done|]. apply pretty_N_char_digit.
Qed.

Lemma Itoa_nonempty i : strconv_Itoa i ≠ "".
Proof. destruct (lastChar_Itoa i) as (c & Hc & _). by intros Heq; rewrite Heq in Hc. Qed.

Lemma keyword_lastChar name :
  token_IsKeyword name = true → ∀ c, lastChar name = Some c → isDigitChar c = false.
Proof.
  unfold token_IsKeyword. intros Hkw%bool_decide_eq_true c.
  unfold keywords in Hkw.
  repeat (apply elem_of_cons in Hkw as [->|Hkw]; [by intros [= <-]|]).
  by apply elem_of_nil in Hkw.
Qed.

(** No candidate with a counter is a keyword. *)
Lemma candidate_not_keyword base i : token_IsKeyword (base +:+ strconv_Itoa i) = false.
Proof.
  destruct (token_IsKeyword _) eqn:Hkw; [|done].
  destruct (lastChar_Itoa i) as (c & Hc & Hdigit).
  rewrite (keyword_lastChar _ Hkw c) in Hdigit; [done|].
  by rewrite lastChar_app by apply Itoa_nonempty.
Qed.

Lemma candidate_inj base i j : base +:+ strconv_Itoa i = base +:+ strconv_Itoa j → i = j.
Proof. intros Heq%(inj (String.app base)). by apply (inj pretty) in Heq. Qed.

(** *** The alias loop ends *)

Lemma nameTaken_false used name :
  nameTaken used name = false ↔
  (used !! name = None ∨ used !! name = Some false) ∧ token_IsKeyword name = false.
Proof.
  unfold nameTaken. rewrite orb_false_iff.
  destruct (used !! name) as [[]|]; naive_solver.
Qed.

Lemma nameLoop_Some used base fuel i name result :
  nameLoop used base fuel i name = Some result → nameTaken used result = false.
Proof.
  revert i name. induction fuel as [|fuel IH]; intros i name; simpl.
  - destruct (nameTaken used name) eqn:Htaken; [done|]. by intros [= <-].
  - destruct (nameTaken used name) eqn:Htaken; [apply IH|]. by intros [= <-].
Qed.

(** With the candidates from [i] on that are taken all in the finite set
    [X], the loop is over after at most [size X] further rounds. *)
Lemma nameLoop_ends used base (X : gset string) fuel i :
  (∀ j, (i ≤ j)%nat → nameTaken used (base +:+ strconv_Itoa j) = true →
        base +:+ strconv_Itoa j ∈ X) →
  (size X ≤ fuel)%nat →
  is_Some (nameLoop used base fuel (S i) (base +:+ strconv_Itoa i)).
Proof.
  revert X i. induction fuel as [|fuel IH]; intros X i HX Hsize.
  - simpl. destruct (nameTaken used _) eqn:Htaken; [|by eexists].
    apply HX in Htaken; [|done].
    assert (size X = 0) as Hempty%size_empty_inv by lia. set_solver.
  - simpl. destruct (nameTaken used (base +:+ strconv_Itoa i)) eqn:Htaken; [|by eexists].
    apply (IH (X ∖ {[ base +:+ strconv_Itoa i ]})).
    + intros j Hj Htakenj. apply elem_of_difference. split.
      * apply HX; [lia|done].
      * intros Heq%elem_of_singleton%candidate_inj. lia.
    + assert (base +:+ strconv_Itoa i ∈ X) as Hin by (by apply HX).
      pose proof (size_union_alt {[ base +:+ strconv_Itoa i ]} X) as Hunion.
      assert ({[base +:+ strconv_Itoa i]} ∪ X = X) as Heq by set_solver.
      rewrite Heq, size_singleton in Hunion. lia.
Qed.

Lemma nameLoop_total used base :
  is_Some (nameLoop used base (S (size used)) 0 base).
Proof.
  simpl. destruct (nameTaken used base); [|by eexists].
  apply (nameLoop_ends used base (dom used)).
  - intros j _ Htaken. apply elem_of_dom.
    unfold nameTaken in Htaken. rewrite candidate_not_keyword, orb_false_r in Htaken.
    destruct (used !! _); [by eexists|done].
  - by rewrite size_dom.
Qed.

Section resolver_total.
Context `{lib : GoLibrary}.

Lemma assignAlias_total st importPath : is_Some (assignAlias st importPath).
Proof.
  unfold assignAlias.
  destruct (nameLoop_total (names.packageNamesAlreadyUsed st)
              (sanitize (path_Base importPath))) as [name ->].
  by eexists.
Qed.

Lemma assignAliases_total st paths : is_Some (assignAliases st paths).
Proof.
  revert st. induction paths as [|importPath paths IH]; intros st; simpl; [by eexists|].
  destruct (assignAlias_total st importPath) as [st' ->]. simpl. apply IH.
Qed.

(** [generateUniquePackageNamesFor] returns, for every set of paths. *)
Lemma generateUniquePackageNamesFor_total ord importPaths :
  is_Some (generateUniquePackageNamesFor ord importPaths).
Proof.
  unfold generateUniquePackageNamesFor.
  destruct (assignAliases_total noAliases (sort_Strings (lo_Keys ord importPaths)))
    as [st ->].
  by eexists.
Qed.

(** It returns the same two maps whatever the order in which the keys of
    [importPaths] are visited. *)
Lemma generateUniquePackageNamesFor_order ord1 ord2 importPaths :
  generateUniquePackageNamesFor ord1 importPaths
  = generateUniquePackageNamesFor ord2 importPaths.
Proof.
  unfold generateUniquePackageNamesFor. by rewrite (lo_Keys_order ord1 ord2).
Qed.
End resolver_total.

(** *** What the resolver guarantees, and what it does not *)

Section resolver_sound.
Context `{lib : GoLibrary}.

Lemma noAliases_ok : aliasesOk [] noAliases.
Proof.
  split; simpl; try (intros; simplify_map_eq; done).
  intros path. rewrite lookup_empty, elem_of_nil. split; [by intros [??]|done].
Qed.

Lemma assignAlias_ok processed st importPath st' :
  aliasesOk processed st → importPath ∉ processed →
  assignAlias st importPath = Some st' →
  aliasesOk (processed ++ [importPath]) st'.
Proof.
  intros Hok Hfresh Hassign. unfold assignAlias in Hassign.
  destruct (nameLoop _ _ _ _ _) as [name|] eqn:Hloop; [|done].
  simpl in Hassign. injection Hassign as <-.
  apply nameLoop_Some, nameTaken_false in Hloop as [Hunused Hname].
  assert (names.packageNamesAlreadyUsed st !! name = None) as Hnone.
  { destruct Hunused as [?|Hfalse]; [done|]. by apply (ok_true _ _ Hok) in Hfalse. }
  assert (names.packageMap st !! importPath = None) as Hnew.
  { apply eq_None_not_Some. by rewrite (ok_dom _ _ Hok). }
  set (alias := if decide (importPath = mockFrameworkImportPath) then "pegomock" else name).
  assert (∀ path, names.packageMap st !! path = Some alias →
                  importPath = mockFrameworkImportPath) as Hclash.
  { intros path Hpath. unfold alias in Hpath. case_decide; [done|].
    apply (ok_used _ _ Hok) in Hpath. congruence. }
  split; simpl.
  - intros path. rewrite elem_of_app, list_elem_of_singleton, <-(ok_dom _ _ Hok).
    destruct (decide (importPath = path)) as [->|Hne].
    + rewrite lookup_insert_eq. split; [by right|by eexists].
    + rewrite lookup_insert_ne by done. split; [by left|]. intros [?|?]; congruence.
  - intros path a. destruct (decide (importPath = path)) as [->|Hne].
    + rewrite lookup_insert_eq. intros [= <-]. by rewrite lookup_insert_eq.
    + rewrite lookup_insert_ne by done. intros Hpath%(ok_used _ _ Hok).
      destruct (decide (alias = a)) as [->|?]; [by rewrite lookup_insert_eq|].
      by rewrite lookup_insert_ne.
  - intros a b. destruct (decide (alias = a)) as [->|?].
    + rewrite lookup_insert_eq. by intros [= <-].
    + rewrite lookup_insert_ne by done. apply (ok_true _ _ Hok).
  - intros path a. destruct (decide (importPath = path)) as [->|Hne].
    + rewrite lookup_insert_eq. intros [= <-]. unfold alias. by case_decide.
    + rewrite lookup_insert_ne by done. apply (ok_keyword _ _ Hok).
  - intros path1 path2 a Hne.
    destruct (decide (importPath = path1)) as [<-|Hne1];
      destruct (decide (importPath = path2)) as [<-|Hne2]; try done.
    + rewrite lookup_insert_eq, lookup_insert_ne by done.
      intros [= <-] Hpath2. left. by eapply Hclash.
    + rewrite lookup_insert_ne, lookup_insert_eq by done.
      intros Hpath1 [= <-]. right. by eapply Hclash.
    + rewrite !lookup_insert_ne by done. by apply (ok_distinct _ _ Hok).
  - intros a. destruct (decide (importPath = mockFrameworkImportPath)) as [->|Hne].
    + rewrite lookup_insert_eq. by intros [= <-].
    + rewrite lookup_insert_ne by done. apply (ok_runtime _ _ Hok).
  - intros Hinj path Hpath.
    destruct (decide (importPath = path)) as [->|Hne].
    + by rewrite !lookup_insert_eq.
    + assert (path ∈ processed) as Hold.
      { apply elem_of_app in Hpath as [?|Hpath%list_elem_of_singleton]; congruence. }
      rewrite !lookup_insert_ne.
      * apply (ok_views _ _ Hok); [|done].
        intros path1 path2 H1 H2. apply Hinj; apply elem_of_app; by left.
      * done.
      * intros Heq. apply Hne, Hinj; [|done|done].
        apply elem_of_app. right. by apply list_elem_of_singleton.
Qed.

Lemma assignAliases_ok processed st paths st' :
  aliasesOk processed st → NoDup paths → (∀ path, path ∈ paths → path ∉ processed) →
  assignAliases st paths = Some st' →
  aliasesOk (processed ++ paths) st'.
Proof.
  revert processed st. induction paths as [|importPath paths IH];
    intros processed st Hok Hnodup Hfresh Hassign; simpl in Hassign.
  - rewrite app_nil_r. by simplify_eq.
  - destruct (assignAlias st importPath) as [st1|] eqn:Hstep; simplify_eq/=.
    apply NoDup_cons in Hnodup as [Hnotin Hnodup].
    rewrite (cons_middle importPath), app_assoc.
    apply (IH _ st1); [|done| |done].
    + eapply assignAlias_ok; [done| |done]. apply Hfresh. by left.
    + intros path Hpath [Hin|Hin%list_elem_of_singleton]%elem_of_app.
      * by apply (Hfresh path); [right|].
      * by subst.
Qed.

(** For every set of import paths: each path has an alias; no alias is a
    keyword; the path of the runtime has the alias [pegomock]; two paths
    have the same alias only when one of them is the path of the runtime;
    and when no two paths are cleaned to the same key, the alias under the
    cleaned key of a path is the alias of the path. *)
Lemma generateUniquePackageNamesFor_sound ord importPaths pm nv :
  generateUniquePackageNamesFor ord importPaths = Some (pm, nv) →
  (∀ path, is_Some (pm !! path) ↔ is_Some (importPaths !! path))
  ∧ (∀ path alias, pm !! path = Some alias → token_IsKeyword alias = false)
  ∧ (is_Some (importPaths !! mockFrameworkImportPath) →
     pm !! mockFrameworkImportPath = Some "pegomock")
  ∧ (∀ path1 path2 alias,
       path1 ≠ path2 → pm !! path1 = Some alias → pm !! path2 = Some alias →
       path1 = mockFrameworkImportPath ∨ path2 = mockFrameworkImportPath)
  ∧ ((∀ path1 path2,
        is_Some (importPaths !! path1) → is_Some (importPaths !! path2) →
        vendorCleaned path1 = vendorCleaned path2 → path1 = path2) →
     ∀ path, is_Some (importPaths !! path) → nv !! vendorCleaned path = pm !! path).
Proof.
  unfold generateUniquePackageNamesFor. intros Hnames.
  destruct (assignAliases _ _) as [st|] eqn:Hassign; simplify_eq/=.
  assert (∀ path, path ∈ sort_Strings (lo_Keys ord importPaths)
                  ↔ is_Some (importPaths !! path)) as Hkeys.
  { intros path. by rewrite sort_Strings_Permutation, elem_of_lo_Keys. }
  apply (assignAliases_ok [] noAliases) in Hassign as Hok.
  - simpl in Hok. split; [|split; [|split; [|split]]].
    + intros path. by rewrite (ok_dom _ _ Hok), Hkeys.
    + apply (ok_keyword _ _ Hok).
    + intros Hruntime. apply Hkeys, (ok_dom _ _ Hok) in Hruntime as [alias Halias].
      by rewrite Halias, (ok_runtime _ _ Hok alias Halias).
    + apply (ok_distinct _ _ Hok).
    + intros Hinj path Hpath. apply (ok_views _ _ Hok).
      * intros path1 path2 H1%Hkeys H2%Hkeys. by apply Hinj.
      * by apply Hkeys.
  - apply noAliases_ok.
  - rewrite sort_Strings_Permutation. apply lo_Keys_NoDup.
  - intros path _ Hpath. by apply elem_of_nil in Hpath.
Qed.
End resolver_sound.

(** ** What the emitters write *)

Section emitters.
Context `{lib : GoLibrary} `{pkgModel : ModelPackage}.

Lemma argDataFor_argNames method pm pkgOverride :
  (argDataFor method pm pkgOverride).1.1.2 = argNamesOf method.
Proof.
  unfold argDataFor, argNamesOf, fixedArgNames, argNameAt.
  destruct (method_Variadic method); simpl; rewrite !fmap_imap, ?app_nil_r;
    reflexivity.
Qed.

Lemma argDataFor_returnTypes method pm pkgOverride :
  (argDataFor method pm pkgOverride).2 = param_Type <$> method_Out method.
Proof. unfold argDataFor. by destruct (method_Variadic method). Qed.

Lemma argDataFor_eta method pm pkgOverride :
  argDataFor method pm pkgOverride
  = ((argDataFor method pm pkgOverride).1.1.1, argNamesOf method,
     (argDataFor method pm pkgOverride).1.2, param_Type <$> method_Out method).
Proof.
  rewrite <-(argDataFor_argNames method pm pkgOverride),
    <-(argDataFor_returnTypes method pm pkgOverride).
  by destruct (argDataFor method pm pkgOverride) as [[[??]?]?].
Qed.

Lemma fixedArgNames_length method : length (fixedArgNames method) = length (method_In method).
Proof. unfold fixedArgNames. by rewrite length_imap. Qed.

(** On the names of [argDataFor], [GenerateParamsDeclaration] does not
    panic and writes [paramsLines]. *)
Lemma GenerateParamsDeclaration_emits pm method :
  emits pm (GenerateParamsDeclaration (argNamesOf method)
              (bool_decide (is_Some (method_Variadic method))))
        (paramsLines method).
Proof.
  unfold GenerateParamsDeclaration, paramsLines, argNamesOf.
  destruct (method_Variadic method) as [variadic|].
  - rewrite bool_decide_eq_true_2 by by eexists.
    rewrite last_snoc, length_app, Nat.add_sub. simpl.
    rewrite take_app_length.
    do 3 apply emits_cons. apply emits_p.
  - rewrite bool_decide_eq_false_2 by by intros [??].
    rewrite app_nil_r. apply emits_p.
Qed.

Lemma assertResult_emits pm pkgOverride i returnType :
  emits pm (assertResult pm pkgOverride i returnType)
        (guardedAssertion pm pkgOverride i returnType).
Proof.
  unfold assertResult, guardedAssertion, assertionLines, directional.
  apply emits_cons. apply emits_seq; [|apply emits_p].
  destruct returnType; try apply emits_p.
  case_decide; [|apply emits_p].
  unfold twoStepAssertion. do 4 apply emits_cons. apply emits_p.
Qed.

(** The intercepting method: [interceptLines], for a method with outputs
    [unpackLines], and the closing brace. *)
Lemma generateMockMethod_emits pm mockType typeParamNames method pkgOverride :
  emits pm (generateMockMethod mockType typeParamNames method pkgOverride)
        (interceptLines pm mockType typeParamNames method pkgOverride
         ++ (if decide (0 < length (method_Out method))%nat
             then unpackLines pm pkgOverride (param_Type <$> method_Out method)
             else [])
         ++ ["}"]).
Proof.
  intros b. unfold generateMockMethod. cbn [packageMap].
  rewrite (argDataFor_eta method pm pkgOverride). cbv beta iota zeta.
  revert b. change (emits pm ?e ?ls) with (emits pm e ls).
  unfold interceptLines.
  assert (∀ l : list Type_,
            concat (imap (λ i t, [holderLine pm pkgOverride i t]) l)
            = imap (holderLine pm pkgOverride) l) as Hholders.
  { intros l. generalize (holderLine pm pkgOverride).
    induction l as [|x l IH]; intros f; simpl; [done|]. f_equal. apply IH. }
  destruct (decide (0 < length (method_Out method))%nat).
  - eapply emits_eq.
    + do 4 apply emits_cons.
      apply emits_seq; [apply GenerateParamsDeclaration_emits|].
      apply emits_cons. apply emits_seq; [|apply emits_p].
      apply emits_seq.
      { apply (emits_forEachi pm _ (λ i t, [holderLine pm pkgOverride i t])).
        intros. apply emits_p. }
      apply emits_cons.
      apply emits_seq.
      { apply emits_forEachi. intros. apply assertResult_emits. }
      apply emits_cons. apply emits_p.
    + unfold unpackLines. rewrite Hholders. simpl. by rewrite <-!app_assoc.
  - eapply emits_eq.
    + do 4 apply emits_cons.
      apply emits_seq; [apply GenerateParamsDeclaration_emits|].
      apply emits_cons. apply emits_seq; [apply emits_skip|apply emits_p].
    + simpl. by rewrite <-!app_assoc.
Qed.

(** *** Emitters that always return *)

Lemma emits_written pm e ls : emits pm e ls → written pm e = ls.
Proof. intros He. unfold written. by rewrite He. Qed.

Lemma writes_written pm e : writes pm e → emits pm e (written pm e).
Proof. intros [ls He]. by rewrite (emits_written pm e ls). Qed.

Lemma writes_p pm line : writes pm (p line).
Proof. eexists. apply emits_p. Qed.

Lemma writes_skip pm : writes pm skip.
Proof. eexists. apply emits_skip. Qed.

Lemma writes_seq pm e1 e2 : writes pm e1 → writes pm e2 → writes pm (e1 ;; e2).
Proof. intros [l1 H1] [l2 H2]. eexists. by apply emits_seq. Qed.

Lemma writes_forEach {A} pm (body : A → Emitter) l :
  (∀ x, x ∈ l → writes pm (body x)) → writes pm (forEach body l).
Proof.
  induction l as [|x l IH]; intros Hbody; simpl; [apply writes_skip|].
  apply writes_seq; [apply Hbody; by left|].
  apply IH. intros y Hy. apply Hbody. by right.
Qed.

Lemma writes_forEachi {A} pm (body : nat → A → Emitter) (l : list A) :
  (∀ i x, writes pm (body i x)) → writes pm (forEachi body l).
Proof. intros Hbody. apply writes_forEach. intros [i x] _. apply Hbody. Qed.

Lemma written_seq pm e1 e2 :
  writes pm e1 → writes pm e2 → written pm (e1 ;; e2) = written pm e1 ++ written pm e2.
Proof.
  intros [l1 H1] [l2 H2].
  rewrite (emits_written pm e1 l1), (emits_written pm e2 l2) by done.
  apply emits_written. by apply emits_seq.
Qed.

Lemma written_forEach {A} pm (body : A → Emitter) l :
  (∀ x, x ∈ l → writes pm (body x)) →
  written pm (forEach body l) = concat ((λ x, written pm (body x)) <$> l).
Proof.
  intros Hbody. apply emits_written. apply emits_forEach.
  intros x Hx. apply writes_written. by apply Hbody.
Qed.

Ltac writes :=
  repeat lazymatch goal with
    | |- writes _ (andThen _ _) => apply writes_seq
    | |- writes _ (p _) => apply writes_p
    | |- writes _ skip => apply writes_skip
    | |- writes _ (forEachi _ _) => apply writes_forEachi; intros
    | |- writes _ (if ?c then _ else _) => destruct c
    end.

Lemma generateMockType_writes pm mockTypeName typeParams typeParamNames :
  writes pm (generateMockType mockTypeName typeParams typeParamNames).
Proof. unfold generateMockType, emptyLine. writes. Qed.

Lemma generateMockMethod_writes pm mockType typeParamNames method pkgOverride :
  writes pm (generateMockMethod mockType typeParamNames method pkgOverride).
Proof. eexists. apply generateMockMethod_emits. Qed.

Lemma generateMockVerifyMethods_writes pm interfaceName typeParamNames :
  writes pm (generateMockVerifyMethods interfaceName typeParamNames).
Proof. unfold generateMockVerifyMethods, emptyLine. cbv zeta. writes. Qed.

Lemma generateVerifierType_writes pm interfaceName typeParams typeParamNames :
  writes pm (generateVerifierType interfaceName typeParams typeParamNames).
Proof. unfold generateVerifierType, emptyLine. writes. Qed.

Lemma generateVerifierMethod_writes pm interfaceName typeParamNames method
    pkgOverride returnTypeString args :
  writes pm (generateVerifierMethod interfaceName typeParamNames method pkgOverride
               returnTypeString args (argNamesOf method)).
Proof.
  unfold generateVerifierMethod.
  apply writes_seq; [apply writes_p|].
  apply writes_seq; [eexists; apply GenerateParamsDeclaration_emits|].
  writes.
Qed.

Lemma generateOngoingVerificationType_writes pm interfaceName typeParams
    typeParamNames ongoingVerificationStructName :
  writes pm (generateOngoingVerificationType interfaceName typeParams typeParamNames
               ongoingVerificationStructName).
Proof. unfold generateOngoingVerificationType, emptyLine. writes. Qed.

Lemma generateOngoingVerificationGetCapturedArguments_emits pm
    ongoingVerificationStructName argNames argTypes typeParamNames :
  emits pm (generateOngoingVerificationGetCapturedArguments
              ongoingVerificationStructName argNames argTypes typeParamNames)
        (capturedArgumentsLines ongoingVerificationStructName argNames argTypes
           typeParamNames).
Proof.
  unfold generateOngoingVerificationGetCapturedArguments, capturedArgumentsLines,
    emptyLine.
  apply emits_cons.
  destruct argNames as [|argName argNames].
  - rewrite decide_False by (simpl; lia).
    apply (emits_seq pm _ _ [] ["}"; ""]); [apply emits_skip|].
    apply emits_cons, emits_p.
  - rewrite decide_True by (simpl; lia).
    apply (emits_seq pm _ _ [_; _] ["}"; ""]).
    + apply emits_cons, emits_p.
    + apply emits_cons, emits_p.
Qed.

Lemma generateOngoingVerificationGetAllCapturedArguments_writes pm
    ongoingVerificationStructName typeParamNames argTypes isVariadic :
  writes pm (generateOngoingVerificationGetAllCapturedArguments
               ongoingVerificationStructName typeParamNames argTypes isVariadic).
Proof.
  unfold generateOngoingVerificationGetAllCapturedArguments, emptyLine. cbv zeta.
  writes.
Qed.

Lemma generateMockFor_writes pm iface mockTypeName selfPackage :
  writes pm (generateMockFor iface mockTypeName selfPackage).
Proof.
  unfold writes, emits, generateMockFor. cbn [packageMap].
  match goal with |- ∃ ls, ∀ b, ?e _ = _ => change (writes pm e) end.
  apply writes_seq; [apply generateMockType_writes|].
  apply writes_seq.
  { apply writes_forEach. intros method _.
    apply writes_seq; [apply generateMockMethod_writes|apply writes_p]. }
  apply writes_seq; [apply generateMockVerifyMethods_writes|].
  apply writes_seq; [apply generateVerifierType_writes|].
  apply writes_forEach. intros method _.
  rewrite (argDataFor_eta method pm selfPackage). cbv beta iota zeta.
  apply writes_seq; [apply generateVerifierMethod_writes|].
  apply writes_seq; [apply generateOngoingVerificationType_writes|].
  apply writes_seq.
  { eexists. apply generateOngoingVerificationGetCapturedArguments_emits. }
  apply generateOngoingVerificationGetAllCapturedArguments_writes.
Qed.

Lemma argDataFor_argTypes method pm pkgOverride :
  (argDataFor method pm pkgOverride).1.2 = argTypesOf pm pkgOverride method.
Proof.
  unfold argDataFor, argTypesOf.
  destruct (method_Variadic method); simpl;
    rewrite fmap_imap, <-imap_const, ?app_nil_r; reflexivity.
Qed.

Lemma substring_all s : String.substring 0 (String.length s) s = s.
Proof. induction s as [|c s IH]; simpl; [done|]. by rewrite IH. Qed.

(** The element type is found again under the slice type. *)
Lemma variadicBasicType T : strings_Remove1 ("[]" +:+ T) "[]" = T.
Proof.
  change ("[]" +:+ T) with (String "[" (String "]" T)).
  unfold strings_Remove1.
  assert (String.prefix "[]" (String "[" (String "]" T)) = true) as ->.
  { simpl. by destruct T. }
  simpl. rewrite Nat.sub_0_r. apply substring_all.
Qed.

(** [GetAllCapturedArguments] of a method with parameters: one block per
    position. *)
Lemma generateOngoingVerificationGetAllCapturedArguments_emits pm
    ongoingVerificationStructName typeParamNames argTypes isVariadic :
  (0 < length argTypes)%nat →
  emits pm (generateOngoingVerificationGetAllCapturedArguments
              ongoingVerificationStructName typeParamNames argTypes isVariadic)
        ([ "func (c *" +:+ ongoingVerificationStructName +:+ typeParamNames
             +:+ ") GetAllCapturedArguments() ("
             +:+ strings_Join (imap (λ i argType, "_param" +:+ itoa i +:+ " []" +:+ argType)
                                    argTypes) ", " +:+ ") {";
           "_params := pegomock.GetGenericMockFrom(c.mock).GetInvocationParams(c.methodInvocations)";
           "if len(_params) > 0 {" ]
         ++ concat (imap (λ i argType,
                            if isVariadic && bool_decide (i = length argTypes - 1)%nat
                            then [ "_param" +:+ itoa i +:+ " = make([]" +:+ argType
                                     +:+ ", len(c.methodInvocations))" ]
                                 ++ tail (variadicCaptureLines i
                                            (strings_Remove1 argType "[]"))
                            else fixedCaptureLines i argType)
                         argTypes)
         ++ ["}"; "return"; "}"; ""]).
Proof.
  intros Hargs.
  unfold generateOngoingVerificationGetAllCapturedArguments, emptyLine. cbv zeta.
  rewrite decide_True by done.
  apply emits_cons.
  eapply emits_eq.
  - apply emits_seq; [|apply emits_cons, emits_p].
    do 2 apply emits_cons.
    apply emits_seq; [|apply emits_cons, emits_p].
    apply (emits_forEachi pm _
             (λ i argType,
                if isVariadic && bool_decide (i = length argTypes - 1)%nat
                then [ "_param" +:+ itoa i +:+ " = make([]" +:+ argType
                         +:+ ", len(c.methodInvocations))" ]
                     ++ tail (variadicCaptureLines i (strings_Remove1 argType "[]"))
                else fixedCaptureLines i argType)).
    intros i argType _.
    destruct (isVariadic && bool_decide (i = length argTypes - 1)%nat).
    + simpl. do 8 apply emits_cons. apply emits_p.
    + unfold fixedCaptureLines. do 5 apply emits_cons. apply emits_p.
  - simpl. rewrite <-!app_assoc. reflexivity.
Qed.

(** *** The whole output *)

Lemma importLine_emits pm selfPackage entries :
  emits pm (forEach (importLine selfPackage) entries) (importLines selfPackage entries).
Proof.
  induction entries as [|[packagePath packageName] entries IH]; [apply emits_skip|].
  change (importLines selfPackage ((packagePath, packageName) :: entries))
    with ((if decide (packagePath ≠ selfPackage ∧ packagePath ≠ "time"
                      ∧ packagePath ≠ "reflect")
           then [packageName +:+ " " +:+ fmt_q packagePath] else [])
          ++ importLines selfPackage entries).
  apply emits_seq; [|done].
  unfold importLine. case_decide; [apply emits_p|apply emits_skip].
Qed.

Lemma importLines_Permutation selfPackage entries1 entries2 :
  entries1 ≡ₚ entries2 →
  importLines selfPackage entries1 ≡ₚ importLines selfPackage entries2.
Proof. intros Hperm. unfold importLines. by rewrite Hperm. Qed.

Lemma dotImports_emits pm pkg :
  emits pm (forEach (λ packagePath, p (". " +:+ fmt_q packagePath)) (pkg_DotImports pkg))
        (dotImportLines pkg).
Proof.
  unfold dotImportLines. induction (pkg_DotImports pkg) as [|x l IH]; [apply emits_skip|].
  simpl. by apply emits_cons.
Qed.

Lemma interfaces_emit pm pkg structName selfPackage :
  emits pm (forEach (λ iface,
                       let sName :=
                         if decide (structName = "") then "Mock" +:+ iface_Name iface
                         else structName in
                       generateMockFor iface sName selfPackage)
                    (pkg_Interfaces pkg))
        (concat (mockLines pm structName selfPackage <$> pkg_Interfaces pkg)).
Proof.
  apply emits_forEach. intros iface _. apply writes_written, generateMockFor_writes.
Qed.

(** [generateCode] returns, with the package map of the resolver and with
    the header, the import lines in the order of the iteration over
    [nonVendorPackageMap], and the trailer in the buffer. *)
Lemma generateCode_run ord source pkg structName pkgName selfPackage pm nv g :
  generateUniquePackageNamesFor ord
    (<[mockFrameworkImportPath := true]> (Package_Imports pkg)) = Some (pm, nv) →
  generateCode ord source pkg structName pkgName selfPackage g
  = Ok {| buf := buf g ++ headerLines source pkgName
                   ++ importLines selfPackage (map_range ord nv)
                   ++ trailerLines pm pkg structName selfPackage;
          packageMap := pm |}.
Proof.
  intros Hnames. destruct g as [b pm0].
  unfold generateCode. rewrite Hnames.
  cbn [andThen p emptyLine setPackageMap buf packageMap].
  rewrite (emits_seq pm _ _ _ _ (importLine_emits pm selfPackage (map_range ord nv))
             (emits_seq pm _ _ _ _ (dotImports_emits pm pkg)
                (emits_cons pm ")" _ _ (interfaces_emit pm pkg structName selfPackage)))).
  unfold headerLines, trailerLines. f_equal. f_equal.
  rewrite <-!app_assoc. reflexivity.
Qed.

Lemma generateCode_total ord source pkg structName pkgName selfPackage g :
  ∃ g', generateCode ord source pkg structName pkgName selfPackage g = Ok g'.
Proof.
  destruct (generateUniquePackageNamesFor_total ord
              (<[mockFrameworkImportPath := true]> (Package_Imports pkg)))
    as [[pm nv] Hnames].
  eexists. by apply generateCode_run.
Qed.
End emitters.

Lemma lookup_two_split {A} (l : list A) k1 k2 x y :
  (k1 < k2)%nat → l !! k1 = Some x → l !! k2 = Some y →
  ∃ l1 l2 l3, l = l1 ++ x :: l2 ++ y :: l3.
Proof.
  intros Hlt H1 H2.
  pose proof (take_drop_middle l k1 x H1) as Hsplit.
  assert (drop (S k1) l !! (k2 - S k1)%nat = Some y) as H2'.
  { rewrite lookup_drop. by replace (S k1 + (k2 - S k1))%nat with k2 by lia. }
  pose proof (take_drop_middle _ _ _ H2') as Hsplit'.
  exists (take k1 l), (take (k2 - S k1) (drop (S k1) l)),
    (drop (S (k2 - S k1)) (drop (S k1) l)).
  by rewrite Hsplit', Hsplit.
Qed.

Lemma concat_fmap_two {A B} (f : A → list B) l1 x l2 y l3 :
  concat (f <$> (l1 ++ x :: l2 ++ y :: l3))
  = concat (f <$> l1) ++ f x ++ concat (f <$> l2) ++ f y ++ concat (f <$> l3).
Proof.
  rewrite fmap_app, concat_app, fmap_cons. simpl.
  by rewrite fmap_app, concat_app, fmap_cons.
Qed.

Lemma elem_of_concat {A} (x : A) (ls : list (list A)) :
  x ∈ concat ls ↔ ∃ l, x ∈ l ∧ l ∈ ls.
Proof.
  rewrite list_elem_of_In, in_concat. split.
  - intros (l & Hl & Hx). exists l. by rewrite !list_elem_of_In.
  - intros (l & Hx & Hl). exists l. by rewrite <-!list_elem_of_In.
Qed.

Section declarations.
Context `{lib : GoLibrary} `{pkgModel : ModelPackage}.

Ltac parts_write :=
  repeat lazymatch goal with
    | |- writes _ (andThen _ _) => apply writes_seq
    | |- writes _ (forEach _ _) => apply writes_forEach; intros; cbv beta
    | |- writes _ (p _) => apply writes_p
    | |- writes _ emptyLine => apply writes_p
    | |- writes _ (generateMockMethod _ _ _ _) => apply generateMockMethod_writes
    | |- writes _ (generateMockType _ _ _) => apply generateMockType_writes
    | |- writes _ (generateMockVerifyMethods _ _) => apply generateMockVerifyMethods_writes
    | |- writes _ (generateVerifierType _ _ _) => apply generateVerifierType_writes
    | |- writes _ (generateVerifierMethod _ _ _ _ _ _ _) =>
        apply generateVerifierMethod_writes
    | |- writes _ (generateOngoingVerificationType _ _ _ _) =>
        apply generateOngoingVerificationType_writes
    | |- writes _ (generateOngoingVerificationGetCapturedArguments _ _ _ _) =>
        eexists; apply generateOngoingVerificationGetCapturedArguments_emits
    | |- writes _ (generateOngoingVerificationGetAllCapturedArguments _ _ _ _) =>
        apply generateOngoingVerificationGetAllCapturedArguments_writes
    | Hbody : ∀ method, writes _ (let _ := _ in _) |- writes _ _ => apply Hbody
    end.

(** What is generated for an interface starts with the declaration of the
    stand-in, and has the declaration of the verifier and of the ongoing
    verification of each method further down. *)
Lemma generateMockFor_declarations pm iface n selfPackage :
  ∃ rest,
    written pm (generateMockFor iface n selfPackage)
    = "" :: standInDeclaration pm selfPackage n iface :: rest
    ∧ verifierDeclaration pm selfPackage n iface ∈ rest
    ∧ ∀ method, method ∈ iface_Methods iface →
        ongoingVerificationDeclaration pm selfPackage n iface method ∈ rest.
Proof.
  unfold written at 1, generateMockFor. cbn [packageMap].
  match goal with
  | |- ∃ rest, match ?e _ with _ => _ end = _ ∧ _ =>
      change (∃ rest, written pm e = "" :: standInDeclaration pm selfPackage n iface :: rest
                      ∧ verifierDeclaration pm selfPackage n iface ∈ rest
                      ∧ ∀ method, method ∈ iface_Methods iface →
                          ongoingVerificationDeclaration pm selfPackage n iface method
                          ∈ rest)
  end.
  set (tp := typeParamsStringFrom (iface_TypeParams iface) pm selfPackage true).
  set (tpn := typeParamsStringFrom (iface_TypeParams iface) pm selfPackage false).
  assert (∀ method,
            writes pm
              (let ongoingVerificationTypeName :=
                 n +:+ "_" +:+ method_Name method +:+ "_OngoingVerification" in
               let '(args, argNames, argTypes, _) := argDataFor method pm selfPackage in
               generateVerifierMethod n tpn method selfPackage
                 ongoingVerificationTypeName args argNames ;;
               generateOngoingVerificationType n tp tpn ongoingVerificationTypeName ;;
               generateOngoingVerificationGetCapturedArguments ongoingVerificationTypeName
                 argNames argTypes tpn ;;
               generateOngoingVerificationGetAllCapturedArguments
                 ongoingVerificationTypeName tpn argTypes
                 (bool_decide (is_Some (method_Variadic method)))))
    as Hscaffold.
  { intros method. rewrite (argDataFor_eta method pm selfPackage). cbv beta iota zeta.
    parts_write. }
  assert (∀ method,
            writes pm (generateMockMethod n tpn method selfPackage ;; emptyLine))
    as Hmethods.
  { intros method. apply writes_seq; [apply generateMockMethod_writes|apply writes_p]. }
  rewrite written_seq by parts_write.
  rewrite written_seq by parts_write.
  rewrite written_seq by parts_write.
  rewrite written_seq by parts_write.
  rewrite !written_forEach by (intros; cbv beta; parts_write).
  assert (∃ r, written pm (generateMockType n tp tpn)
               = "" :: standInDeclaration pm selfPackage n iface :: r) as [r1 ->]
    by (eexists; reflexivity).
  assert (∃ r, written pm (generateVerifierType n tp tpn)
               = verifierDeclaration pm selfPackage n iface :: r) as [r2 ->]
    by (eexists; reflexivity).
  eexists. split; [reflexivity|]. split.
  - rewrite !elem_of_app, elem_of_cons. right. right. right. left. by left.
  - intros method Hmethod.
    rewrite !elem_of_app. right. right. right. right.
    apply elem_of_concat. eexists. split; [|apply list_elem_of_fmap; eauto].
    cbv beta.
    rewrite (argDataFor_eta method pm selfPackage). cbv beta iota zeta.
    rewrite written_seq by parts_write.
    apply elem_of_app; right.
    rewrite written_seq by parts_write.
    apply elem_of_app; left. by left.
Qed.
End declarations.

(** A round of an indexed loop writes its lines somewhere in the output. *)
Lemma concat_imap_lookup {A} (f : nat → A → list string) (l : list A) i x :
  l !! i = Some x → ∃ l1 l2, concat (imap f l) = l1 ++ f i x ++ l2.
Proof.
  revert f i. induction l as [|y l IH]; intros f i Hi; [done|].
  rewrite imap_cons. simpl. destruct i as [|i]; simplify_eq/=.
  - by exists [], (concat (imap (f ∘ S) l)).
  - destruct (IH (f ∘ S) i Hi) as (l1 & l2 & ->).
    exists (f 0 y ++ l1), l2. by rewrite <-app_assoc.
Qed.

(** ** The reconstruction of the variadic position at run time *)

Section variadic_capture.
Context {Val : Type} (hasType : Val → string → bool) (zero : string → Val).

Lemma capturable_column T n _params i column :
  capturable hasType T n _params i = true → column ∈ drop i _params →
  length column = n ∧ ∀ u v, column !! u = Some (Some v) → hasType v T = true.
Proof.
  unfold capturable. rewrite forallb_forall. intros Hall Hin.
  apply list_elem_of_In, Hall, andb_prop in Hin as [Hlen Hcells].
  split; [by apply bool_decide_eq_true in Hlen|].
  intros u v Hu. rewrite forallb_forall in Hcells.
  apply (Hcells (Some v)), list_elem_of_In. by eapply list_elem_of_lookup_2.
Qed.

Lemma run_variadicCells_slots T _params i u columns slots :
  drop (i + length slots) _params = columns →
  Forall (λ column, ∃ cell, column !! u = Some cell
                            ∧ ∀ v, cell = Some v → hasType v T = true) columns →
  run_variadicCells hasType T _params i u
    (slots ++ replicate (length columns) (zero T))
    (seq (i + length slots) (length columns))
  = Some (slots ++ ((λ column, default (zero T) (mjoin (column !! u))) <$> columns)).
Proof.
  revert slots. induction columns as [|column columns IH]; intros slots Hdrop Hcells.
  - done.
  - apply Forall_cons in Hcells as [(cell & Hcell & Htyped) Hcells].
    assert (_params !! (i + length slots)%nat = Some column) as Hcolumn.
    { rewrite <-(Nat.add_0_r (i + length slots)), <-lookup_drop. by rewrite Hdrop. }
    assert (drop (i + length (slots ++ [default (zero T) cell])) _params = columns)
      as Hdrop'.
    { rewrite length_app. simpl. rewrite Nat.add_assoc, Nat.add_1_r.
      erewrite drop_S in Hdrop by done. by simplify_eq. }
    specialize (IH _ Hdrop' Hcells).
    rewrite length_app in IH. simpl in IH.
    rewrite Nat.add_assoc, Nat.add_1_r, <-!app_assoc in IH.
    cbn [length seq run_variadicCells]. unfold run_variadicCell at 1.
    rewrite Hcolumn. simpl. rewrite Hcell. simpl.
    destruct cell as [v|]; simpl.
    + rewrite (Htyped v eq_refl). simpl.
      replace (i + length slots - i)%nat with (length slots + 0)%nat by lia.
      rewrite insert_app_r. exact IH.
    + exact IH.
Qed.

Lemma run_variadicInner_slots T n _params i u :
  (i ≤ length _params)%nat → (u < n)%nat →
  capturable hasType T n _params i = true →
  run_variadicInner hasType zero T _params i u
  = Some (variadicSlots (zero T) _params i u).
Proof.
  intros Hi Hu Hcap. unfold run_variadicInner. rewrite decide_True by done.
  rewrite <-(length_drop _params i).
  pose proof (run_variadicCells_slots T _params i u (drop i _params) []) as Hcells.
  simpl in Hcells. rewrite Nat.add_0_r in Hcells. apply Hcells; [done|].
  apply Forall_forall. intros column Hin.
  destruct (capturable_column T n _params i column Hcap Hin) as [Hlen Htyped].
  destruct (lookup_lt_is_Some_2 column u) as [cell Hcell]; [lia|].
  exists cell. split; [done|]. intros v ->. by eapply Htyped.
Qed.

Lemma variadicSlots_length (z : Val) _params i u :
  length (variadicSlots z _params i u) = (length _params - i)%nat.
Proof. unfold variadicSlots. by rewrite length_fmap, length_drop. Qed.

(** Where no cell of the call is [nil], the slots are the values passed. *)
Lemma variadicSlots_passed (z : Val) _params i u :
  (∀ column, column ∈ drop i _params → ∃ v, column !! u = Some (Some v)) →
  variadicSlots z _params i u = variadicValuesPassed _params i u.
Proof.
  unfold variadicSlots, variadicValuesPassed.
  induction (drop i _params) as [|column columns IH]; intros Hcells; [done|].
  destruct (Hcells column) as [v Hv]; [by left|].
  simpl. rewrite Hv. simpl. f_equal. apply IH. intros c Hc. apply Hcells. by right.
Qed.
End variadic_capture.

(** ** The claims *)

Section claims.
Context `{lib : GoLibrary} `{pkgModel : ModelPackage}.

(** C9.  [GenerateOutput] always hands the generated buffer to the
    formatting pass: [generateCode] returns a generator [g], and the
    outcome is decided by [format.Source] on the bytes of [g].  When the
    pass fails the call panics, with a message that ends in the content of
    the buffer; when it succeeds the formatted bytes are returned. *)
Theorem GenerateOutput_formats ord ast source nameOut packageOut selfPackage :
  ∃ g, generateCode ord source ast nameOut packageOut selfPackage newGenerator = Ok g
       ∧ GenerateOutput ord ast source nameOut packageOut selfPackage
         = match format_Source (Bytes g) with
           | inl src => Ok src
           | inr err =>
               Panic ("Failed to format generated source code: " +:+ err +:+ newline
                        +:+ Bytes g)
           end.
Proof.
  destruct (generateCode_total ord source ast nameOut packageOut selfPackage newGenerator)
    as [g Hg].
  exists g. split; [done|].
  unfold GenerateOutput. by rewrite Hg.
Qed.

(** C4.  On the names [argDataFor] gives for a method with [k] fixed
    parameters, the construction of the parameter vector lists the [k]
    fixed names between the braces; for a variadic method a loop over the
    variadic parameter follows that appends each of its elements; these
    lines, [paramsLines], are part of the intercepting method.  Run on
    the values of the [k] fixed arguments and [n] variadic values, the
    vector is the fixed values followed by the variadic ones in order,
    [k + n] entries; for a method that is not variadic it is the fixed
    values. *)
Theorem params_vector_flat pm method pkgOverride :
  emits pm (GenerateParamsDeclaration (argDataFor method pm pkgOverride).1.1.2
              (bool_decide (is_Some (method_Variadic method))))
        (match method_Variadic method with
         | Some variadic =>
             [ "_params := []pegomock.Param{" +:+ join (fixedArgNames method) +:+ "}";
               "for _, param := range "
                 +:+ argNameAt (length (method_In method)) variadic +:+ " {";
               "_params = append(_params, param)";
               "}" ]
         | None =>
             [ "_params := []pegomock.Param{" +:+ join (fixedArgNames method) +:+ "}" ]
         end)
  ∧ length (fixedArgNames method) = length (method_In method)
  ∧ (∀ mockType typeParamNames, ∃ before after,
       emits pm (generateMockMethod mockType typeParamNames method pkgOverride)
             (before ++ paramsLines method ++ after))
  ∧ ∀ (Val : Type) (fixed variadic : list (option Val)),
      run_ParamsDeclaration fixed (Some variadic) = fixed ++ variadic
      ∧ length (run_ParamsDeclaration fixed (Some variadic))
        = (length fixed + length variadic)%nat
      ∧ run_ParamsDeclaration fixed None = fixed.
Proof.
  split; [|split; [|split]].
  - rewrite argDataFor_argNames. apply GenerateParamsDeclaration_emits.
  - apply fixedArgNames_length.
  - intros mockType typeParamNames.
    pose proof (generateMockMethod_emits pm mockType typeParamNames method pkgOverride)
      as Hemits.
    unfold interceptLines in Hemits. rewrite <-!app_assoc in Hemits.
    eexists _, _. exact Hemits.
  - intros Val fixed variadic.
    assert (run_ParamsDeclaration fixed (Some variadic) = fixed ++ variadic) as Hrun.
    { simpl. revert fixed. induction variadic as [|x variadic IH]; intros fixed; simpl.
      - by rewrite app_nil_r.
      - rewrite IH. by rewrite <-app_assoc. }
    rewrite Hrun, length_app. done.
Qed.

(** C5.  For the return type at position [i] of a method, the intercepting
    method contains the guarded assertion of [_result[i]].  When the type
    is a channel type with a direction ([Dir] not [0]) the assertion has
    two steps: [_ret, ok = _result[i].(U)] with [U] the rendering of the
    channel type with [Dir] set to [0], then under [if !ok] the assertion
    into the type itself.  Every other type is asserted once, directly.
    Run on a value, the two steps succeed when the value has the type
    without direction, and else when it has the type with the direction. *)
Theorem directional_channel_two_step pm mockType typeParamNames method pkgOverride
    i returnType :
  (param_Type <$> method_Out method) !! i = Some returnType →
  (∃ before after,
     emits pm (generateMockMethod mockType typeParamNames method pkgOverride)
           (before
            ++ ["if _result[" +:+ itoa i +:+ "] != nil {"]
            ++ match returnType with
               | ChanType Dir Elem =>
                   if decide (Dir ≠ 0%Z) then
                     [ "var ok bool";
                       "  _ret" +:+ itoa i +:+ ", ok = _result[" +:+ itoa i +:+ "].("
                         +:+ Type_String (ChanType 0 Elem) pm pkgOverride +:+ ")";
                       "if !ok{";
                       "_ret" +:+ itoa i +:+ " = _result[" +:+ itoa i +:+ "].("
                         +:+ Type_String returnType pm pkgOverride +:+ ")";
                       "}" ]
                   else
                     [ "_ret" +:+ itoa i +:+ "  = _result[" +:+ itoa i +:+ "].("
                         +:+ Type_String returnType pm pkgOverride +:+ ")" ]
               | _ =>
                   [ "_ret" +:+ itoa i +:+ "  = _result[" +:+ itoa i +:+ "].("
                       +:+ Type_String returnType pm pkgOverride +:+ ")" ]
               end
            ++ ["}"] ++ after))
  ∧ ∀ (Val : Type) (hasType : Val → string → bool) (zero : string → Val) (v : Val),
      run_assertResult hasType zero pm pkgOverride returnType (Some v)
      = match returnType with
        | ChanType Dir Elem =>
            if decide (Dir ≠ 0%Z) then
              if hasType v (Type_String (ChanType 0 Elem) pm pkgOverride) then Some v
              else if hasType v (Type_String returnType pm pkgOverride) then Some v
                   else None
            else if hasType v (Type_String returnType pm pkgOverride) then Some v
                 else None
        | _ => if hasType v (Type_String returnType pm pkgOverride) then Some v else None
        end.
Proof.
  intros Hi. split.
  - assert (0 < length (method_Out method))%nat as Hout.
    { apply lookup_lt_Some in Hi. rewrite length_fmap in Hi. lia. }
    destruct (concat_imap_lookup (guardedAssertion pm pkgOverride) _ i returnType Hi)
      as (l1 & l2 & Hblocks).
    eexists (interceptLines pm mockType typeParamNames method pkgOverride
             ++ imap (holderLine pm pkgOverride) (param_Type <$> method_Out method)
             ++ ["if len(_result) != 0 {"] ++ l1), _.
    eapply emits_eq; [apply generateMockMethod_emits|].
    rewrite decide_True by done. unfold unpackLines. rewrite Hblocks.
    unfold guardedAssertion, assertionLines, directional, twoStepAssertion,
      directAssertion.
    rewrite <-!app_assoc. do 4 f_equal.
    destruct returnType; try reflexivity. case_decide; reflexivity.
  - intros Val hasType zero v. unfold run_assertResult.
    destruct returnType; try reflexivity.
    case_decide; [|reflexivity].
    unfold typeAssertOk, typeAssert. by destruct (hasType v _).
Qed.

(** C6.  The intercepting method of a method with outputs declares, right
    after the call of [Invoke], one holder [var _ret_i T_i] per output;
    all assertions follow, inside [if len(_result) != 0 { ... }], each
    one inside [if _result[i] != nil { ... }].  Run on an empty result
    vector the statements return the zero value of every output type, and
    so they do on a vector of [nil] slots, whatever the outcome of a type
    assertion would be: none is made. *)
Theorem results_guarded pm mockType typeParamNames method pkgOverride :
  (0 < length (method_Out method))%nat →
  let returnTypes := param_Type <$> method_Out method in
  emits pm (generateMockMethod mockType typeParamNames method pkgOverride)
        (interceptLines pm mockType typeParamNames method pkgOverride
         ++ imap (λ i returnType,
                    "var _ret" +:+ itoa i +:+ " "
                      +:+ Type_String returnType pm pkgOverride) returnTypes
         ++ ["if len(_result) != 0 {"]
         ++ concat (imap (λ i returnType,
                            ["if _result[" +:+ itoa i +:+ "] != nil {"]
                              ++ assertionLines pm pkgOverride i returnType ++ ["}"])
                         returnTypes)
         ++ ["}";
             "return " +:+ strings_Join (imap (λ i _, "_ret" +:+ itoa i) returnTypes) ", ";
             "}"])
  ∧ length (imap (λ i returnType,
                    "var _ret" +:+ itoa i +:+ " "
                      +:+ Type_String returnType pm pkgOverride) returnTypes)
    = length (method_Out method)
  ∧ ∀ (Val : Type) (hasType : Val → string → bool) (zero : string → Val),
      let zeros := (λ returnType, zero (Type_String returnType pm pkgOverride))
                     <$> returnTypes in
      run_results hasType zero pm pkgOverride returnTypes [] = Some zeros
      ∧ run_results hasType zero pm pkgOverride returnTypes
          (replicate (length returnTypes) None) = Some zeros.
Proof.
  intros Hout returnTypes. split; [|split].
  - eapply emits_eq; [apply generateMockMethod_emits|].
    rewrite decide_True by done. unfold unpackLines. fold returnTypes.
    rewrite <-!app_assoc. reflexivity.
  - unfold returnTypes. by rewrite length_imap, length_fmap.
  - intros Val hasType zero zeros. split; [done|].
    unfold run_results. rewrite length_replicate.
    rewrite decide_True by (unfold returnTypes; rewrite length_fmap; lia).
    apply mapM_Some. unfold zeros, indexed.
    apply Forall2_same_length_lookup. split.
    { by rewrite length_imap, !length_fmap. }
    intros i [j t] z Hjt Hz.
    apply list_lookup_imap_Some in Hjt as (t' & Ht' & [= -> ->]).
    rewrite list_lookup_fmap, Ht' in Hz. simplify_eq/=.
    rewrite lookup_replicate_2 by (by eapply lookup_lt_Some). done.
Qed.

(** C10.  The interfaces of the package are generated one after the
    other, each under the name [standInName]: the override when it is not
    empty, and else ["Mock"] before the name of the interface.  What is
    generated for an interface under a name [n] declares the stand-in
    [n], the verifier [Verifier n] and for each method [m] the ongoing
    verification [n_m_OngoingVerification].  So with an override and two
    interfaces the output declares the type of the override twice. *)
Theorem override_names_every_interface ord source pkg structName pkgName selfPackage :
  ∃ pm nv g,
    generateUniquePackageNamesFor ord
      (<[mockFrameworkImportPath := true]> (Package_Imports pkg)) = Some (pm, nv)
    ∧ generateCode ord source pkg structName pkgName selfPackage newGenerator = Ok g
    ∧ buf g
      = headerLines source pkgName ++ importLines selfPackage (map_range ord nv)
        ++ dotImportLines pkg ++ [")"]
        ++ concat ((λ iface,
                      written pm
                        (generateMockFor iface
                           (if decide (structName = "") then "Mock" +:+ iface_Name iface
                            else structName)
                           selfPackage))
                     <$> pkg_Interfaces pkg)
    ∧ (∀ iface n, ∃ rest,
         written pm (generateMockFor iface n selfPackage)
         = "" :: standInDeclaration pm selfPackage n iface :: rest
         ∧ verifierDeclaration pm selfPackage n iface ∈ rest
         ∧ ∀ method, method ∈ iface_Methods iface →
             ongoingVerificationDeclaration pm selfPackage n iface method ∈ rest)
    ∧ (structName ≠ "" →
       ∀ k1 k2 iface1 iface2,
         (k1 < k2)%nat →
         pkg_Interfaces pkg !! k1 = Some iface1 →
         pkg_Interfaces pkg !! k2 = Some iface2 →
         ∃ l1 l2 l3,
           buf g = l1 ++ standInDeclaration pm selfPackage structName iface1
                      :: l2 ++ standInDeclaration pm selfPackage structName iface2 :: l3).
Proof.
  destruct (generateUniquePackageNamesFor_total ord
              (<[mockFrameworkImportPath := true]> (Package_Imports pkg)))
    as [[pm nv] Hnames].
  pose proof (generateCode_run ord source pkg structName pkgName selfPackage pm nv
                newGenerator Hnames) as Hrun.
  eexists pm, nv, _. split; [done|]. split; [exact Hrun|].
  split; [reflexivity|]. split; [intros; apply generateMockFor_declarations|].
  intros Hname k1 k2 iface1 iface2 Hlt H1 H2.
  destruct (lookup_two_split _ _ _ _ _ Hlt H1 H2) as (A & B & C & Hsplit).
  destruct (generateMockFor_declarations pm iface1 structName selfPackage)
    as (rest1 & Hlines1 & _).
  destruct (generateMockFor_declarations pm iface2 structName selfPackage)
    as (rest2 & Hlines2 & _).
  cbn [buf]. unfold trailerLines, mockLines, standInName.
  destruct (decide (structName = "")) as [|_]; [done|]. rewrite Hsplit.
  rewrite concat_fmap_two, Hlines1, Hlines2.
  change (buf newGenerator) with (@nil string).
  set (lines := λ iface, written pm (generateMockFor iface structName selfPackage)).
  exists (headerLines source pkgName ++ importLines selfPackage (map_range ord nv)
          ++ dotImportLines pkg ++ [")"] ++ concat (lines <$> A) ++ [""]),
         (rest1 ++ concat (lines <$> B) ++ [""]), (rest2 ++ concat (lines <$> C)).
  repeat first [rewrite <-app_assoc | progress cbn [app]]. reflexivity.
Qed.

(** Two runs on the same input.  The two alias maps are the same whatever
    the order in which the maps are visited, and so is the package map of
    the generator.  The buffer handed to the formatting pass starts and
    ends with the same lines in both runs; in between stand the import
    lines of [nonVendorPackageMap] in the order of the iteration of the
    run, the same lines up to their order.  The outcome of
    [GenerateOutput] is that of the formatting pass on this buffer. *)
Lemma generation_up_to_import_order ord1 ord2 source pkg structName pkgName selfPackage :
  ∃ pm nv g1 g2,
    generateUniquePackageNamesFor ord1
      (<[mockFrameworkImportPath := true]> (Package_Imports pkg)) = Some (pm, nv)
    ∧ generateUniquePackageNamesFor ord2
        (<[mockFrameworkImportPath := true]> (Package_Imports pkg)) = Some (pm, nv)
    ∧ generateCode ord1 source pkg structName pkgName selfPackage newGenerator = Ok g1
    ∧ generateCode ord2 source pkg structName pkgName selfPackage newGenerator = Ok g2
    ∧ packageMap g1 = pm ∧ packageMap g2 = pm
    ∧ buf g1 = headerLines source pkgName
               ++ importLines selfPackage (map_range ord1 nv)
               ++ trailerLines pm pkg structName selfPackage
    ∧ buf g2 = headerLines source pkgName
               ++ importLines selfPackage (map_range ord2 nv)
               ++ trailerLines pm pkg structName selfPackage
    ∧ importLines selfPackage (map_range ord1 nv)
      ≡ₚ importLines selfPackage (map_range ord2 nv)
    ∧ GenerateOutput ord1 pkg source structName pkgName selfPackage = formattedOutput g1
    ∧ GenerateOutput ord2 pkg source structName pkgName selfPackage = formattedOutput g2.
Proof.
  destruct (generateUniquePackageNamesFor_total ord1
              (<[mockFrameworkImportPath := true]> (Package_Imports pkg)))
    as [[pm nv] Hnames1].
  pose proof Hnames1 as Hnames2.
  rewrite (generateUniquePackageNamesFor_order ord1 ord2) in Hnames2.
  pose proof (generateCode_run ord1 source pkg structName pkgName selfPackage pm nv
                newGenerator Hnames1) as Hrun1.
  pose proof (generateCode_run ord2 source pkg structName pkgName selfPackage pm nv
                newGenerator Hnames2) as Hrun2.
  eexists pm, nv, _, _.
  split; [done|]. split; [done|].
  split; [exact Hrun1|]. split; [exact Hrun2|].
  do 4 (split; [reflexivity|]).
  split; [apply importLines_Permutation; by rewrite !map_range_perm|].
  unfold GenerateOutput. by rewrite Hrun1, Hrun2.
Qed.
End claims.

(** ** The claims on the worked examples *)

Section examples.
Existing Instance exampleLibrary.
Existing Instance simpleModel.instance.

(** Before the formatting pass the import lines stand in the order of the
    iteration.  On the package [feedPackage], two orders of visiting
    [nonVendorPackageMap] leave two different buffers: the first import
    line after the two fixed ones is that of the runtime in one run and
    that of [example.com/events] in the other. *)
Lemma import_lines_follow_iteration_order :
  let run ord :=
    generateCode ord "feed.go" feedPackage "" "feed_test" "example.com/feed"
      newGenerator in
  linesOf (run forwardOrder) !! 8%nat
  = Some ("pegomock " +:+ dquote +:+ "github.com/petergtz/pegomock/v4" +:+ dquote)
  ∧ linesOf (run backwardOrder) !! 8%nat
    = Some ("events " +:+ dquote +:+ "example.com/events" +:+ dquote)
  ∧ linesOf (run forwardOrder) ≠ linesOf (run backwardOrder).
Proof.
  intros run.
  assert (linesOf (run forwardOrder) !! 8%nat
          = Some ("pegomock " +:+ dquote +:+ "github.com/petergtz/pegomock/v4"
                    +:+ dquote)) as Hforward by (vm_compute; reflexivity).
  assert (linesOf (run backwardOrder) !! 8%nat
          = Some ("events " +:+ dquote +:+ "example.com/events" +:+ dquote))
    as Hbackward by (vm_compute; reflexivity).
  split; [exact Hforward|]. split; [exact Hbackward|].
  intros Heq. rewrite Heq, Hbackward in Hforward. discriminate Hforward.
Qed.

(** C2, the failing input.  With [example.com/tools/pegomock] among the
    imports, that path and the path of the runtime are both given the
    alias [pegomock], in every run. *)
Theorem pegomock_alias_given_twice ord :
  let names :=
    generateUniquePackageNamesFor ord
      {[ "example.com/tools/pegomock" := true; mockFrameworkImportPath := true ]} in
  aliasOf names "example.com/tools/pegomock" = Some "pegomock"
  ∧ aliasOf names mockFrameworkImportPath = Some "pegomock".
Proof.
  intros names. unfold names.
  rewrite (generateUniquePackageNamesFor_order ord forwardOrder).
  split; vm_compute; reflexivity.
Qed.

(** C7, the failing input.  With a path under [/vendor/] and the path it
    is cleaned to both among the imports, the alias of the first in the
    map of full paths is [lib], and the alias under its cleaned key in the
    other map is [lib0], in every run. *)
Theorem vendored_alias_overwritten ord :
  let names :=
    generateUniquePackageNamesFor ord
      {[ "example.com/app/vendor/example.com/lib" := true;
         "example.com/lib" := true;
         mockFrameworkImportPath := true ]} in
  vendorCleaned "example.com/app/vendor/example.com/lib" = "example.com/lib"
  ∧ aliasOf names "example.com/app/vendor/example.com/lib" = Some "lib"
  ∧ importAliasOf names (vendorCleaned "example.com/app/vendor/example.com/lib")
    = Some "lib0".
Proof.
  intros names. unfold names.
  rewrite (generateUniquePackageNamesFor_order ord forwardOrder).
  repeat split; vm_compute; reflexivity.
Qed.

(** The two steps of C5 in the intercepting method of [Feed_Subscribe], whose
    first result is a receive-only channel *)
Lemma directional_channel_two_step_witness :
  (param_Type <$> method_Out Feed_Subscribe) !! 0%nat
  = Some (ChanType 1 (NamedType "example.com/events" "Event" []))
  ∧ ∃ before after,
      emits {[ "example.com/events" := "events" ]}
        (generateMockMethod "MockFeed" "" Feed_Subscribe "example.com/feed")
        (before
         ++ [ "if _result[0] != nil {";
              "var ok bool";
              "  _ret0, ok = _result[0].(chan events.Event)";
              "if !ok{";
              "_ret0 = _result[0].(<-chan events.Event)";
              "}";
              "}" ]
         ++ after).
Proof.
  split; [reflexivity|].
  destruct (directional_channel_two_step {[ "example.com/events" := "events" ]}
              "MockFeed" "" Feed_Subscribe "example.com/feed" 0 _ eq_refl)
    as [(before & after & Hemits) _].
  exists before, after.
  eapply emits_eq; [exact Hemits|].
  vm_compute. reflexivity.
Defined.

(** The guards of C6 on [Thing_Get]: an empty result vector gives the two
    zero values. *)
Lemma results_guarded_witness :
  (0 < length (method_Out Thing_Get))%nat
  ∧ run_results anyInt zeroInt ∅ "" (param_Type <$> method_Out Thing_Get) []
    = Some [0%Z; 0%Z].
Proof.
  split; [apply Nat.lt_0_succ|].
  destruct (results_guarded ∅ "MockThing" "" Thing_Get "" (Nat.lt_0_succ _))
    as (_ & _ & Hrun).
  destruct (Hrun Z anyInt zeroInt) as [Hempty _].
  exact Hempty.
Defined.

(** The override of C10 on the two interfaces of [feedPackage] *)
Lemma override_names_every_interface_witness :
  ∃ g l1 l2 l3,
    generateCode forwardOrder "feed.go" feedPackage "Double" "feed_test"
      "example.com/feed" newGenerator = Ok g
    ∧ buf g = l1 ++ "type Double struct {" :: l2 ++ "type Double struct {" :: l3.
Proof.
  destruct (override_names_every_interface forwardOrder "feed.go" feedPackage "Double"
              "feed_test" "example.com/feed")
    as (pm & nv & g & _ & Hg & _ & _ & Hdouble).
  assert ("Double" ≠ "") as Hname by discriminate.
  destruct (Hdouble Hname 0%nat 1%nat Thing Feed (Nat.lt_0_succ _) eq_refl eq_refl)
    as (l1 & l2 & l3 & Hbuf).
  exists g, l1, l2, l3. split; [exact Hg|exact Hbuf].
Defined.
End examples.

(** * Further properties of the generator *)

(** ** The alias loop and the resolver *)

Lemma nameLoop_from used base fuel i r :
  nameLoop used base fuel (S i) (base +:+ strconv_Itoa i) = Some r →
  ∃ j, (i ≤ j ≤ i + fuel)%nat
       ∧ r = base +:+ strconv_Itoa j
       ∧ ∀ k, (i ≤ k < j)%nat → nameTaken used (base +:+ strconv_Itoa k) = true.
Proof.
  revert i. induction fuel as [|fuel IH]; intros i; simpl.
  - destruct (nameTaken used _) eqn:Htaken; [done|]. intros [= <-].
    exists i. split; [lia|]. split; [done|]. intros k ?; lia.
  - destruct (nameTaken used (base +:+ strconv_Itoa i)) eqn:Htaken.
    + intros (j & Hj & -> & Hbelow)%IH. exists j. split; [lia|]. split; [done|].
      intros k Hk. destruct (decide (k = i)) as [->|?]; [done|]. apply Hbelow. lia.
    + intros [= <-]. exists i. split; [lia|]. split; [done|]. intros k ?; lia.
Qed.

(** X1.  The alias loop ends for every set of used names and every base
    name, after at most as many counters as there are used names.  It
    keeps the base name when that is neither used nor a keyword; else it
    returns the base name with the least counter [j] for which the name is
    free, all smaller counters giving taken names. *)
Theorem alias_loop_least_counter used base :
  ∃ r, nameLoop used base (S (size used)) 0 base = Some r
       ∧ nameTaken used r = false
       ∧ if nameTaken used base
         then ∃ j, (j ≤ size used)%nat
                   ∧ r = base +:+ strconv_Itoa j
                   ∧ ∀ k, (k < j)%nat → nameTaken used (base +:+ strconv_Itoa k) = true
         else r = base.
Proof.
  destruct (nameLoop_total used base) as [r Hr]. exists r.
  split; [done|]. split; [by eapply nameLoop_Some|].
  simpl in Hr. destruct (nameTaken used base); [|by simplify_eq].
  apply nameLoop_from in Hr as (j & Hj & -> & Hbelow).
  exists j. split; [lia|]. split; [done|]. intros k Hk. apply Hbelow. lia.
Qed.

Section resolver_views.
Context `{lib : GoLibrary}.

Lemma assignAlias_view processed st importPath st' :
  aliasesOk processed st → viewFromPaths st → importPath ∉ processed →
  assignAlias st importPath = Some st' → viewFromPaths st'.
Proof.
  intros Hok Hview Hfresh Hassign. unfold assignAlias in Hassign.
  destruct (nameLoop _ _ _ _ _) as [name|] eqn:Hloop; [|done].
  simpl in Hassign. injection Hassign as <-.
  assert (names.packageMap st !! importPath = None) as Hnew.
  { apply eq_None_not_Some. by rewrite (ok_dom _ _ Hok). }
  intros key alias. simpl.
  destruct (decide (vendorCleaned importPath = key)) as [<-|Hne].
  - rewrite lookup_insert_eq. intros [= <-]. exists importPath.
    by rewrite lookup_insert_eq.
  - rewrite lookup_insert_ne by done. intros (path & <- & Hpath)%Hview.
    exists path. split; [done|]. rewrite lookup_insert_ne; [done|congruence].
Qed.

Lemma assignAliases_view processed st paths st' :
  aliasesOk processed st → viewFromPaths st → NoDup paths →
  (∀ path, path ∈ paths → path ∉ processed) →
  assignAliases st paths = Some st' → viewFromPaths st'.
Proof.
  revert processed st. induction paths as [|importPath paths IH];
    intros processed st Hok Hview Hnodup Hfresh Hassign; simpl in Hassign.
  - by simplify_eq.
  - destruct (assignAlias st importPath) as [st1|] eqn:Hstep; simplify_eq/=.
    apply NoDup_cons in Hnodup as [Hnotin Hnodup].
    apply (IH (processed ++ [importPath]) st1); [| |done| |done].
    + eapply assignAlias_ok; [done| |done]. apply Hfresh. by left.
    + eapply assignAlias_view; [done|done| |done]. apply Hfresh. by left.
    + intros path Hpath [Hin|Hin%list_elem_of_singleton]%elem_of_app.
      * by apply (Hfresh path); [right|].
      * by subst.
Qed.

(** X2.  For every set of import paths the resolver returns; the paths
    with an alias are exactly the paths of the set; no alias is a keyword
    of Go; and every entry of the map of cleaned paths carries the alias of
    a path of the set that is cleaned to its key. *)
Theorem every_path_gets_a_legal_alias ord importPaths :
  ∃ pm nv,
    generateUniquePackageNamesFor ord importPaths = Some (pm, nv)
    ∧ (∀ path, is_Some (pm !! path) ↔ is_Some (importPaths !! path))
    ∧ (∀ path alias, pm !! path = Some alias → token_IsKeyword alias = false)
    ∧ (∀ key alias, nv !! key = Some alias →
         ∃ path, is_Some (importPaths !! path) ∧ vendorCleaned path = key
                 ∧ pm !! path = Some alias).
Proof.
  destruct (generateUniquePackageNamesFor_total ord importPaths) as [[pm nv] Hnames].
  exists pm, nv. split; [done|].
  destruct (generateUniquePackageNamesFor_sound ord importPaths pm nv Hnames)
    as (Hdom & Hkeyword & _).
  split; [done|]. split; [done|].
  unfold generateUniquePackageNamesFor in Hnames.
  destruct (assignAliases _ _) as [st|] eqn:Hassign; simplify_eq/=.
  assert (viewFromPaths st) as Hview.
  { apply (assignAliases_view [] noAliases _ st) in Hassign; [done|..].
    - apply noAliases_ok.
    - intros key alias. simpl. by rewrite lookup_empty.
    - rewrite sort_Strings_Permutation. apply lo_Keys_NoDup.
    - intros path _ Hpath. by apply elem_of_nil in Hpath. }
  intros key alias (path & Hkey & Hpath)%Hview.
  exists path. split; [|done]. apply Hdom. by eexists.
Qed.

(** X3.  Two different import paths, neither of them the path of the
    runtime, never get the same alias. *)
Theorem user_aliases_pairwise_distinct ord importPaths path1 path2 :
  is_Some (importPaths !! path1) → is_Some (importPaths !! path2) →
  path1 ≠ path2 →
  path1 ≠ mockFrameworkImportPath → path2 ≠ mockFrameworkImportPath →
  aliasOf (generateUniquePackageNamesFor ord importPaths) path1
  ≠ aliasOf (generateUniquePackageNamesFor ord importPaths) path2.
Proof.
  intros Hin1 Hin2 Hne Hne1 Hne2.
  destruct (generateUniquePackageNamesFor_total ord importPaths) as [[pm nv] Hnames].
  destruct (generateUniquePackageNamesFor_sound ord importPaths pm nv Hnames)
    as (Hdom & _ & _ & Hdistinct & _).
  rewrite Hnames. simpl.
  apply Hdom in Hin1 as [alias1 Halias1]. apply Hdom in Hin2 as [alias2 Halias2].
  rewrite Halias1, Halias2. intros [= <-].
  destruct (Hdistinct path1 path2 alias1 Hne Halias1 Halias2); done.
Qed.

Lemma NoDup_fmap_eq {A B} `{EqDecision A} (f : A → B) (l : list A) x y :
  NoDup (f <$> l) → x ∈ l → y ∈ l → f x = f y → x = y.
Proof.
  induction l as [|z l IH]; intros Hnodup Hx Hy Heq; [by apply elem_of_nil in Hx|].
  rewrite fmap_cons in Hnodup. apply NoDup_cons in Hnodup as [Hz Hnodup].
  apply elem_of_cons in Hx as [->|Hx]; apply elem_of_cons in Hy as [->|Hy]; try done.
  - destruct Hz. rewrite Heq. by apply list_elem_of_fmap_2.
  - destruct Hz. rewrite <-Heq. by apply list_elem_of_fmap_2.
  - by apply IH.
Qed.

Lemma cleanedKeys_inj importPaths path1 path2 :
  NoDup (cleanedKeys importPaths) →
  is_Some (importPaths !! path1) → is_Some (importPaths !! path2) →
  vendorCleaned path1 = vendorCleaned path2 → path1 = path2.
Proof.
  intros Hnodup [b1 H1] [b2 H2]. apply (NoDup_fmap_eq vendorCleaned _ _ _ Hnodup).
  - apply list_elem_of_fmap. exists (path1, b1). split; [done|]. by apply elem_of_map_to_list.
  - apply list_elem_of_fmap. exists (path2, b2). split; [done|]. by apply elem_of_map_to_list.
Qed.

(** X4.  When no two import paths are cleaned to the same key, the two
    maps agree: the alias recorded under the cleaned key of a path is the
    alias of the path. *)
Theorem views_agree_without_shared_keys ord importPaths path :
  NoDup (cleanedKeys importPaths) →
  is_Some (importPaths !! path) →
  importAliasOf (generateUniquePackageNamesFor ord importPaths) (vendorCleaned path)
  = aliasOf (generateUniquePackageNamesFor ord importPaths) path.
Proof.
  intros Hnodup Hpath.
  destruct (generateUniquePackageNamesFor_total ord importPaths) as [[pm nv] Hnames].
  destruct (generateUniquePackageNamesFor_sound ord importPaths pm nv Hnames)
    as (_ & _ & _ & _ & Hviews).
  rewrite Hnames. simpl. apply Hviews; [|done].
  intros path1 path2. by apply cleanedKeys_inj.
Qed.
End resolver_views.

Section resolver_examples.
Existing Instance exampleLibrary.

(** X3 on [html/template] and [text/template] *)
Lemma user_aliases_pairwise_distinct_witness :
  aliasOf (generateUniquePackageNamesFor forwardOrder templatePaths) "html/template"
  = Some "template"
  ∧ aliasOf (generateUniquePackageNamesFor forwardOrder templatePaths) "html/template"
    ≠ aliasOf (generateUniquePackageNamesFor forwardOrder templatePaths) "text/template".
Proof.
  split; [vm_compute; reflexivity|].
  apply user_aliases_pairwise_distinct.
  - apply (bool_decide_unpack _). vm_compute. exact I.
  - apply (bool_decide_unpack _). vm_compute. exact I.
  - discriminate.
  - discriminate.
  - discriminate.
Defined.

(** X4 on a vendored path *)
Lemma views_agree_without_shared_keys_witness :
  importAliasOf (generateUniquePackageNamesFor forwardOrder vendoredPaths)
    (vendorCleaned "example.com/app/vendor/example.com/lib")
  = aliasOf (generateUniquePackageNamesFor forwardOrder vendoredPaths)
      "example.com/app/vendor/example.com/lib".
Proof.
  apply views_agree_without_shared_keys.
  - apply (bool_decide_unpack _). vm_compute. exact I.
  - apply (bool_decide_unpack _). vm_compute. exact I.
Defined.
End resolver_examples.

(** ** Strings *)

Lemma append_assoc (s1 s2 s3 : string) : (s1 +:+ s2) +:+ s3 = s1 +:+ s2 +:+ s3.
Proof.
  induction s1 as [|c s1 IH]; [done|].
  change (String c ((s1 +:+ s2) +:+ s3) = String c (s1 +:+ s2 +:+ s3)). by rewrite IH.
Qed.

Lemma append_empty_r (s : string) : s +:+ "" = s.
Proof.
  induction s as [|c s IH]; [done|].
  change (String c (s +:+ "") = String c s). by rewrite IH.
Qed.

Lemma append_nonempty (s1 s2 : string) : s1 ≠ "" → s1 +:+ s2 ≠ "".
Proof. by destruct s1. Qed.

Lemma concat_empty_cons (x : string) (xs : list string) :
  String.concat "" (x :: xs) = x +:+ String.concat "" xs.
Proof. destruct xs; simpl; [by rewrite append_empty_r|done]. Qed.

Lemma concat_empty_app (xs ys : list string) :
  String.concat "" (xs ++ ys) = String.concat "" xs +:+ String.concat "" ys.
Proof.
  induction xs as [|x xs IH]; [done|].
  rewrite <-app_comm_cons, !concat_empty_cons, IH. by rewrite append_assoc.
Qed.

(** ** [sanitize] and [typeParamsStringFrom], rune by rune and entry by entry *)

Section closed_form_proofs.
Context `{lib : GoLibrary} `{pkgModel : ModelPackage}.

Lemma sanitize_rune_first r : sanitize_rune "" r = sanitizedRune true r.
Proof. unfold sanitize_rune, sanitizedRune. simpl. by destruct (_ || _). Qed.

Lemma sanitize_rune_later t r : t ≠ "" → sanitize_rune t r = t +:+ sanitizedRune false r.
Proof.
  intros Ht. unfold sanitize_rune, sanitizedRune.
  rewrite decide_False by done. by destruct (_ || _).
Qed.

Lemma sanitizedRune_nonempty first r :
  (∀ r, string_of_rune r ≠ "") → sanitizedRune first r ≠ "".
Proof. intros Hrune. unfold sanitizedRune. by destruct (if first then _ else _). Qed.

Lemma foldl_sanitize_rune t runes :
  (∀ r, string_of_rune r ≠ "") → t ≠ "" →
  foldl sanitize_rune t runes = t +:+ String.concat "" (sanitizedRune false <$> runes).
Proof.
  intros Hrune. revert t. induction runes as [|r runes IH]; intros t Ht; simpl foldl.
  - by rewrite append_empty_r.
  - rewrite sanitize_rune_later by done.
    rewrite IH by by apply append_nonempty.
    by rewrite fmap_cons, concat_empty_cons, append_assoc.
Qed.

(** X5.  As long as [string(r)] is never empty, the test [t == ""] of
    [sanitize] holds at the first rune only: the first rune is kept when
    it is a letter or an underscore, a later one also when it is a digit,
    and every other rune becomes an underscore.  The name that results is
    never the single underscore, which is replaced by [x], and it is empty
    only for a string without runes. *)
Theorem sanitize_rune_by_rune s :
  (∀ r, string_of_rune r ≠ "") →
  sanitize s
  = (if decide (sanitizedRunes (utf8_runes s) = "_") then "x"
     else sanitizedRunes (utf8_runes s))
  ∧ sanitize s ≠ "_"
  ∧ (sanitize s = "" ↔ utf8_runes s = []).
Proof.
  intros Hrune.
  assert (foldl sanitize_rune "" (utf8_runes s) = sanitizedRunes (utf8_runes s)) as Hloop.
  { destruct (utf8_runes s) as [|r runes]; [done|]. simpl foldl.
    rewrite sanitize_rune_first. apply foldl_sanitize_rune; [done|].
    by apply sanitizedRune_nonempty. }
  unfold sanitize. rewrite Hloop. split; [done|]. split.
  - by destruct (decide (sanitizedRunes (utf8_runes s) = "_")).
  - destruct (utf8_runes s) as [|r runes]; [done|].
    split; [|done]. intros Hempty. exfalso.
    destruct (decide _) as [|_]; [done|].
    revert Hempty. unfold sanitizedRunes. apply append_nonempty.
    by apply sanitizedRune_nonempty.
Qed.

Lemma strings_Join_cons sep x xs :
  strings_Join (x :: xs) sep = x +:+ String.concat "" ((λ y, sep +:+ y) <$> xs).
Proof.
  unfold strings_Join. revert x. induction xs as [|y xs IH]; intros x.
  - simpl. by rewrite append_empty_r.
  - rewrite fmap_cons, concat_empty_cons, append_assoc, <-IH. done.
Qed.

Lemma typeParams_loop pm pkgOverride (withTypes : bool) (params : list Parameter_) k
    (result : string) :
  foldl (λ (result : string) (entry : nat * Parameter_),
           let '(i, param) := entry in
           let result := if decide (0 < i)%nat then result +:+ ", " else result in
           let result := result +:+ param_Name param in
           if withTypes
           then result +:+ " " +:+ Type_String (param_Type param) pm pkgOverride
           else result)
        result (imap (λ i x, (S k + i, x)%nat) params)
  = result +:+ String.concat ""
      ((λ y, ", " +:+ y) <$> (typeParamEntry pm pkgOverride withTypes <$> params)).
Proof.
  revert k result. induction params as [|param params IH]; intros k result.
  - simpl. by rewrite append_empty_r.
  - rewrite imap_cons. simpl foldl.
    rewrite (imap_ext _ (λ i x, (S (S k) + i, x)%nat))
      by (intros; simpl; f_equal; lia).
    rewrite IH, !fmap_cons, concat_empty_cons. unfold typeParamEntry.
    destruct withTypes; by rewrite !append_assoc.
Qed.

(** X6.  Without type parameters [typeParamsStringFrom] gives the empty
    string, and no brackets; else it gives the entries of the parameters
    between brackets, with a comma and a space between two entries and
    none after the last.  An entry is the name of the parameter, followed
    by a space and its constraint when [withTypes] is set. *)
Theorem typeParamsStringFrom_joined params pm pkgOverride withTypes :
  typeParamsStringFrom params pm pkgOverride withTypes
  = match params with
    | [] => ""
    | _ => "[" +:+ strings_Join (typeParamEntry pm pkgOverride withTypes <$> params) ", "
             +:+ "]"
    end.
Proof.
  unfold typeParamsStringFrom. destruct params as [|param params]; [done|].
  rewrite decide_False by done. unfold indexed. rewrite imap_cons. simpl foldl.
  rewrite (imap_ext _ (λ i x, (1 + i, x)%nat)) by done.
  rewrite typeParams_loop, fmap_cons, strings_Join_cons. unfold typeParamEntry.
  destruct withTypes; by rewrite !append_assoc.
Qed.
End closed_form_proofs.

Section sanitize_examples.
Existing Instance exampleLibrary.

(** X5 on a base name that starts with a digit and has a dash *)
Lemma sanitize_rune_by_rune_witness : sanitize "2fa-kit" = "_fa_kit".
Proof.
  destruct (sanitize_rune_by_rune "2fa-kit") as [-> _].
  - intros r. discriminate.
  - vm_compute. reflexivity.
Defined.
End sanitize_examples.

(** ** The names of the parameters *)

Section parameter_names.
Context `{lib : GoLibrary} `{pkgModel : ModelPackage}.

Lemma argNamesOf_allParams method : argNamesOf method = imap argNameAt (allParams method).
Proof.
  unfold argNamesOf, allParams, fixedArgNames. rewrite imap_app.
  destruct (method_Variadic method); simpl; [|done].
  by rewrite Nat.add_0_r.
Qed.

Lemma argNameAt_nonempty i arg : argNameAt i arg ≠ "".
Proof. unfold argNameAt. by destruct (decide (param_Name arg = "")). Qed.

(** X7.  [argDataFor] lists one declaration, one name and one type for
    each parameter of the method, the variadic one last, and one return
    type for each output.  No name is empty: a parameter with a name keeps
    it, one without gets [_param] and its position; two parameters without
    a name never get the same one. *)
Theorem argDataFor_names method pm pkgOverride :
  let '(args, argNames, argTypes, returnTypes) := argDataFor method pm pkgOverride in
  length args = length (allParams method)
  ∧ length argNames = length (allParams method)
  ∧ length argTypes = length (allParams method)
  ∧ length returnTypes = length (method_Out method)
  ∧ (∀ i param, allParams method !! i = Some param →
       ∃ name, argNames !! i = Some name ∧ name ≠ ""
               ∧ (param_Name param ≠ "" → name = param_Name param)
               ∧ (param_Name param = "" → name = "_param" +:+ strconv_Itoa i))
  ∧ (∀ i j param1 param2,
       allParams method !! i = Some param1 → allParams method !! j = Some param2 →
       param_Name param1 = "" → param_Name param2 = "" → i ≠ j →
       argNames !! i ≠ argNames !! j).
Proof.
  assert (length (argDataFor method pm pkgOverride).1.1.1 = length (allParams method))
    as Hargs.
  { unfold argDataFor, allParams.
    destruct (method_Variadic method); simpl;
      rewrite ?length_app, !length_fmap, length_imap; simpl; lia. }
  rewrite argDataFor_eta in Hargs |- *.
  rewrite argDataFor_argTypes. simpl in Hargs.
  split; [done|]. rewrite argNamesOf_allParams.
  split; [by rewrite length_imap|]. split.
  { unfold argTypesOf, allParams. rewrite !length_app, length_fmap.
    by destruct (method_Variadic method). }
  split; [by rewrite length_fmap|]. split.
  - intros i param Hparam. exists (argNameAt i param).
    split; [by rewrite list_lookup_imap, Hparam|].
    split; [apply argNameAt_nonempty|].
    unfold argNameAt. by destruct (decide (param_Name param = "")).
  - intros i j param1 param2 Hi Hj Hname1 Hname2 Hij.
    rewrite !list_lookup_imap, Hi, Hj. simpl. unfold argNameAt.
    rewrite !decide_True by done. intros [= Heq]. by apply candidate_inj in Heq.
Qed.

(** X8.  [GenerateParamsDeclaration] panics exactly when it is called for
    a variadic method with no name at all, at the slice
    [argNames[0:len(argNames)-1]]; in every other case it returns, having
    appended four lines for a variadic method and one line else, with what
    was in the buffer left as it was.  On the names [argDataFor] gives for
    a method it never panics. *)
Theorem GenerateParamsDeclaration_panics_iff argNames isVariadic g :
  match GenerateParamsDeclaration argNames isVariadic g with
  | Ok g' =>
      ¬ (isVariadic = true ∧ argNames = [])
      ∧ ∃ ls, g' = {| buf := buf g ++ ls; packageMap := packageMap g |}
              ∧ length ls = if isVariadic then 4%nat else 1%nat
  | Panic msg => isVariadic = true ∧ argNames = []
  | Diverge => False
  end
  ∧ ∀ method pm pkgOverride,
      ¬ (bool_decide (is_Some (method_Variadic method)) = true
         ∧ (argDataFor method pm pkgOverride).1.1.2 = []).
Proof.
  split.
  - unfold GenerateParamsDeclaration. destruct isVariadic.
    + destruct (last argNames) as [variadicName|] eqn:Hlast.
      * unfold andThen, p. cbn [buf packageMap]. split.
        { intros [_ ->]. done. }
        eexists [_; _; _; _]. split; [|done]. by rewrite <-!app_assoc.
      * apply last_None in Hlast as ->. done.
    + unfold p. split; [by intros [? _]|]. by eexists [_].
  - intros method pm pkgOverride [Hvariadic Hnames].
    rewrite argDataFor_argNames in Hnames. unfold argNamesOf in Hnames.
    apply bool_decide_eq_true in Hvariadic as [variadic Hvariadic].
    rewrite Hvariadic in Hnames. by apply app_nil in Hnames as [_ ?].
Qed.
End parameter_names.

(** ** The aliases of the import lines *)

Section import_lines.
Context `{lib : GoLibrary} `{pkgModel : ModelPackage}.

Lemma elem_of_importLines selfPackage entries packagePath packageName :
  (packagePath, packageName) ∈ entries →
  packagePath ≠ selfPackage → packagePath ≠ "time" → packagePath ≠ "reflect" →
  packageName +:+ " " +:+ fmt_q packagePath ∈ importLines selfPackage entries.
Proof.
  intros Hentry Hself Htime Hreflect. unfold importLines.
  apply list_elem_of_bind. exists (packagePath, packageName). split; [|done].
  rewrite decide_True by done. by apply list_elem_of_singleton.
Qed.

(** X9.  When no two import paths of the package are cleaned to the same
    key, the import block agrees with the package map the types are
    rendered with: for every import path whose cleaned form is not the
    home package, [time] or [reflect], the alias [g.packageMap] has for the
    path is the alias on the import line of its cleaned form. *)
Theorem aliases_of_types_are_imported ord source pkg structName pkgName selfPackage g
    importPath :
  NoDup (cleanedKeys (<[mockFrameworkImportPath := true]> (Package_Imports pkg))) →
  is_Some ((<[mockFrameworkImportPath := true]> (Package_Imports pkg)) !! importPath) →
  vendorCleaned importPath ≠ selfPackage →
  vendorCleaned importPath ≠ "time" →
  vendorCleaned importPath ≠ "reflect" →
  ∃ g' alias,
    generateCode ord source pkg structName pkgName selfPackage g = Ok g'
    ∧ packageMap g' !! importPath = Some alias
    ∧ alias +:+ " " +:+ fmt_q (vendorCleaned importPath) ∈ buf g'.
Proof.
  intros Hnodup Hpath Hself Htime Hreflect.
  destruct (generateUniquePackageNamesFor_total ord
              (<[mockFrameworkImportPath := true]> (Package_Imports pkg)))
    as [[pm nv] Hnames].
  destruct (generateUniquePackageNamesFor_sound ord _ pm nv Hnames)
    as (Hdom & _ & _ & _ & Hviews).
  destruct (proj2 (Hdom importPath) Hpath) as [alias Halias].
  eexists _, alias. split; [by apply generateCode_run|]. cbn [buf packageMap].
  split; [done|].
  apply elem_of_app. right. apply elem_of_app. right. apply elem_of_app. left.
  apply elem_of_importLines; [|done..].
  rewrite (map_range_perm ord). apply elem_of_map_to_list.
  rewrite Hviews; [done| |done].
  intros path1 path2. by apply cleanedKeys_inj.
Qed.
End import_lines.

Section import_examples.
Existing Instance exampleLibrary.
Existing Instance simpleModel.instance.

(** X9 on [feedPackage] and its import [example.com/events] *)
Lemma aliases_of_types_are_imported_witness :
  ∃ g' alias,
    generateCode forwardOrder "feed.go" feedPackage "" "feed_test" "example.com/feed"
      newGenerator = Ok g'
    ∧ packageMap g' !! "example.com/events" = Some alias
    ∧ alias +:+ " " +:+ fmt_q (vendorCleaned "example.com/events") ∈ buf g'.
Proof.
  apply aliases_of_types_are_imported.
  - apply (bool_decide_unpack _). vm_compute. exact I.
  - apply (bool_decide_unpack _). vm_compute. exact I.
  - discriminate.
  - discriminate.
  - discriminate.
Defined.
End import_examples.

(** ** The captured arguments *)

Section fixed_capture.
Context {Val : Type} (hasType : Val → string → bool) (zero : string → Val).

Lemma run_fixedCells_closed T (captured : list Val) m column :
  run_fixedCells hasType T (captured ++ replicate m (zero T))
    (imap (λ u cell, (length captured + u, cell)%nat) column)
  = if capturableColumn hasType T m column
    then Some (captured ++ omap id column ++ replicate (m - length column) (zero T))
    else None.
Proof.
  revert captured m. induction column as [|cell column IH]; intros captured m.
  - simpl. by rewrite Nat.sub_0_r.
  - rewrite imap_cons. cbn [run_fixedCells]. unfold run_fixedCell, capturableColumn.
    cbn [forallb length]. destruct cell as [v|]; cbn [typeAssert]; last first.
    { by rewrite andb_false_r. }
    destruct (hasType v T) eqn:Htyped; cbn [mbind option_bind]; last first.
    { by rewrite andb_false_r. }
    rewrite length_app, length_replicate, Nat.add_0_r.
    destruct m as [|m].
    { rewrite decide_False by lia. by rewrite bool_decide_eq_false_2 by lia. }
    rewrite decide_True by lia. cbn [mbind option_bind].
    rewrite insert_app_r_alt by lia. rewrite Nat.sub_diag. cbn [replicate].
    change (<[0%nat := v]> (zero T :: replicate m (zero T))) with (v :: replicate m (zero T)).
    rewrite (cons_middle v), app_assoc.
    rewrite (imap_ext _ (λ u cell, (length (captured ++ [v]) + u, cell)%nat));
      last first.
    { intros u cell' _. cbn. rewrite length_app. cbn. f_equal. lia. }
    rewrite IH. unfold capturableColumn.
    rewrite (bool_decide_ext (length column ≤ m)%nat (S (length column) ≤ S m)%nat) by lia.
    cbn [andb]. destruct (_ && _); [|done].
    cbn [omap id]. rewrite <-!app_assoc. done.
Qed.

(** X10.  A position of [GetAllCapturedArguments] that is not variadic:
    when the matrix has no column for it the result is empty; when the
    column has at most as many cells as there are invocations, each with a
    value of the type of the parameter, the result has these values and is
    filled up with zero values to the number of invocations; in every
    other case (a cell that is [nil], for which this loop has no test, a
    value of another type, a column longer than the number of
    invocations) the code panics. *)
Theorem fixed_position_captured T n (_params : list (list (option Val))) i :
  run_fixedCapture hasType zero T n _params i
  = match _params !! i with
    | None => Some []
    | Some column =>
        if capturableColumn hasType T n column
        then Some (omap id column ++ replicate (n - length column) (zero T))
        else None
    end.
Proof.
  unfold run_fixedCapture. destruct (_params !! i) as [column|]; [|done].
  apply (run_fixedCells_closed T [] n column).
Qed.
End fixed_capture.

Lemma mapM_bind {A B C} (f : A → option B) (g : B → option C) (l : list A) :
  mapM f l ≫= mapM g = mapM (λ x, f x ≫= g) l.
Proof.
  induction l as [|x l IH]; [done|]. cbn [mapM]. rewrite <-IH.
  destruct (f x) as [y|]; [|done]. cbn.
  destruct (mapM f l) as [k|]; cbn; [done|]. by destruct (g y).
Qed.

Lemma forallb_Some {A} (good : A → bool) (column : list (option A)) :
  forallb (λ cell, match cell with Some v => good v | None => false end) column = true →
  column = Some <$> omap id column.
Proof.
  induction column as [|[v|] column IH]; cbn; [done| |done].
  intros [_ Hrest]%andb_prop. f_equal. by apply IH.
Qed.

Section last_invocation.
Context {Val : Type} (hasType : Val → string → bool) (zero : string → Val).

Lemma run_variadicCapture_slots T n (_params : list (list (option Val))) i :
  (i ≤ length _params)%nat → capturable hasType T n _params i = true →
  run_variadicCapture hasType zero T n _params i
  = Some ((λ u, variadicSlots (zero T) _params i u) <$> seq 0 n).
Proof.
  intros Hi Hcapturable. unfold run_variadicCapture. apply mapM_Some.
  apply Forall2_fmap_r, Forall_Forall2_diag, Forall_forall.
  intros u Hu%elem_of_seq.
  apply (run_variadicInner_slots hasType zero T n); [done|lia|done].
Qed.

Lemma run_position_last (argTypes : list string) isVariadic n
    (_params : list (list (option Val))) i T :
  (0 < n)%nat →
  (if isVariadic && bool_decide (i = length argTypes - 1)%nat
   then bool_decide (i ≤ length _params)%nat
        && capturable hasType (strings_Remove1 T "[]") n _params i
   else match _params !! i with
        | Some column =>
            bool_decide (length column = n) && capturableColumn hasType T n column
        | None => false
        end) = true →
  ∃ c, run_position hasType zero (length argTypes) isVariadic n _params i T
       ≫= lastCaptured = Some c
       ∧ argumentOfCall zero (length argTypes) isVariadic _params (n - 1) i T = Some c.
Proof.
  intros Hn Hposition. unfold run_position, argumentOfCall.
  destruct (isVariadic && bool_decide (i = length argTypes - 1)%nat).
  - apply andb_prop in Hposition as [Hi%bool_decide_eq_true Hcapturable].
    rewrite run_variadicCapture_slots by done. eexists. split; [|done].
    destruct n as [|n]; [lia|]. replace (S n - 1)%nat with n by lia.
    rewrite seq_S, fmap_app, list_fmap_singleton.
    cbn [fmap option_fmap option_map mbind option_bind lastCaptured].
    by rewrite last_snoc.
  - unfold run_fixedCapture, indexed.
    destruct (_params !! i) as [column|]; [|done].
    apply andb_prop in Hposition as [Hlength%bool_decide_eq_true Hcolumn].
    pose proof (run_fixedCells_closed hasType zero T [] n column) as Hrun.
    cbn [app length Nat.add] in Hrun.
    rewrite Hrun, Hcolumn. clear Hrun.
    apply andb_prop in Hcolumn as [_ Hcells]. apply forallb_Some in Hcells.
    rewrite Hlength, Nat.sub_diag, app_nil_r.
    remember (omap id column) as values eqn:Hvalues. clear Hvalues. subst column.
    rewrite length_fmap in Hlength.
    change (inl <$> Some values)
      with (Some (inl values : list Val + list (list Val))).
    cbn [mbind option_bind lastCaptured].
    rewrite list_lookup_fmap, last_lookup, Hlength.
    replace (pred n) with (n - 1)%nat by lia.
    destruct (lookup_lt_is_Some_2 values (n - 1)%nat) as [v Hv]; [lia|].
    rewrite Hv. by exists (inl v).
Qed.

(** X11.  [GetCapturedArguments] gives back the arguments of the last
    invocation.  With at least one matched invocation and a matrix that is
    not empty and has, for every position that is not variadic, a column of
    one value of the right type per invocation, and from the variadic
    position on columns of one cell per invocation, the call returns one
    result per parameter: at a position that is not variadic the cell of
    the last invocation, at the variadic position the cells of the last
    invocation from that column on. *)
Theorem captured_arguments_of_last_invocation argTypes isVariadic n
    (_params : list (list (option Val))) :
  (0 < n)%nat → (0 < length _params)%nat →
  capturableMatrix hasType argTypes isVariadic n _params = true →
  ∃ captured,
    run_CapturedArguments hasType zero argTypes isVariadic n _params = Some captured
    ∧ length captured = length argTypes
    ∧ ∀ i T, argTypes !! i = Some T →
        captured !! i
        = argumentOfCall zero (length argTypes) isVariadic _params (n - 1) i T.
Proof.
  intros Hn Hparams Hmatrix.
  unfold run_CapturedArguments, run_GetAllCapturedArguments.
  destruct (decide (0 < length argTypes)%nat) as [Hargs|Hargs]; last first.
  { exists []. destruct argTypes; [done|simpl in Hargs; lia]. }
  rewrite decide_True by done. rewrite mapM_bind.
  unfold capturableMatrix in Hmatrix.
  assert (∀ i T, argTypes !! i = Some T →
            ∃ c, run_position hasType zero (length argTypes) isVariadic n _params i T
                 ≫= lastCaptured = Some c
                 ∧ argumentOfCall zero (length argTypes) isVariadic _params (n - 1) i T
                   = Some c) as Hpositions.
  { intros i T HT. apply run_position_last; [done|].
    rewrite forallb_forall in Hmatrix. apply (Hmatrix (i, T)).
    apply list_elem_of_In, list_elem_of_lookup. exists i.
    unfold indexed. by rewrite list_lookup_imap, HT. }
  destruct (mapM _ (indexed argTypes)) as [captured|] eqn:Hcaptured; last first.
  { exfalso. apply mapM_None, Exists_exists in Hcaptured as ([i T] & Hin & Hnone).
    apply list_elem_of_lookup in Hin as [j Hj]. unfold indexed in Hj.
    apply list_lookup_imap_Some in Hj as (T' & HT & [= -> ->]).
    destruct (Hpositions _ _ HT) as (c & Hc & _). congruence. }
  exists captured. split; [done|].
  apply mapM_Some in Hcaptured.
  split.
  { apply Forall2_length in Hcaptured. unfold indexed in Hcaptured.
    by rewrite length_imap in Hcaptured. }
  intros i T HT.
  destruct (Hpositions _ _ HT) as (c & Hc & ->).
  destruct (Forall2_lookup_l _ _ _ i (i, T) Hcaptured) as (c' & -> & Hc').
  { unfold indexed. by rewrite list_lookup_imap, HT. }
  simpl in Hc'. congruence.
Qed.

(** X12.  With an empty matrix [GetAllCapturedArguments] leaves every
    result empty, whatever the number of invocations; so
    [GetCapturedArguments], which takes the last element of each, panics
    for every method with a parameter, and returns nothing for one
    without. *)
Theorem captured_arguments_without_params argTypes isVariadic n :
  run_GetAllCapturedArguments hasType zero argTypes isVariadic n []
  = Some (imap (λ i _, nilPosition (length argTypes) isVariadic i) argTypes)
  ∧ run_CapturedArguments hasType zero argTypes isVariadic n []
    = if decide (argTypes = []) then Some [] else None.
Proof.
  unfold run_CapturedArguments, run_GetAllCapturedArguments.
  destruct argTypes as [|T argTypes]; [done|].
  rewrite decide_True by (simpl; lia). rewrite decide_False by (simpl; lia).
  unfold indexed. rewrite fmap_imap. split; [done|].
  rewrite decide_False by done. rewrite imap_cons. cbn [mbind option_bind mapM].
  assert (∀ numArgs i, lastCaptured (nilPosition numArgs isVariadic i
                                        : list Val + list (list Val)) = None) as Hnil.
  { intros numArgs i. unfold nilPosition. by case_match. }
  unfold compose. cbv beta iota. by rewrite Hnil.
Qed.
End last_invocation.

(** X11 on the calls [F(7, 3)] and [F(8, 1, 2)]: the last call passed [8],
    and [1, 2] as variadic values. *)
Lemma captured_arguments_of_last_invocation_witness :
  run_CapturedArguments anyInt zeroInt ["int"; "[]int"] true 2 callMatrix
  = Some [inl 8%Z; inr [1%Z; 2%Z]].
Proof.
  destruct (captured_arguments_of_last_invocation anyInt zeroInt ["int"; "[]int"] true 2
              callMatrix) as (captured & Hrun & _ & _).
  - apply Nat.lt_0_succ.
  - apply Nat.lt_0_succ.
  - reflexivity.
  - rewrite Hrun. vm_compute in Hrun. by injection Hrun as <-.
Defined.

(** ** The results of the intercepting method *)

Section results.
Context `{lib : GoLibrary} `{pkgModel : ModelPackage}.
Context {Val : Type} (hasType : Val → string → bool) (zero : string → Val).

Lemma run_assertResult_typed pm pkgOverride returnType v :
  hasType v (Type_String returnType pm pkgOverride) = true →
  run_assertResult hasType zero pm pkgOverride returnType (Some v) = Some v.
Proof.
  intros Htyped. unfold run_assertResult.
  destruct returnType as [| | | | | |Dir Elem]; cbn [typeAssert]; try by rewrite Htyped.
  destruct (decide (Dir ≠ 0%Z)); cbn [typeAssert typeAssertOk]; [|by rewrite Htyped].
  destruct (hasType v (Type_String (ChanType 0 Elem) pm pkgOverride)); [done|].
  by rewrite Htyped.
Qed.

(** X13.  The intercepting method tests the result vector for being
    empty, and then reads one slot per output: on a vector that is not
    empty and has fewer slots than the method has outputs, the emitted
    statements panic at the first index that is missing. *)
Theorem short_result_vector_panics pm pkgOverride returnTypes
    (_result : list (option Val)) :
  (0 < length _result)%nat → (length _result < length returnTypes)%nat →
  run_results hasType zero pm pkgOverride returnTypes _result = None.
Proof.
  intros Hfilled Hshort. unfold run_results. rewrite decide_True by lia.
  apply mapM_None, Exists_exists.
  destruct (lookup_lt_is_Some_2 returnTypes (length _result) Hshort) as [returnType Htype].
  exists (length _result, returnType). split.
  - apply list_elem_of_lookup. exists (length _result).
    unfold indexed. by rewrite list_lookup_imap, Htype.
  - by rewrite lookup_ge_None_2.
Qed.

(** X14.  On a result vector with a slot for every output, in which
    every slot is [nil] or holds a value of the type of its output, the
    intercepting method returns the vector as it is, the zero value of the
    output in place of a [nil]. *)
Theorem typed_results_returned pm pkgOverride returnTypes (_result : list (option Val)) :
  (length returnTypes ≤ length _result)%nat →
  (∀ i returnType v,
     returnTypes !! i = Some returnType → _result !! i = Some (Some v) →
     hasType v (Type_String returnType pm pkgOverride) = true) →
  run_results hasType zero pm pkgOverride returnTypes _result
  = Some (imap (λ i returnType,
                  default (zero (Type_String returnType pm pkgOverride))
                          (mjoin (_result !! i)))
               returnTypes).
Proof.
  intros Hlength Htyped. unfold run_results.
  destruct (decide (length _result ≠ 0)) as [Hfilled|Hempty].
  - apply mapM_Some, Forall2_same_length_lookup. unfold indexed.
    split; [by rewrite !length_imap|].
    intros i [j returnType] value Hi Hvalue.
    apply list_lookup_imap_Some in Hi as (returnType' & Htype & [= -> ->]).
    rewrite list_lookup_imap, Htype in Hvalue. simplify_eq/=.
    destruct (lookup_lt_is_Some_2 _result i) as [slot Hslot].
    { apply lookup_lt_Some in Htype. lia. }
    rewrite Hslot. cbn. destruct slot as [v|]; [|done].
    apply run_assertResult_typed. by eapply Htyped.
  - destruct returnTypes; [done|]. simpl in Hlength. lia.
Qed.
End results.

Section results_examples.
Existing Instance exampleLibrary.
Existing Instance simpleModel.instance.

(** X13 on [Thing_Get], which has two outputs, and a vector of one slot *)
Lemma short_result_vector_panics_witness :
  run_results anyInt zeroInt ∅ "" (param_Type <$> method_Out Thing_Get) [Some 5%Z] = None.
Proof.
  apply short_result_vector_panics.
  - apply Nat.lt_0_succ.
  - simpl. lia.
Defined.

(** X14 on [Thing_Get] and the vector of a value and [nil] *)
Lemma typed_results_returned_witness :
  run_results anyInt zeroInt ∅ "" (param_Type <$> method_Out Thing_Get) [Some 5%Z; None]
  = Some [5%Z; 0%Z].
Proof.
  rewrite (typed_results_returned anyInt zeroInt ∅ "" (param_Type <$> method_Out Thing_Get)
             [Some 5%Z; None]).
  - reflexivity.
  - simpl. lia.
  - intros i returnType v _ _. reflexivity.
Defined.
End results_examples.

(** ** [vendorCleaned] *)

Lemma length_append (s1 s2 : string) :
  String.length (s1 +:+ s2) = (String.length s1 + String.length s2)%nat.
Proof.
  induction s1 as [|c s1 IH]; [done|].
  change (S (String.length (s1 +:+ s2)) = S (String.length s1 + String.length s2)).
  by rewrite IH.
Qed.

Lemma prefix_empty (s : string) : String.prefix "" s = true.
Proof. by destruct s. Qed.

Lemma prefix_append (sep rest : string) : String.prefix sep (sep +:+ rest) = true.
Proof.
  induction sep as [|c sep IH]; [apply prefix_empty|].
  change (String.prefix (String c sep) (String c (sep +:+ rest)) = true).
  cbn [String.prefix]. by destruct (ascii_dec c c).
Qed.

(** Whether [sep] starts a string is decided by as many bytes as [sep] has. *)
Lemma prefix_app_short (sep u z : string) :
  (String.length sep ≤ String.length u)%nat →
  String.prefix sep (u +:+ z) = String.prefix sep u.
Proof.
  revert u. induction sep as [|c sep IH]; intros u Hlength.
  - by rewrite !prefix_empty.
  - destruct u as [|b u]; [simpl in Hlength; lia|].
    change (String.prefix (String c sep) (String b (u +:+ z))
            = String.prefix (String c sep) (String b u)).
    cbn [String.prefix]. destruct (ascii_dec c b); [|done].
    apply IH. simpl in Hlength. lia.
Qed.

Lemma Split_from_skip (sep passed cur rest : string) :
  Split_from sep (String.length passed) cur (passed +:+ rest) = Split_from sep 0 cur rest.
Proof.
  induction passed as [|c passed IH]; [done|].
  change (Split_from sep (S (String.length passed)) cur (String c (passed +:+ rest))
          = Split_from sep 0 cur rest).
  cbn [Split_from]. apply IH.
Qed.

Lemma Split_from_at_sep (c : ascii) (sep cur rest : string) :
  Split_from (String c sep) 0 cur (String c sep +:+ rest)
  = cur :: Split_from (String c sep) 0 "" rest.
Proof.
  pose proof (prefix_append (String c sep) rest) as Hprefix.
  change (String c sep +:+ rest) with (String c (sep +:+ rest)) in *.
  cbn [Split_from]. rewrite Hprefix. f_equal.
  cbn [String.length]. rewrite Nat.sub_succ, Nat.sub_0_r.
  apply Split_from_skip.
Qed.

Lemma Split_from_without (sep cur s : string) :
  strings_Contains s sep = false → Split_from sep 0 cur s = [cur +:+ s].
Proof.
  revert cur. induction s as [|c s IH]; intros cur Hnone.
  - cbn. by rewrite append_empty_r.
  - cbn [strings_Contains] in Hnone. apply orb_false_elim in Hnone as [Hprefix Hrest].
    cbn [Split_from]. rewrite Hprefix, IH by done.
    by rewrite append_assoc.
Qed.

(** Up to the first [/vendor/], [strings.Split] passes byte by byte. *)
Lemma Split_from_first_vendor (a cur rest : string) :
  strings_Contains (a +:+ "/vendor") "/vendor/" = false →
  Split_from "/vendor/" 0 cur (a +:+ "/vendor/" +:+ rest)
  = (cur +:+ a) :: Split_from "/vendor/" 0 "" rest.
Proof.
  revert cur. induction a as [|c a IH]; intros cur Hnone.
  - rewrite append_empty_r. apply (Split_from_at_sep "/" "vendor/").
  - change (String c a +:+ "/vendor") with (String c (a +:+ "/vendor")) in Hnone.
    cbn [strings_Contains] in Hnone. apply orb_false_elim in Hnone as [Hprefix Hrest].
    change (String c a +:+ "/vendor/" +:+ rest)
      with (String c (a +:+ "/vendor/" +:+ rest)).
    assert (String.prefix "/vendor/" (String c (a +:+ "/vendor/" +:+ rest)) = false)
      as Hlonger.
    { etrans; [|exact Hprefix].
      replace (a +:+ "/vendor/" +:+ rest) with ((a +:+ "/vendor") +:+ "/" +:+ rest)
        by (by rewrite append_assoc).
      apply (prefix_app_short "/vendor/" (String c (a +:+ "/vendor")) ("/" +:+ rest)).
      cbn [String.length]. rewrite length_append. simpl. lia. }
    cbn [Split_from]. rewrite Hlonger.
    rewrite IH by done. by rewrite append_assoc.
Qed.

(** X15.  A path in which [/vendor/] does not occur is left as it is by
    [vendorCleaned], and putting a vendor directory in front of it is
    undone: with the first [/vendor/] of the path right after [a], the
    result for [a/vendor/b] is [b]. *)
Theorem vendorCleaned_strips_vendor_directory a b :
  strings_Contains b "/vendor/" = false →
  strings_Contains (a +:+ "/vendor") "/vendor/" = false →
  vendorCleaned b = b ∧ vendorCleaned (a +:+ "/vendor/" +:+ b) = b.
Proof.
  intros Hb Ha. unfold vendorCleaned, strings_Split. split.
  - by rewrite Split_from_without.
  - rewrite Split_from_first_vendor by done. by rewrite Split_from_without.
Qed.

(** X16.  Of a path with two vendor directories, one inside the other,
    [vendorCleaned] returns what is between the first two [/vendor/], and
    not the innermost path: the result for [a/vendor/b/vendor/c] is
    [b]. *)
Theorem vendorCleaned_nested_vendor_directories a b c :
  strings_Contains (a +:+ "/vendor") "/vendor/" = false →
  strings_Contains (b +:+ "/vendor") "/vendor/" = false →
  vendorCleaned (a +:+ "/vendor/" +:+ b +:+ "/vendor/" +:+ c) = b.
Proof.
  intros Ha Hb. unfold vendorCleaned, strings_Split.
  rewrite Split_from_first_vendor by done.
  rewrite Split_from_first_vendor by done.
  done.
Qed.

(** X15 on a vendored copy of [example.com/lib] *)
Lemma vendorCleaned_strips_vendor_directory_witness :
  vendorCleaned "example.com/lib" = "example.com/lib"
  ∧ vendorCleaned "example.com/app/vendor/example.com/lib" = "example.com/lib".
Proof.
  apply (vendorCleaned_strips_vendor_directory "example.com/app" "example.com/lib").
  - reflexivity.
  - reflexivity.
Defined.

(** X16 on a vendor directory inside a vendored package *)
Lemma vendorCleaned_nested_vendor_directories_witness :
  vendorCleaned "example.com/app/vendor/example.com/lib/vendor/example.com/codec"
  = "example.com/lib".
Proof.
  apply (vendorCleaned_nested_vendor_directories "example.com/app" "example.com/lib"
           "example.com/codec").
  - reflexivity.
  - reflexivity.
Defined.

(** ** The resolver reads the paths only *)

Section resolver_paths.
Context `{lib : GoLibrary}.

(** X17.  The aliases depend on the set of import paths and on nothing
    else: neither on the values of the map [importPaths], which are never
    read, nor on the order in which Go visits its keys, which
    [sort.Strings] undoes. *)
Theorem aliases_depend_on_paths_only ord1 ord2 (importPaths1 importPaths2 : gmap string bool) :
  (∀ path, is_Some (importPaths1 !! path) ↔ is_Some (importPaths2 !! path)) →
  generateUniquePackageNamesFor ord1 importPaths1
  = generateUniquePackageNamesFor ord2 importPaths2.
Proof.
  intros Hpaths. unfold generateUniquePackageNamesFor.
  rewrite (sort_Strings_order (lo_Keys ord1 importPaths1) (lo_Keys ord2 importPaths2));
    [done|].
  apply NoDup_Permutation; [apply lo_Keys_NoDup..|].
  intros path. by rewrite !elem_of_lo_Keys.
Qed.
End resolver_paths.

Section resolver_paths_examples.
Existing Instance exampleLibrary.

(** X17 on two maps with the path [fmt], visited in two orders *)
Lemma aliases_depend_on_paths_only_witness :
  generateUniquePackageNamesFor forwardOrder (fmtPaths true)
  = generateUniquePackageNamesFor backwardOrder (fmtPaths false).
Proof.
  apply aliases_depend_on_paths_only.
  intros path. unfold fmtPaths. by rewrite !lookup_insert_is_Some.
Defined.
End resolver_paths_examples.

(** ** The head of the buffer, and the import of the runtime *)

Lemma Bytes_app (l1 l2 : list string) pm :
  Bytes {| buf := l1 ++ l2; packageMap := pm |}
  = Bytes {| buf := l1; packageMap := pm |} +:+ Bytes {| buf := l2; packageMap := pm |}.
Proof. unfold Bytes. cbn [buf]. by rewrite fmap_app, concat_empty_app. Qed.

Section head.
Context `{lib : GoLibrary} `{pkgModel : ModelPackage}.

(** X18.  The buffer that [generateCode] fills, the one handed to the
    formatting pass, starts with the same bytes for every input: the
    comment that marks the file as generated, the name of the source, an
    empty line, the package clause, an empty line, and an import block
    that opens with [reflect] and [time], each line closed by a
    newline. *)
Theorem generated_file_head ord source pkg structName pkgName selfPackage :
  ∃ g rest,
    generateCode ord source pkg structName pkgName selfPackage newGenerator = Ok g
    ∧ Bytes g
      = "// Code generated by pegomock. DO NOT EDIT." +:+ newline
        +:+ "// Source: " +:+ source +:+ newline
        +:+ newline
        +:+ "package " +:+ pkgName +:+ newline
        +:+ newline
        +:+ "import (" +:+ newline
        +:+ dquote +:+ "reflect" +:+ dquote +:+ newline
        +:+ dquote +:+ "time" +:+ dquote +:+ newline
        +:+ rest.
Proof.
  destruct (generateUniquePackageNamesFor_total ord
              (<[mockFrameworkImportPath := true]> (Package_Imports pkg)))
    as [[pm nv] Hnames].
  eexists _, _. split; [by apply generateCode_run|].
  cbn [buf newGenerator app]. rewrite Bytes_app.
  unfold Bytes at 1, headerLines. cbn [buf fmap list_fmap String.concat].
  rewrite !append_assoc. reflexivity.
Qed.

Lemma generateCode_import_line ord source pkg structName pkgName selfPackage pm nv g
    key alias :
  generateUniquePackageNamesFor ord
    (<[mockFrameworkImportPath := true]> (Package_Imports pkg)) = Some (pm, nv) →
  nv !! key = Some alias →
  key ≠ selfPackage → key ≠ "time" → key ≠ "reflect" →
  ∃ g', generateCode ord source pkg structName pkgName selfPackage g = Ok g'
        ∧ packageMap g' = pm
        ∧ alias +:+ " " +:+ fmt_q key ∈ buf g'.
Proof.
  intros Hnames Halias Hself Htime Hreflect.
  eexists. split; [by apply generateCode_run|]. cbn [buf packageMap].
  split; [done|].
  apply elem_of_app. right. apply elem_of_app. right. apply elem_of_app. left.
  apply elem_of_importLines; [|done..].
  rewrite (map_range_perm ord). by apply elem_of_map_to_list.
Qed.

(** X19.  The generated code names the runtime by the qualifier
    [pegomock], whatever its import path ends in.  When no two import
    paths are cleaned to the same key and the mocks are not generated into
    the package of the runtime itself, [g.packageMap] has the alias
    [pegomock] for the path of the runtime and the import block has the
    line that imports this path under this alias. *)
Theorem runtime_imported_as_pegomock ord source pkg structName pkgName selfPackage g :
  NoDup (cleanedKeys (<[mockFrameworkImportPath := true]> (Package_Imports pkg))) →
  selfPackage ≠ mockFrameworkImportPath →
  ∃ g',
    generateCode ord source pkg structName pkgName selfPackage g = Ok g'
    ∧ packageMap g' !! mockFrameworkImportPath = Some "pegomock"
    ∧ "pegomock " +:+ fmt_q mockFrameworkImportPath ∈ buf g'.
Proof.
  intros Hnodup Hself.
  destruct (generateUniquePackageNamesFor_total ord
              (<[mockFrameworkImportPath := true]> (Package_Imports pkg)))
    as [[pm nv] Hnames].
  destruct (generateUniquePackageNamesFor_sound ord _ pm nv Hnames)
    as (_ & _ & Hruntime & _ & Hviews).
  assert (is_Some ((<[mockFrameworkImportPath := true]> (Package_Imports pkg))
                     !! mockFrameworkImportPath)) as Hin.
  { rewrite lookup_insert_eq. by eexists. }
  specialize (Hruntime Hin).
  specialize (Hviews (λ path1 path2, cleanedKeys_inj _ path1 path2 Hnodup)
                mockFrameworkImportPath Hin).
  change (vendorCleaned mockFrameworkImportPath) with mockFrameworkImportPath in Hviews.
  rewrite Hruntime in Hviews.
  destruct (generateCode_import_line ord source pkg structName pkgName selfPackage pm nv g
              mockFrameworkImportPath "pegomock" Hnames Hviews)
    as (g' & Hrun & Hpm & Hline); [done|discriminate|discriminate|].
  exists g'. split; [done|]. split; [by rewrite Hpm|done].
Qed.
End head.

Section head_examples.
Existing Instance exampleLibrary.
Existing Instance simpleModel.instance.

(** X19 on [feedPackage] *)
Lemma runtime_imported_as_pegomock_witness :
  ∃ g',
    generateCode forwardOrder "feed.go" feedPackage "" "feed_test" "example.com/feed"
      newGenerator = Ok g'
    ∧ packageMap g' !! mockFrameworkImportPath = Some "pegomock"
    ∧ "pegomock " +:+ fmt_q mockFrameworkImportPath ∈ buf g'.
Proof.
  apply runtime_imported_as_pegomock.
  - apply (bool_decide_unpack _). vm_compute. exact I.
  - discriminate.
Defined.
End head_examples.

(** ** The functions generated for a method *)

Section method_functions.
Context `{lib : GoLibrary} `{pkgModel : ModelPackage}.

Ltac scaffold_writes :=
  repeat lazymatch goal with
    | |- writes _ (andThen _ _) => apply writes_seq
    | |- writes _ (forEach _ _) => apply writes_forEach; intros; cbv beta
    | |- writes _ (p _) => apply writes_p
    | |- writes _ emptyLine => apply writes_p
    | |- writes _ (generateMockMethod _ _ _ _) => apply generateMockMethod_writes
    | |- writes _ (generateMockType _ _ _) => apply generateMockType_writes
    | |- writes _ (generateMockVerifyMethods _ _) => apply generateMockVerifyMethods_writes
    | |- writes _ (generateVerifierType _ _ _) => apply generateVerifierType_writes
    | |- writes _ (generateVerifierMethod _ _ _ _ _ _ _) =>
        apply generateVerifierMethod_writes
    | |- writes _ (generateOngoingVerificationType _ _ _ _) =>
        apply generateOngoingVerificationType_writes
    | |- writes _ (generateOngoingVerificationGetCapturedArguments _ _ _ _) =>
        eexists; apply generateOngoingVerificationGetCapturedArguments_emits
    | |- writes _ (generateOngoingVerificationGetAllCapturedArguments _ _ _ _) =>
        apply generateOngoingVerificationGetAllCapturedArguments_writes
    | Hbody : ∀ method, writes _ (let _ := _ in _) |- writes _ _ => apply Hbody
    end.

(** What is generated for an interface, in the two rounds over its
    methods *)
Lemma generateMockFor_rounds pm iface n selfPackage :
  let tp := typeParamsStringFrom (iface_TypeParams iface) pm selfPackage true in
  let tpn := typeParamsStringFrom (iface_TypeParams iface) pm selfPackage false in
  written pm (generateMockFor iface n selfPackage)
  = written pm (generateMockType n tp tpn)
    ++ concat ((λ method,
                  written pm (generateMockMethod n tpn method selfPackage ;; emptyLine))
                 <$> iface_Methods iface)
    ++ written pm (generateMockVerifyMethods n tpn)
    ++ written pm (generateVerifierType n tp tpn)
    ++ concat ((λ method,
                  written pm
                    (generateVerifierMethod n tpn method selfPackage
                       (ongoingVerificationName n method)
                       (argDataFor method pm selfPackage).1.1.1 (argNamesOf method) ;;
                     generateOngoingVerificationType n tp tpn
                       (ongoingVerificationName n method) ;;
                     generateOngoingVerificationGetCapturedArguments
                       (ongoingVerificationName n method) (argNamesOf method)
                       (argTypesOf pm selfPackage method) tpn ;;
                     generateOngoingVerificationGetAllCapturedArguments
                       (ongoingVerificationName n method) tpn
                       (argTypesOf pm selfPackage method)
                       (bool_decide (is_Some (method_Variadic method)))))
                 <$> iface_Methods iface).
Proof.
  intros tp tpn. unfold written at 1, generateMockFor. cbn [packageMap].
  fold tp tpn.
  match goal with
  | |- match ?e _ with _ => _ end = ?rhs => change (written pm e = rhs)
  end.
  assert (∀ method,
            writes pm
              (let ongoingVerificationTypeName :=
                 n +:+ "_" +:+ method_Name method +:+ "_OngoingVerification" in
               let '(args, argNames, argTypes, _) := argDataFor method pm selfPackage in
               generateVerifierMethod n tpn method selfPackage
                 ongoingVerificationTypeName args argNames ;;
               generateOngoingVerificationType n tp tpn ongoingVerificationTypeName ;;
               generateOngoingVerificationGetCapturedArguments ongoingVerificationTypeName
                 argNames argTypes tpn ;;
               generateOngoingVerificationGetAllCapturedArguments
                 ongoingVerificationTypeName tpn argTypes
                 (bool_decide (is_Some (method_Variadic method)))))
    as Hscaffold.
  { intros method. rewrite (argDataFor_eta method pm selfPackage). cbv beta iota zeta.
    scaffold_writes. }
  rewrite written_seq by scaffold_writes.
  rewrite written_seq by scaffold_writes.
  rewrite written_seq by scaffold_writes.
  rewrite written_seq by scaffold_writes.
  rewrite !written_forEach by (intros; cbv beta; scaffold_writes).
  do 4 f_equal. f_equal. apply list_fmap_ext. intros _ method _. cbv beta.
  rewrite (argDataFor_eta method pm selfPackage). cbv beta iota zeta.
  by rewrite argDataFor_argTypes.
Qed.

(** X20.  The stand-in gets, for every method of the interface, the
    four functions that belong to it: the method itself on the stand-in,
    with the parameters and results of [argDataFor], the method of the
    same name on the verifier, which returns the ongoing verification of
    the method, and [GetCapturedArguments] and [GetAllCapturedArguments]
    on that ongoing verification. *)
Theorem every_method_gets_its_functions pm iface n selfPackage method :
  method ∈ iface_Methods iface →
  let tpn := typeParamsStringFrom (iface_TypeParams iface) pm selfPackage false in
  let out := written pm (generateMockFor iface n selfPackage) in
  interceptSignature pm n tpn method selfPackage ∈ out
  ∧ verifierSignature pm n tpn method selfPackage ∈ out
  ∧ capturedSignature pm n tpn method selfPackage ∈ out
  ∧ allCapturedSignature pm n tpn method selfPackage ∈ out.
Proof.
  intros Hmethod tpn out. unfold out. rewrite generateMockFor_rounds. fold tpn.
  set (tp := typeParamsStringFrom (iface_TypeParams iface) pm selfPackage true).
  assert (∀ l1 l2 l3 l4 (line : string),
            line ∈ written pm (generateMockMethod n tpn method selfPackage ;; emptyLine) →
            line ∈ l1
                   ++ concat ((λ method,
                                 written pm (generateMockMethod n tpn method selfPackage ;;
                                             emptyLine)) <$> iface_Methods iface)
                   ++ l2 ++ l3 ++ l4) as Hfirst.
  { intros l1 l2 l3 l4 line Hline. apply elem_of_app. right. apply elem_of_app. left.
    apply elem_of_concat. eexists. split; [exact Hline|].
    apply list_elem_of_fmap. by exists method. }
  assert (∀ l1 l2 l3 l4 (f : Method → list string) (line : string),
            line ∈ f method →
            line ∈ l1 ++ l2 ++ l3 ++ l4 ++ concat (f <$> iface_Methods iface)) as Hsecond.
  { intros l1 l2 l3 l4 f line Hline. rewrite !elem_of_app. do 4 right.
    apply elem_of_concat. eexists. split; [exact Hline|].
    apply list_elem_of_fmap. by exists method. }
  split; [|split; [|split]].
  - apply Hfirst.
    rewrite written_seq by (try apply generateMockMethod_writes; apply writes_p).
    apply elem_of_app. left.
    rewrite (emits_written _ _ _ (generateMockMethod_emits pm n tpn method selfPackage)).
    apply elem_of_app. left. apply elem_of_app. left. by left.
  - apply Hsecond. cbv beta.
    rewrite written_seq by scaffold_writes.
    apply elem_of_app. left.
    unfold generateVerifierMethod.
    rewrite written_seq; [|apply writes_p|].
    + by left.
    + apply writes_seq; [|scaffold_writes].
      eexists. apply GenerateParamsDeclaration_emits.
  - apply Hsecond. cbv beta.
    rewrite written_seq by scaffold_writes. apply elem_of_app. right.
    rewrite written_seq by scaffold_writes. apply elem_of_app. right.
    rewrite written_seq by scaffold_writes. apply elem_of_app. left.
    rewrite (emits_written _ _ _
               (generateOngoingVerificationGetCapturedArguments_emits pm _ _ _ _)).
    by left.
  - apply Hsecond. cbv beta.
    rewrite written_seq by scaffold_writes. apply elem_of_app. right.
    rewrite written_seq by scaffold_writes. apply elem_of_app. right.
    rewrite written_seq by scaffold_writes. apply elem_of_app. right.
    unfold generateOngoingVerificationGetAllCapturedArguments.
    rewrite written_seq; [by left|apply writes_p|].
    apply writes_seq; [|scaffold_writes].
    destruct (decide _); [|apply writes_skip].
    apply writes_seq; [apply writes_p|]. apply writes_seq; [apply writes_p|].
    apply writes_seq; [|scaffold_writes].
    apply writes_forEachi. intros i argType.
    destruct (_ && _); scaffold_writes.
Qed.
End method_functions.

Section method_functions_examples.
Existing Instance exampleLibrary.
Existing Instance simpleModel.instance.

(** X20 on the method [Get] of [Thing] *)
Lemma every_method_gets_its_functions_witness :
  "func (mock *MockThing) Get(key string) (string, error) {"
  ∈ written ∅ (generateMockFor Thing "MockThing" "")
  ∧ "func (verifier *VerifierMockThing) Get(key string) *MockThing_Get_OngoingVerification {"
    ∈ written ∅ (generateMockFor Thing "MockThing" "")
  ∧ "func (c *MockThing_Get_OngoingVerification) GetCapturedArguments() (string) {"
    ∈ written ∅ (generateMockFor Thing "MockThing" "")
  ∧ "func (c *MockThing_Get_OngoingVerification) GetAllCapturedArguments() (_param0 []string) {"
    ∈ written ∅ (generateMockFor Thing "MockThing" "").
Proof.
  pose proof (every_method_gets_its_functions ∅ Thing "MockThing" "" Thing_Get) as Hget.
  vm_compute in Hget. vm_compute. apply Hget. left.
Defined.
End method_functions_examples.

(** ** The shape of an alias *)

Section alias_shapes.
Context `{lib : GoLibrary}.

Lemma nameLoop_shape used base r :
  nameLoop used base (S (size used)) 0 base = Some r →
  r = base ∨ ∃ j, r = base +:+ strconv_Itoa j.
Proof.
  simpl. destruct (nameTaken used base); [|intros [= <-]; by left].
  intros (j & _ & -> & _)%nameLoop_from. right. by exists j.
Qed.

Lemma assignAlias_shape st importPath st' :
  (∀ path alias, names.packageMap st !! path = Some alias → aliasFromBase path alias) →
  assignAlias st importPath = Some st' →
  ∀ path alias, names.packageMap st' !! path = Some alias → aliasFromBase path alias.
Proof.
  intros Hshape Hassign. unfold assignAlias in Hassign.
  destruct (nameLoop _ _ _ _ _) as [name|] eqn:Hloop; [|done].
  simpl in Hassign. injection Hassign as <-.
  intros path alias. simpl.
  destruct (decide (importPath = path)) as [->|Hne].
  - rewrite lookup_insert_eq. intros [= <-]. unfold aliasFromBase.
    destruct (decide (path = mockFrameworkImportPath)); [done|].
    by apply nameLoop_shape in Hloop.
  - rewrite lookup_insert_ne by done. apply Hshape.
Qed.

Lemma assignAliases_shape st paths st' :
  (∀ path alias, names.packageMap st !! path = Some alias → aliasFromBase path alias) →
  assignAliases st paths = Some st' →
  ∀ path alias, names.packageMap st' !! path = Some alias → aliasFromBase path alias.
Proof.
  revert st. induction paths as [|importPath paths IH]; intros st Hshape Hassign;
    simpl in Hassign.
  - by simplify_eq.
  - destruct (assignAlias st importPath) as [st1|] eqn:Hstep; simplify_eq/=.
    apply (IH st1); [|done]. by eapply assignAlias_shape.
Qed.

(** X21.  An alias is made from the last element of its import path:
    the alias of a path other than that of the runtime is the sanitized
    base name of the path, or that name with a counter after it; the alias
    of the runtime is [pegomock]. *)
Theorem alias_made_from_base_name ord importPaths importPath alias :
  aliasOf (generateUniquePackageNamesFor ord importPaths) importPath = Some alias →
  aliasFromBase importPath alias.
Proof.
  unfold aliasOf, generateUniquePackageNamesFor.
  destruct (assignAliases _ _) as [st|] eqn:Hassign; [|done]. simpl.
  intros Halias.
  refine (assignAliases_shape noAliases _ st _ Hassign importPath alias Halias).
  intros path alias'. simpl. by rewrite lookup_empty.
Qed.
End alias_shapes.

Section alias_shapes_examples.
Existing Instance exampleLibrary.

(** X21 on [text/template], which comes after [html/template] *)
Lemma alias_made_from_base_name_witness :
  aliasFromBase "text/template" "template0".
Proof.
  apply (alias_made_from_base_name forwardOrder templatePaths).
  vm_compute. reflexivity.
Defined.
End alias_shapes_examples.

(** ** When the variadic position can be read *)

Lemma forallb_false {A} (f : A → bool) (l : list A) :
  forallb f l = false → ∃ x, x ∈ l ∧ f x = false.
Proof.
  induction l as [|x l IH]; [done|]. cbn [forallb].
  destruct (f x) eqn:Hx.
  - intros (y & Hy & Hfalse)%IH. exists y. split; [by right|done].
  - intros _. exists x. split; [by left|done].
Qed.

Section variadic_readable.
Context {Val : Type} (hasType : Val → string → bool) (zero : string → Val).

Lemma run_variadicInner_readable T n (_params : list (list (option Val))) i u :
  variadicReadable hasType T n _params i = true → (u < n)%nat →
  run_variadicInner hasType zero T _params i u
  = Some (variadicSlots (zero T) _params i u).
Proof.
  intros [Hi%bool_decide_eq_true Hcolumns]%andb_prop Hu.
  unfold run_variadicInner. rewrite decide_True by done.
  rewrite <-(length_drop _params i).
  pose proof (run_variadicCells_slots hasType zero T _params i u (drop i _params) [])
    as Hcells.
  simpl in Hcells. rewrite Nat.add_0_r in Hcells. apply Hcells; [done|].
  apply Forall_forall. intros column Hin.
  rewrite forallb_forall in Hcolumns.
  apply list_elem_of_In, Hcolumns, andb_prop in Hin as [Hlen%bool_decide_eq_true Htyped].
  destruct (lookup_lt_is_Some_2 column u) as [cell Hcell]; [lia|].
  exists cell. split; [done|]. intros v ->.
  rewrite forallb_forall in Htyped. apply (Htyped (Some v)), list_elem_of_In.
  apply (list_elem_of_lookup_2 _ u). by rewrite lookup_take_lt.
Qed.

Lemma run_variadicCells_fails T (_params : list (list (option Val))) i u inner xs x :
  x ∈ xs →
  (∀ inner', run_variadicCell hasType T _params i u inner' x = None) →
  run_variadicCells hasType T _params i u inner xs = None.
Proof.
  intros Hx Hfails. revert inner.
  induction xs as [|x0 xs IH]; intros inner; [by apply elem_of_nil in Hx|].
  cbn [run_variadicCells].
  destruct (run_variadicCell hasType T _params i u inner x0) as [inner'|] eqn:Hcell;
    [|done].
  cbn. apply elem_of_cons in Hx as [->|Hx]; [by rewrite Hfails in Hcell|].
  by apply IH.
Qed.

Lemma run_variadicInner_fails T n (_params : list (list (option Val))) i :
  (0 < n)%nat → variadicReadable hasType T n _params i = false →
  ∃ u, (u < n)%nat ∧ run_variadicInner hasType zero T _params i u = None.
Proof.
  intros Hn Hreadable. unfold variadicReadable in Hreadable.
  destruct (decide (i ≤ length _params)%nat) as [Hi|Hi]; last first.
  { exists 0%nat. split; [done|]. unfold run_variadicInner. by rewrite decide_False. }
  rewrite bool_decide_eq_true_2 in Hreadable by done. cbn [andb] in Hreadable.
  apply forallb_false in Hreadable as (column & Hin & Hcolumn).
  apply list_elem_of_lookup in Hin as [k Hk]. rewrite lookup_drop in Hk.
  assert (∃ u, (u < n)%nat
               ∧ (column !! u = None
                  ∨ ∃ v, column !! u = Some (Some v) ∧ hasType v T = false))
    as (u & Hu & Hcell).
  { apply andb_false_iff in Hcolumn as [Hshort%bool_decide_eq_false|Hcells].
    - exists (length column). split; [lia|]. left. by apply lookup_ge_None_2.
    - apply forallb_false in Hcells as (cell & Hcell & Htyped).
      apply list_elem_of_lookup in Hcell as [u Hcell].
      apply lookup_take_Some in Hcell as [Hcell Hu].
      exists u. split; [done|]. right. destruct cell as [v|]; [|done]. by exists v. }
  exists u. split; [done|]. unfold run_variadicInner. rewrite decide_True by done.
  apply (run_variadicCells_fails T _params i u _ _ (i + k)%nat).
  - apply elem_of_seq. apply lookup_lt_Some in Hk. lia.
  - intros inner'. unfold run_variadicCell. rewrite Hk. cbn.
    destruct Hcell as [->|(v & -> & Htyped)]; [done|]. cbn. by rewrite Htyped.
Qed.

(** X22.  The variadic position of [GetAllCapturedArguments], for at
    least one invocation: the emitted loops return exactly when the matrix
    has a column for every parameter before the variadic one, and each
    column from the variadic position on has a cell for every invocation
    that is [nil] or holds a value of the element type; the result then
    has, for each invocation, one slot per column, the zero value where
    the cell is [nil].  In every other case they panic. *)
Theorem variadic_position_captured T n (_params : list (list (option Val))) i :
  (0 < n)%nat →
  run_variadicCapture hasType zero T n _params i
  = if variadicReadable hasType T n _params i
    then Some ((λ u, variadicSlots (zero T) _params i u) <$> seq 0 n)
    else None.
Proof.
  intros Hn. unfold run_variadicCapture.
  destruct (variadicReadable hasType T n _params i) eqn:Hreadable.
  - apply mapM_Some, Forall2_fmap_r, Forall_Forall2_diag, Forall_forall.
    intros u Hu%elem_of_seq. apply (run_variadicInner_readable T n); [done|lia].
  - destruct (run_variadicInner_fails T n _params i Hn Hreadable) as (u & Hu & Hfails).
    apply mapM_None, Exists_exists. exists u. split; [|done].
    apply elem_of_seq. lia.
Qed.
End variadic_readable.

(** X22 on the calls [F(7, 3)] and [F(8, 1, 2)]: the first call has the
    zero value in its second slot. *)
Lemma variadic_position_captured_witness :
  run_variadicCapture anyInt zeroInt "int" 2 callMatrix 1
  = Some [ [3%Z; 0%Z]; [1%Z; 2%Z] ].
Proof.
  rewrite (variadic_position_captured anyInt zeroInt "int" 2 callMatrix 1).
  - reflexivity.
  - apply Nat.lt_0_succ.
Defined.

(** ** The captured arguments, in the body of the two accessors *)

Lemma length_omap_le {A B} (f : A → option B) (l : list A) :
  (length (omap f l) ≤ length l)%nat.
Proof. induction l as [|x l IH]; [done|]. cbn. destruct (f x); simpl; lia. Qed.

(** The slots are the values passed only where no cell is [nil]. *)
Lemma variadicSlots_passed_inv {Val : Type} (z : Val) _params i u :
  variadicSlots z _params i u = variadicValuesPassed _params i u →
  ∀ column, column ∈ drop i _params → ∃ v, column !! u = Some (Some v).
Proof.
  unfold variadicSlots, variadicValuesPassed.
  induction (drop i _params) as [|column columns IH]; intros Heq c Hc;
    [by apply elem_of_nil in Hc|].
  rewrite fmap_cons in Heq. cbn [omap list_omap] in Heq.
  destruct (mjoin (column !! u)) as [v|] eqn:Hcell.
  - apply (f_equal tail) in Heq. cbn in Heq.
    apply elem_of_cons in Hc as [->|Hc]; [|by apply IH].
    exists v. destruct (column !! u) as [[?|]|]; by simplify_eq/=.
  - exfalso. apply (f_equal length) in Heq. cbn in Heq. rewrite length_fmap in Heq.
    pose proof (length_omap_le (λ column, mjoin (column !! u)) columns). lia.
Qed.

Section accessors.
Context `{lib : GoLibrary} `{pkgModel : ModelPackage}.

Lemma run_position_variadic {Val : Type} (hasType : Val → string → bool)
    (zero : string → Val) (argTypes : list string) n
    (_params : list (list (option Val))) i T :
  (if true && bool_decide (i = length argTypes - 1)%nat
   then bool_decide (i ≤ length _params)%nat
        && capturable hasType (strings_Remove1 T "[]") n _params i
   else match _params !! i with
        | Some column =>
            bool_decide (length column = n) && capturableColumn hasType T n column
        | None => false
        end) = true →
  ∃ x, run_position hasType zero (length argTypes) true n _params i T = Some x
       ∧ (i = length argTypes - 1 →
          x = inr ((λ u, variadicSlots (zero (strings_Remove1 T "[]")) _params i u)
                     <$> seq 0 n))%nat.
Proof.
  intros Hposition. unfold run_position.
  destruct (bool_decide (i = length argTypes - 1)%nat) eqn:Hlast; cbn [andb] in *.
  - apply andb_prop in Hposition as [Hi%bool_decide_eq_true Hcapturable].
    rewrite (run_variadicCapture_slots hasType zero) by done. by eexists.
  - apply bool_decide_eq_false in Hlast. unfold run_fixedCapture, indexed.
    destruct (_params !! i) as [column|]; [|done].
    apply andb_prop in Hposition as [_ Hcolumn].
    pose proof (run_fixedCells_closed hasType zero T [] n column) as Hrun.
    cbn [app length Nat.add] in Hrun. rewrite Hrun, Hcolumn. by eexists.
Qed.

(** C3, as the code has it.  For a method with a variadic parameter at
    position [i], of element type [T], the body of
    [GetAllCapturedArguments] is the declaration of [_params], and inside
    [if len(_params) > 0 { ... }] the reconstruction of the positions
    before [i] and then [variadicCaptureLines i T].  Run with [n] matched
    invocations: on an empty matrix the guard leaves the variadic result
    without any inner sequence; on a matrix that is not empty and has a
    column of [n] values of the right type for each position before [i]
    and columns of [n] cells, each [nil] or of type [T], from [i] on, the
    variadic result has [n] inner sequences, each of [len(_params) - i]
    slots, one per column from [i] on, a slot holding the cell of the call
    when the cell is not [nil] and the zero value of [T] when it is.  The
    inner sequence of a call is the sequence of its variadic values if and
    only if none of its cells from column [i] on is [nil]. *)
Theorem variadic_capture_in_body pm ongoingVerificationStructName typeParamNames method
    pkgOverride variadic :
  method_Variadic method = Some variadic →
  let i := length (method_In method) in
  let T := Type_String (param_Type variadic) pm pkgOverride in
  let argTypes := (argDataFor method pm pkgOverride).1.2 in
  emits pm (generateOngoingVerificationGetAllCapturedArguments
              ongoingVerificationStructName typeParamNames argTypes
              (bool_decide (is_Some (method_Variadic method))))
        ([ "func (c *" +:+ ongoingVerificationStructName +:+ typeParamNames
             +:+ ") GetAllCapturedArguments() ("
             +:+ strings_Join (imap (λ i argType, "_param" +:+ itoa i +:+ " []" +:+ argType)
                                    argTypes) ", " +:+ ") {";
           "_params := pegomock.GetGenericMockFrom(c.mock).GetInvocationParams(c.methodInvocations)";
           "if len(_params) > 0 {" ]
         ++ concat (imap fixedCaptureLines
                         ((λ arg, Type_String (param_Type arg) pm pkgOverride)
                            <$> method_In method))
         ++ variadicCaptureLines i T
         ++ ["}"; "return"; "}"; ""])
  ∧ ∀ (Val : Type) (hasType : Val → string → bool) (zero : string → Val)
      (n : nat) (_params : list (list (option Val))),
      (_params = [] →
       ∃ all, run_GetAllCapturedArguments hasType zero argTypes true n _params = Some all
              ∧ all !! i = Some (inr []))
      ∧ ((0 < length _params)%nat →
         capturableMatrix hasType argTypes true n _params = true →
         ∃ all, run_GetAllCapturedArguments hasType zero argTypes true n _params = Some all
                ∧ all !! i
                  = Some (inr ((λ u, variadicSlots (zero T) _params i u) <$> seq 0 n)))
      ∧ (∀ u, length (variadicSlots (zero T) _params i u) = (length _params - i)%nat)
      ∧ (∀ u, variadicSlots (zero T) _params i u = variadicValuesPassed _params i u
              ↔ ∀ column, column ∈ drop i _params → ∃ v, column !! u = Some (Some v)).
Proof.
  intros Hvariadic i T argTypes.
  assert (argTypes
          = ((λ arg, Type_String (param_Type arg) pm pkgOverride) <$> method_In method)
            ++ ["[]" +:+ T]) as HargTypes.
  { unfold argTypes. rewrite argDataFor_argTypes. unfold argTypesOf.
    by rewrite Hvariadic. }
  assert (length argTypes - 1 = i)%nat as Hlength.
  { rewrite HargTypes, length_app, length_fmap. simpl. unfold i. lia. }
  assert (argTypes !! i = Some ("[]" +:+ T)) as Hlast.
  { rewrite HargTypes. rewrite lookup_app_r by (by rewrite length_fmap).
    by rewrite length_fmap, Nat.sub_diag. }
  assert (0 < length argTypes)%nat as Hpos by (apply lookup_lt_Some in Hlast; lia).
  split.
  - rewrite Hvariadic, bool_decide_eq_true_2 by by eexists.
    eapply emits_eq;
      [by apply generateOngoingVerificationGetAllCapturedArguments_emits|].
    f_equal. rewrite (app_assoc (concat _)). f_equal.
    set (k := (length argTypes - 1)%nat). assert (k = i) as -> by done.
    clearbody argTypes. subst argTypes.
    rewrite imap_app, concat_app. f_equal.
    + f_equal. apply imap_ext. intros j argType Hj. cbv beta.
      rewrite bool_decide_eq_false_2; [done|].
      apply lookup_lt_Some in Hj. rewrite length_fmap in Hj. unfold i. lia.
    + cbn [imap concat]. rewrite length_fmap, Nat.add_0_r, app_nil_r. fold i.
      rewrite bool_decide_eq_true_2 by done. cbn [andb].
      by rewrite variadicBasicType.
  - intros Val hasType zero n _params. split; [|split; [|split]].
    + intros ->. unfold run_GetAllCapturedArguments.
      rewrite decide_True by done. rewrite decide_False by (simpl; lia).
      eexists. split; [done|].
      unfold indexed. rewrite list_lookup_fmap, list_lookup_imap, Hlast. cbn.
      unfold nilPosition. by rewrite Hlength, bool_decide_eq_true_2.
    + intros Hparams Hmatrix. unfold run_GetAllCapturedArguments.
      rewrite !decide_True by done.
      unfold capturableMatrix in Hmatrix. rewrite forallb_forall in Hmatrix.
      assert (∀ j argType, argTypes !! j = Some argType →
                ∃ x, run_position hasType zero (length argTypes) true n _params j argType
                     = Some x
                     ∧ (j = length argTypes - 1 →
                        x = inr ((λ u, variadicSlots
                                         (zero (strings_Remove1 argType "[]")) _params j u)
                                   <$> seq 0 n))%nat) as Hpositions.
      { intros j argType Hj. apply run_position_variadic.
        apply (Hmatrix (j, argType)), list_elem_of_In, list_elem_of_lookup.
        exists j. unfold indexed. by rewrite list_lookup_imap, Hj. }
      destruct (mapM _ (indexed argTypes)) as [all|] eqn:Hall; last first.
      { exfalso. apply mapM_None, Exists_exists in Hall as ([j argType] & Hin & Hnone).
        apply list_elem_of_lookup in Hin as [k Hk]. unfold indexed in Hk.
        apply list_lookup_imap_Some in Hk as (argType' & Hj & [= -> ->]).
        destruct (Hpositions _ _ Hj) as (x & Hx & _). congruence. }
      exists all. split; [done|].
      apply mapM_Some in Hall.
      destruct (Forall2_lookup_l _ _ _ i (i, "[]" +:+ T) Hall) as (x & -> & Hx).
      { unfold indexed. by rewrite list_lookup_imap, Hlast. }
      destruct (Hpositions _ _ Hlast) as (x' & Hx' & Hslots).
      simpl in Hx. rewrite Hx' in Hx. injection Hx as <-.
      rewrite Hslots by done. by rewrite variadicBasicType.
    + intros u. apply variadicSlots_length.
    + intros u. split; [apply variadicSlots_passed_inv|apply variadicSlots_passed].
Qed.

(** C8, as the code has it.  [GetCapturedArguments] of a method with
    parameters is written as a call of [GetAllCapturedArguments] that
    binds one sequence per parameter name, and a [return] of the element
    at index [len - 1] of each; for a method without parameters the body
    is empty.  For names that can be bound so, these statements, run on
    the sequences [all], return the last element of each sequence when
    every sequence has an element, and panic when one has none.  That is
    the case whenever the matrix is empty: then [GetAllCapturedArguments]
    returns empty sequences, and the call panics for every method with a
    parameter. *)
Theorem GetCapturedArguments_last_or_panic pm ongoingVerificationStructName argNames
    argTypes typeParamNames :
  bindable argNames = true →
  emits pm (generateOngoingVerificationGetCapturedArguments
              ongoingVerificationStructName argNames argTypes typeParamNames)
        (match argNames with
         | [] =>
             [ "func (c *" +:+ ongoingVerificationStructName +:+ typeParamNames
                 +:+ ") GetCapturedArguments() (" +:+ join argTypes +:+ ") {";
               "}"; "" ]
         | _ =>
             [ "func (c *" +:+ ongoingVerificationStructName +:+ typeParamNames
                 +:+ ") GetCapturedArguments() (" +:+ join argTypes +:+ ") {";
               join argNames +:+ " := c.GetAllCapturedArguments()";
               "return " +:+ join ((λ a, a +:+ "[len(" +:+ a +:+ ")-1]") <$> argNames);
               "}"; "" ]
         end)
  ∧ (∀ (V : Type) (all : list (list V)),
       ([] ∉ all →
        ∃ captured, run_GetCapturedArguments all = Some captured
                    ∧ length captured = length all
                    ∧ ∀ i history, all !! i = Some history →
                        captured !! i = last history)
       ∧ ([] ∈ all → run_GetCapturedArguments all = None))
  ∧ ∀ (Val : Type) (hasType : Val → string → bool) (zero : string → Val)
      (isVariadic : bool) (n : nat),
      run_CapturedArguments hasType zero argTypes isVariadic n []
      = if decide (argTypes = []) then Some [] else None.
Proof.
  intros _. split; [|split].
  - eapply emits_eq; [apply generateOngoingVerificationGetCapturedArguments_emits|].
    unfold capturedArgumentsLines. by destruct argNames.
  - intros V all. unfold run_GetCapturedArguments. split.
    + intros Hfull.
      destruct (mapM last all) as [captured|] eqn:Hall.
      * apply mapM_Some in Hall. exists captured. split; [done|].
        split; [symmetry; by eapply Forall2_length|].
        intros i history Hi.
        by destruct (Forall2_lookup_l _ _ _ _ _ Hall Hi) as (value & -> & ->).
      * apply mapM_None, Exists_exists in Hall as (history & Hin & Hlast).
        by apply last_None in Hlast as ->.
    + intros Hempty. apply mapM_None, Exists_exists. by exists [].
  - intros Val hasType zero isVariadic n.
    unfold run_CapturedArguments, run_GetAllCapturedArguments.
    destruct argTypes as [|T argTypes']; [done|].
    rewrite decide_True by (simpl; lia). rewrite decide_False by (simpl; lia).
    rewrite decide_False by done. unfold indexed. rewrite fmap_imap, imap_cons.
    cbn [mbind option_bind mapM].
    assert (∀ numArgs i, lastCaptured (nilPosition numArgs isVariadic i
                                          : list Val + list (list Val)) = None) as Hnil.
    { intros numArgs i. unfold nilPosition. by case_match. }
    unfold compose. cbv beta iota. by rewrite Hnil.
Qed.
End accessors.

Section accessors_examples.
Existing Instance exampleLibrary.
Existing Instance simpleModel.instance.

(** C3, against the claim as stated.  After the calls [Push(3)] and
    [Push(1, 2)] the inner sequence for the first call is [3, 0], with
    the zero value in the slot of the column the call has no value in,
    where the variadic values passed on that call are [3] alone.  And on a
    matrix without columns, as after calls without variadic values, there
    is no inner sequence at all, however many invocations matched. *)
Lemma variadic_inner_sequences_differ :
  (argDataFor Thing_Push ∅ "").1.2 = ["[]int"]
  ∧ run_GetAllCapturedArguments anyInt zeroInt ["[]int"] true 2 pushMatrix
    = Some [inr [ [3%Z; 0%Z]; [1%Z; 2%Z] ]]
  ∧ variadicValuesPassed pushMatrix 0 0 = [3%Z]
  ∧ [3%Z; 0%Z] ≠ variadicValuesPassed pushMatrix 0 0
  ∧ run_GetAllCapturedArguments anyInt zeroInt ["[]int"] true 2 [] = Some [inr []].
Proof.
  split; [reflexivity|]. split; [vm_compute; reflexivity|].
  split; [reflexivity|]. split; [vm_compute; discriminate|].
  vm_compute. reflexivity.
Qed.

(** C3 on [Thing_Push] and the matrix of [Push(3)], [Push(1, 2)] *)
Lemma variadic_capture_in_body_witness :
  method_Variadic Thing_Push = Some {| param_Name := "items"; param_Type := t_int |}
  ∧ ∃ all,
      run_GetAllCapturedArguments anyInt zeroInt ["[]int"] true 2 pushMatrix = Some all
      ∧ all !! 0%nat = Some (inr [ [3%Z; 0%Z]; [1%Z; 2%Z] ]).
Proof.
  split; [reflexivity|].
  destruct (variadic_capture_in_body ∅ "MockThing_Push_OngoingVerification" ""
              Thing_Push "" _ eq_refl) as [_ Hrun].
  destruct (Hrun Z anyInt zeroInt 2%nat pushMatrix) as (_ & Hfilled & _).
  destruct (Hfilled (Nat.lt_0_succ _) eq_refl) as (all & Hall & Hslots).
  exists all. split; [exact Hall|exact Hslots].
Defined.

(** C8, against the claim as stated.  [Get(key string)] has a parameter;
    with no invocation in the matrix [GetAllCapturedArguments] returns an
    empty sequence for it, which has no last element, and
    [GetCapturedArguments] panics.  For a parameter with the name of the
    receiver the statement that binds the sequences is
    [c := c.GetAllCapturedArguments()]. *)
Lemma GetCapturedArguments_without_last_element :
  (argDataFor Thing_Get ∅ "").1.2 = ["string"]
  ∧ run_GetAllCapturedArguments anyInt zeroInt ["string"] false 0 [] = Some [inl []]
  ∧ run_GetCapturedArguments ([[]] : list (list Z)) = None
  ∧ run_CapturedArguments anyInt zeroInt ["string"] false 0 [] = None
  ∧ written ∅ (generateOngoingVerificationGetCapturedArguments
                 "MockThing_Get_OngoingVerification" ["c"] ["string"] "") !! 1%nat
    = Some "c := c.GetAllCapturedArguments()".
Proof. repeat split; vm_compute; reflexivity. Qed.

(** C8 on the names and histories of a method with two parameters *)
Lemma GetCapturedArguments_last_or_panic_witness :
  bindable ["key"; "value"] = true
  ∧ run_GetCapturedArguments [ [1%Z; 2%Z; 3%Z]; [4%Z; 5%Z] ] = Some [3%Z; 5%Z]
  ∧ run_GetCapturedArguments [ [1%Z; 2%Z; 3%Z]; [] ] = None.
Proof.
  split; [reflexivity|].
  destruct (GetCapturedArguments_last_or_panic ∅ "MockStore_Put_OngoingVerification"
              ["key"; "value"] ["string"; "int"] "" eq_refl) as (_ & Hrun & _).
  split.
  - destruct (Hrun Z [ [1%Z; 2%Z; 3%Z]; [4%Z; 5%Z] ]) as [Hlast _].
    destruct Hlast as (captured & Hcaptured & _ & _).
    + intros Hin. apply elem_of_cons in Hin as [Hin|Hin]; [discriminate|].
      apply elem_of_cons in Hin as [Hin|Hin]; [discriminate|].
      by apply elem_of_nil in Hin.
    + rewrite Hcaptured. vm_compute in Hcaptured. by injection Hcaptured as <-.
  - destruct (Hrun Z [ [1%Z; 2%Z; 3%Z]; [] ]) as [_ Hpanic].
    apply Hpanic. right. left.
Defined.
End accessors_examples.

(** ** Two runs on one input *)

Lemma sameFormatting_sym r1 r2 : sameFormatting r1 r2 → sameFormatting r2 r1.
Proof. by destruct r1, r2. Qed.

Lemma sameFormatting_trans r1 r2 r3 :
  sameFormatting r1 r2 → sameFormatting r2 r3 → sameFormatting r1 r3.
Proof. destruct r1, r2, r3; simpl; try done. by intros -> ->. Qed.

Section determinism.
Context `{lib : GoLibrary} `{pkgModel : ModelPackage}.

(** C1.  For a fixed input, two runs of [GenerateOutput] assign the same
    aliases, whatever the order in which each of them visits its maps:
    the paths are sorted before the aliases are given.  The buffers of the
    two runs differ at most in the order of the import lines of
    [nonVendorPackageMap].  So when the formatting pass treats alike the
    buffers of the input that differ in the order of these lines only, as
    [go/format] does, which sorts the specs of an import block, the two
    runs return the same bytes; where the pass fails, they both panic. *)
Theorem GenerateOutput_deterministic ord1 ord2 ast source nameOut packageOut selfPackage
    pm nv :
  generateUniquePackageNamesFor ord1
    (<[mockFrameworkImportPath := true]> (Package_Imports ast)) = Some (pm, nv) →
  (∀ l1 l2,
     l1 ≡ₚ importLines selfPackage (map_to_list nv) → l2 ≡ₚ l1 →
     sameFormatting
       (format_Source
          (Bytes {| buf := headerLines source packageOut ++ l1
                             ++ trailerLines pm ast nameOut selfPackage;
                    packageMap := pm |}))
       (format_Source
          (Bytes {| buf := headerLines source packageOut ++ l2
                             ++ trailerLines pm ast nameOut selfPackage;
                    packageMap := pm |}))) →
  generateUniquePackageNamesFor ord2
    (<[mockFrameworkImportPath := true]> (Package_Imports ast)) = Some (pm, nv)
  ∧ match GenerateOutput ord1 ast source nameOut packageOut selfPackage,
          GenerateOutput ord2 ast source nameOut packageOut selfPackage with
    | Ok out1, Ok out2 => out1 = out2
    | Panic _, Panic _ => True
    | _, _ => False
    end.
Proof.
  intros Hnames Hformat.
  destruct (generation_up_to_import_order ord1 ord2 source ast nameOut packageOut
              selfPackage)
    as (pm' & nv' & g1 & g2 & Hnames1 & Hnames2 & _ & _ & Hpm1 & Hpm2 & Hbuf1 & Hbuf2
        & _ & -> & ->).
  rewrite Hnames in Hnames1. injection Hnames1 as <- <-.
  split; [done|].
  destruct g1 as [buf1 pm1], g2 as [buf2 pm2]. simpl in *. subst.
  unfold formattedOutput.
  specialize (Hformat (importLines selfPackage (map_range ord1 nv))
                      (importLines selfPackage (map_range ord2 nv))).
  unfold sameFormatting in Hformat.
  destruct (format_Source _), (format_Source _); apply Hformat.
  all: first [ apply importLines_Permutation, map_range_perm
             | apply importLines_Permutation; by rewrite !map_range_perm ].
Qed.
End determinism.

Section determinism_examples.
Existing Instance sortingLibrary.
Existing Instance simpleModel.instance.

(** C1 on [feedPackage], with a formatting pass that sorts the import
    block: the runs that visit the maps forwards and backwards return the
    same bytes. *)
Lemma GenerateOutput_deterministic_witness :
  ∃ out,
    GenerateOutput forwardOrder feedPackage "feed.go" "" "feed_test" "example.com/feed"
    = Ok out
    ∧ GenerateOutput backwardOrder feedPackage "feed.go" "" "feed_test" "example.com/feed"
      = Ok out.
Proof.
  destruct (GenerateOutput_deterministic forwardOrder backwardOrder feedPackage "feed.go"
              "" "feed_test" "example.com/feed" feedNames.1 feedNames.2)
    as [_ Hsame].
  - unfold feedNames. cbn [Package_Imports simpleModel.instance].
    destruct (generateUniquePackageNamesFor forwardOrder _) as [[pm nv]|] eqn:Hnames;
      [reflexivity|].
    destruct (generateUniquePackageNamesFor_total forwardOrder
                (<[mockFrameworkImportPath := true]> (simpleModel.imports feedPackage)))
      as [names Hsome].
    rewrite Hnames in Hsome. discriminate Hsome.
  - assert (∀ l,
              importLines "example.com/feed" (map_to_list feedNames.2) ≡ₚ l →
              sameFormatting
                (format_Source
                   (Bytes {| buf := headerLines "feed.go" "feed_test" ++ l
                                      ++ trailerLines feedNames.1 feedPackage ""
                                           "example.com/feed";
                             packageMap := feedNames.1 |}))
                (format_Source
                   (Bytes {| buf := headerLines "feed.go" "feed_test"
                                      ++ importLines "example.com/feed"
                                           (map_to_list feedNames.2)
                                      ++ trailerLines feedNames.1 feedPackage ""
                                           "example.com/feed";
                             packageMap := feedNames.1 |}))) as Hsorted.
    { intros l Hl. apply permutations_Permutation in Hl. vm_compute in Hl.
      repeat (apply elem_of_cons in Hl as [->|Hl]; [vm_compute; reflexivity|]).
      by apply elem_of_nil in Hl. }
    intros l1 l2 Hl1 Hl2.
    eapply sameFormatting_trans.
    + apply Hsorted. symmetry. exact Hl1.
    + apply sameFormatting_sym, Hsorted. symmetry. etrans; [exact Hl2|exact Hl1].
  - destruct (GenerateOutput forwardOrder _ _ _ _ _) as [out1|msg1|] eqn:Hforward;
      destruct (GenerateOutput backwardOrder _ _ _ _ _) as [out2|msg2|] eqn:Hbackward;
      try (exfalso; exact Hsame).
    + clear Hforward Hbackward. exists out1. split; [reflexivity|].
      f_equal. symmetry. exact Hsame.
    + vm_compute in Hforward. discriminate Hforward.
Defined.
End determinism_examples.
